(** * chat-to-calendar: schedule validator, ICS encoder and calendar link

    A shallow embedding of [src/lib/schema.ts], [src/lib/ics.ts],
    [src/lib/appleLink.ts] and the handler of
    [src/app/api/schedule/route.ts], with the properties of the validator,
    of the two encoders and of the handler stated and proved over it.

    Conventions of the embedding:
    - a JavaScript string is the list of its UTF-16 code units;
    - a JavaScript number that the program only uses as an integer is a
      [Z], with [None] standing for [NaN];
    - a [Date] is its time value (milliseconds since the epoch), [None]
      for an Invalid Date;
    - an exception is the [Throw] result of the error monad;
    - the system clock is explicit state;
    - what the request handler takes from its surroundings (the body of
      the request, the environment, the answer of OpenAI) is a record of
      outcomes, and what it does besides answering is a list of
      effects. *)

From Stdlib Require Import String Ascii Decimal DecimalNat DecimalPos.
From Stdlib Require Import ZArith NArith Bool Lia Arith.
From Stdlib Require Import List Permutation Sorted.
From Equations Require Import Equations.
Import ListNotations.

(* ===================================================================== *)
(** * The JavaScript host                                                 *)
(* ===================================================================== *)

Module JS.

(** ** Strings *)

Definition code_unit := N.
Definition jsstring := list code_unit.

(** A string literal of the source, as code units. *)
Definition lit (s : string) : jsstring :=
  map N_of_ascii (list_ascii_of_string s).
Arguments lit s%_string.

Definition CR : code_unit := 13%N.
Definition LF : code_unit := 10%N.
Definition SP : code_unit := 32%N.
Definition QUOTE : code_unit := 34%N.
Definition BACKSLASH : code_unit := 92%N.
Definition SEMICOLON : code_unit := 59%N.
Definition COMMA : code_unit := 44%N.
Definition CRLF : jsstring := [CR; LF].

(** [s.substring(a, b)] for [a <= b] and [s.substring(a)]; both clamp at
    the end of the string. *)
Definition substring (s : jsstring) (a b : nat) : jsstring :=
  firstn (b - a) (skipn a s).
Definition substring_from (s : jsstring) (a : nat) : jsstring :=
  skipn a s.

(** [parts.join(sep)] *)
Fixpoint join (sep : jsstring) (parts : list jsstring) : jsstring :=
  match parts with
  | [] => []
  | [p] => p
  | p :: rest => p ++ sep ++ join sep rest
  end.

(** [s.replace(/c/g, by)] for a pattern that is one literal code unit. *)
Definition replace_all (c : code_unit) (by_ : jsstring) (s : jsstring)
  : jsstring :=
  flat_map (fun x => if N.eqb x c then by_ else [x]) s.

(** [s.padStart(n, '0')] *)
Definition padStart0 (n : nat) (s : jsstring) : jsstring :=
  repeat 48%N (n - length s) ++ s.

(** ** Numbers *)

(** A number that is an integer or [NaN]. *)
Definition jsnum := option Z.

Definition num_add (x : jsnum) (k : Z) : jsnum :=
  option_map (fun v => (v + k)%Z) x.

Fixpoint uint_units (d : Decimal.uint) : jsstring :=
  match d with
  | Nil => []
  | D0 d => 48%N :: uint_units d
  | D1 d => 49%N :: uint_units d
  | D2 d => 50%N :: uint_units d
  | D3 d => 51%N :: uint_units d
  | D4 d => 52%N :: uint_units d
  | D5 d => 53%N :: uint_units d
  | D6 d => 54%N :: uint_units d
  | D7 d => 55%N :: uint_units d
  | D8 d => 56%N :: uint_units d
  | D9 d => 57%N :: uint_units d
  end.

(** [String(n)] for a natural number, an integer, and a number. *)
Definition String_of_nat (n : nat) : jsstring :=
  uint_units (Nat.to_uint n).

Definition String_of_Z (z : Z) : jsstring :=
  match z with
  | Zneg p => 45%N :: uint_units (Pos.to_uint p)
  | _ => uint_units (N.to_uint (Z.to_N z))
  end.

Definition String_of_num (x : jsnum) : jsstring :=
  match x with
  | Some z => String_of_Z z
  | None => lit "NaN"
  end.

Definition is_digit (c : code_unit) : bool :=
  (48 <=? c)%N && (c <=? 57)%N.

(** The class [[a-zA-Z0-9]] of a regular expression. *)
Definition is_alnum (c : code_unit) : bool :=
  ((97 <=? c)%N && (c <=? 122)%N)
  || ((65 <=? c)%N && (c <=? 90)%N)
  || is_digit c.

(** ** Exceptions *)

Inductive result (A : Type) : Type :=
| Ok (a : A)
| Throw.
Arguments Ok {A} a.
Arguments Throw {A}.

Definition bind {A B} (m : result A) (k : A -> result B) : result B :=
  match m with
  | Ok a => k a
  | Throw => Throw
  end.

(** [xs[i].field]: reading a property of [undefined] is a TypeError. *)
Definition at_index {A} (xs : list A) (i : nat) : result A :=
  match nth_error xs i with
  | Some x => Ok x
  | None => Throw
  end.

(** [for (let i = start; i < start + count; i++) body] over a state. *)
Fixpoint for_range {St} (start count : nat)
    (body : nat -> St -> result St) (s : St) : result St :=
  match count with
  | O => Ok s
  | S c => bind (body start s) (for_range (S start) c body)
  end.

(** [xs.forEach((x, index) => body)] over a state. *)
Fixpoint forEach_from {A St} (index : nat) (xs : list A)
    (body : A -> nat -> St -> St) (s : St) : St :=
  match xs with
  | [] => s
  | x :: rest => forEach_from (S index) rest body (body x index s)
  end.
Definition forEach {A St} (xs : list A) (body : A -> nat -> St -> St)
    (s : St) : St := forEach_from 0 xs body s.

(** [xs.forEach(x => body)] over a state, with a body that may throw. *)
Fixpoint forEachR {A St} (xs : list A) (body : A -> St -> result St)
    (s : St) : result St :=
  match xs with
  | [] => Ok s
  | x :: rest => bind (body x s) (forEachR rest body)
  end.

(** ** Dates *)

(** The time value of a [Date]; [None] is an Invalid Date. *)
Definition Date := option Z.

(** What the program takes from its host: how [new Date(text)] reads a
    text, and the offset of local time from UTC at an instant. *)
Class Host : Type := {
  Date_parse : jsstring -> Date;
  LocalTZA : Z -> Z
}.

(** [a < b] and [a > b] on two Dates: a comparison of time values, false as
    soon as one of them is [NaN]. *)
Definition date_lt (a b : Date) : bool :=
  match a, b with
  | Some x, Some y => (x <? y)%Z
  | _, _ => false
  end.
Definition date_gt (a b : Date) : bool := date_lt b a.

(** Time values, after the ECMAScript abstract operations: [Day],
    [YearFromTime], [MonthFromTime] (from 0), [DateFromTime] (from 1),
    [HourFromTime], [MinFromTime], [SecFromTime], [msFromTime]. The civil
    date of a day number is computed in the proleptic Gregorian calendar
    over 400-year eras that start on a 1st of March. *)
Section TimeValues.
Local Open Scope Z_scope.

Definition msPerDay : Z := 86400000.
Definition Day (t : Z) : Z := t / msPerDay.

Definition civil_from_days (days : Z) : Z * Z * Z :=
  let z := days + 719468 in
  let era := z / 146097 in
  let doe := z - era * 146097 in
  let yoe := (doe - doe / 1460 + doe / 36524 - doe / 146096) / 365 in
  let doy := doe - (365 * yoe + yoe / 4 - yoe / 100) in
  let mp := (5 * doy + 2) / 153 in
  let d := doy - (153 * mp + 2) / 5 + 1 in
  let m := if mp <? 10 then mp + 3 else mp - 9 in
  let y := yoe + era * 400 + (if m <=? 2 then 1 else 0) in
  (y, m, d).

Definition days_from_civil (y m d : Z) : Z :=
  let y := if m <=? 2 then y - 1 else y in
  let era := y / 400 in
  let yoe := y - era * 400 in
  let doy := (153 * (if 2 <? m then m - 3 else m + 9) + 2) / 5 + d - 1 in
  let doe := yoe * 365 + yoe / 4 - yoe / 100 + doy in
  era * 146097 + doe - 719468.

Definition YearFromTime (t : Z) : Z :=
  let '(y, _, _) := civil_from_days (Day t) in y.
Definition MonthFromTime (t : Z) : Z :=
  let '(_, m, _) := civil_from_days (Day t) in m - 1.
Definition DateFromTime (t : Z) : Z :=
  let '(_, _, d) := civil_from_days (Day t) in d.
Definition HourFromTime (t : Z) : Z := (t / 3600000) mod 24.
Definition MinFromTime (t : Z) : Z := (t / 60000) mod 60.
Definition SecFromTime (t : Z) : Z := (t / 1000) mod 60.
Definition msFromTime (t : Z) : Z := t mod 1000.

Context {host : Host}.

Definition LocalTime (t : Z) : Z := t + LocalTZA t.

Definition getUTCFullYear (d : Date) : jsnum := option_map YearFromTime d.
Definition getUTCMonth (d : Date) : jsnum := option_map MonthFromTime d.
Definition getUTCDate (d : Date) : jsnum := option_map DateFromTime d.
Definition getUTCHours (d : Date) : jsnum := option_map HourFromTime d.
Definition getUTCMinutes (d : Date) : jsnum := option_map MinFromTime d.
Definition getUTCSeconds (d : Date) : jsnum := option_map SecFromTime d.

Definition getFullYear (d : Date) : jsnum :=
  option_map (fun t => YearFromTime (LocalTime t)) d.
Definition getMonth (d : Date) : jsnum :=
  option_map (fun t => MonthFromTime (LocalTime t)) d.
Definition getDate (d : Date) : jsnum :=
  option_map (fun t => DateFromTime (LocalTime t)) d.
Definition getHours (d : Date) : jsnum :=
  option_map (fun t => HourFromTime (LocalTime t)) d.
Definition getMinutes (d : Date) : jsnum :=
  option_map (fun t => MinFromTime (LocalTime t)) d.

End TimeValues.

(** [d.toISOString()] of a valid Date: [YYYY-MM-DDTHH:mm:ss.sssZ], the
    year with a sign and six digits outside 0..9999. *)
Definition toISOString (t : Z) : jsstring :=
  let y := YearFromTime t in
  let year :=
    if ((0 <=? y) && (y <=? 9999))%Z then padStart0 4 (String_of_Z y)
    else (if (y <? 0)%Z then lit "-" else lit "+")
         ++ padStart0 6 (String_of_Z (Z.abs y)) in
  year ++ lit "-" ++ padStart0 2 (String_of_Z (MonthFromTime t + 1))
  ++ lit "-" ++ padStart0 2 (String_of_Z (DateFromTime t))
  ++ lit "T" ++ padStart0 2 (String_of_Z (HourFromTime t))
  ++ lit ":" ++ padStart0 2 (String_of_Z (MinFromTime t))
  ++ lit ":" ++ padStart0 2 (String_of_Z (SecFromTime t))
  ++ lit "." ++ padStart0 3 (String_of_Z (msFromTime t))
  ++ lit "Z".

(** ** The system clock *)

(** The readings the clock will give, and how many were taken. *)
Record World : Type := {
  clock : nat -> Z;
  reads : nat
}.

Definition M (A : Type) : Type := World -> A * World.
Definition ret {A} (a : A) : M A := fun w => (a, w).
Definition bindM {A B} (m : M A) (k : A -> M B) : M B :=
  fun w => let (a, w') := m w in k a w'.

(** [Date.now()], and the time value of [new Date()]. *)
Definition Date_now : M Z :=
  fun w => (clock w (reads w), {| clock := clock w; reads := S (reads w) |}).

(** [xs.forEach((x, index) => body)] over a state, with a body that reads
    the clock. *)
Fixpoint forEachM_from {A St} (index : nat) (xs : list A)
    (body : A -> nat -> St -> M St) (s : St) : M St :=
  match xs with
  | [] => ret s
  | x :: rest =>
    bindM (body x index s) (forEachM_from (S index) rest body)
  end.
Definition forEachM {A St} (xs : list A) (body : A -> nat -> St -> M St)
    (s : St) : M St := forEachM_from 0 xs body s.

(** ** URLSearchParams *)

Definition is_high_surrogate (c : N) : bool :=
  (55296 <=? c)%N && (c <=? 56319)%N.
Definition is_low_surrogate (c : N) : bool :=
  (56320 <=? c)%N && (c <=? 57343)%N.

(** Code units to scalar values: a surrogate pair is one code point, a lone
    surrogate is replaced by U+FFFD. *)
Fixpoint scalar_values (s : jsstring) : list N :=
  match s with
  | [] => []
  | c :: rest =>
    if is_high_surrogate c then
      match rest with
      | lo :: rest' =>
        if is_low_surrogate lo
        then (65536 + (c - 55296) * 1024 + (lo - 56320))%N
             :: scalar_values rest'
        else 65533%N :: scalar_values rest
      | [] => [65533%N]
      end
    else if is_low_surrogate c then 65533%N :: scalar_values rest
    else c :: scalar_values rest
  end.

Definition utf8_encode (cp : N) : list N :=
  if (cp <? 128)%N then [cp]
  else if (cp <? 2048)%N then
    [N.lor 192 (N.shiftr cp 6); N.lor 128 (N.land cp 63)]
  else if (cp <? 65536)%N then
    [N.lor 224 (N.shiftr cp 12); N.lor 128 (N.land (N.shiftr cp 6) 63);
     N.lor 128 (N.land cp 63)]
  else
    [N.lor 240 (N.shiftr cp 18); N.lor 128 (N.land (N.shiftr cp 12) 63);
     N.lor 128 (N.land (N.shiftr cp 6) 63); N.lor 128 (N.land cp 63)].

Definition hex_digit (n : N) : code_unit :=
  if (n <? 10)%N then (48 + n)%N else (55 + n)%N.

(** The application/x-www-form-urlencoded byte serializer. *)
Definition urlencode_byte (b : N) : jsstring :=
  if (b =? 32)%N then lit "+"
  else if (b =? 42)%N || (b =? 45)%N || (b =? 46)%N || (b =? 95)%N
          || is_alnum b
  then [b]
  else [37%N; hex_digit (N.shiftr b 4); hex_digit (N.land b 15)].

Definition urlencode (s : jsstring) : jsstring :=
  flat_map urlencode_byte (flat_map utf8_encode (scalar_values s)).

(** [params.toString()] of a [URLSearchParams] holding the appended
    name-value pairs in order. *)
Definition URLSearchParams := list (jsstring * jsstring).
Definition URLSearchParams_toString (params : URLSearchParams) : jsstring :=
  join (lit "&")
    (map (fun '(name, value) => urlencode name ++ lit "=" ++ urlencode value)
       params).

End JS.

(* ===================================================================== *)
(** * src/lib/schema.ts                                                   *)
(* ===================================================================== *)

Module Schema.
Import JS.

Record Event : Type := {
  title : jsstring;
  start_local : jsstring;
  end_local : jsstring;
  description : option jsstring;
  location : option jsstring
}.

Record ScheduleResponse : Type := {
  timezone : jsstring;
  events : list Event
}.

Record ValidationResult : Type := {
  isValid : bool;
  errors : list jsstring
}.

Section Validation.
Context {host : Host}.

Definition isValidEventTiming (event : Event) : bool :=
  let start := Date_parse (start_local event) in
  let end_ := Date_parse (end_local event) in
  date_gt end_ start.

Definition eventsOverlap (event1 event2 : Event) : bool :=
  let start1 := Date_parse (start_local event1) in
  let end1 := Date_parse (end_local event1) in
  let start2 := Date_parse (start_local event2) in
  let end2 := Date_parse (end_local event2) in
  date_lt start1 end2 && date_lt start2 end1.

Definition findOverlappingEvents (events : list Event)
  : result (list (nat * nat)) :=
  let overlaps : list (nat * nat) := [] in
  for_range 0 (length events) (fun i overlaps =>
    for_range (i + 1) (length events - (i + 1)) (fun j overlaps =>
      bind (at_index events i) (fun ei =>
      bind (at_index events j) (fun ej =>
      if eventsOverlap ei ej
      then Ok (overlaps ++ [(i, j)])
      else Ok overlaps)))
      overlaps)
    overlaps.

Definition timingError (index : nat) (event : Event) : jsstring :=
  lit "Event " ++ String_of_nat (index + 1) ++ lit " (" ++ title event
  ++ lit "): end time must be after start time".

Definition overlapError (ei ej : Event) : jsstring :=
  lit "Events overlap: " ++ [QUOTE] ++ title ei ++ [QUOTE] ++ lit " and "
  ++ [QUOTE] ++ title ej ++ [QUOTE].

Definition validateSchedule (schedule : ScheduleResponse)
  : result ValidationResult :=
  let errors : list jsstring := [] in
  let errors :=
    match timezone schedule with
    | [] => errors ++ [lit "Timezone is required"]
    | _ :: _ => errors
    end in
  let errors :=
    forEach (events schedule) (fun event index errors =>
      if negb (isValidEventTiming event)
      then errors ++ [timingError index event]
      else errors) errors in
  bind (findOverlappingEvents (events schedule)) (fun overlaps =>
  bind (if 0 <? length overlaps
        then forEachR overlaps (fun '(i, j) errors =>
               bind (at_index (events schedule) i) (fun ei =>
               bind (at_index (events schedule) j) (fun ej =>
               Ok (errors ++ [overlapError ei ej])))) errors
        else Ok errors) (fun errors =>
  Ok {| isValid := length errors =? 0; errors := errors |})).

End Validation.
End Schema.

(* ===================================================================== *)
(** * src/lib/ics.ts                                                      *)
(* ===================================================================== *)

Module Ics.
Import JS Schema.

Notation "'let*' x ':=' m 'in' k" := (bindM m (fun x => k))
  (at level 10, x name, m at level 100, k at level 200).

Section Encoder.
Context {host : Host}.

Definition formatDateForICS (localDateTime : jsstring) : jsstring :=
  let date := Date_parse localDateTime in
  let year := getUTCFullYear date in
  let month := padStart0 2 (String_of_num (num_add (getUTCMonth date) 1)) in
  let day := padStart0 2 (String_of_num (getUTCDate date)) in
  let hours := padStart0 2 (String_of_num (getUTCHours date)) in
  let minutes := padStart0 2 (String_of_num (getUTCMinutes date)) in
  let seconds := padStart0 2 (String_of_num (getUTCSeconds date)) in
  String_of_num year ++ month ++ day ++ lit "T" ++ hours ++ minutes
  ++ seconds ++ lit "Z".

Definition escapeICSText (text : jsstring) : jsstring :=
  replace_all LF (lit "\n")
    (replace_all COMMA (lit "\,")
       (replace_all SEMICOLON (lit "\;")
          (replace_all BACKSLASH (lit "\\") text))).

(** The loop of [foldLine]: while [remaining] is not empty, push a space
    and its first 74 code units, and drop them. *)
Equations? foldLine_loop (remaining : jsstring) (folded : list jsstring)
  : list jsstring by wf (length remaining) lt :=
  foldLine_loop [] folded := folded;
  foldLine_loop (c :: rest) folded :=
    foldLine_loop (substring_from (c :: rest) 74)
      (folded ++ [lit " " ++ substring (c :: rest) 0 74]).
Proof.
  apply Nat.lt_succ_r.
  change (length (skipn 73 rest) <= length rest).
  rewrite length_skipn. lia.
Qed.

Definition foldLine (line : jsstring) : jsstring :=
  if length line <=? 75 then line
  else
    let folded : list jsstring := [] in
    let remaining := line in
    let folded := folded ++ [substring remaining 0 75] in
    let remaining := substring_from remaining 75 in
    let folded := foldLine_loop remaining folded in
    join CRLF folded.

Definition generateUID (event : Event) (index : nat) : M jsstring :=
  let* timestamp := Date_now in
  let hash :=
    filter is_alnum
      (title event ++ lit "-" ++ start_local event ++ lit "-"
       ++ String_of_nat index) in
  ret (String_of_Z timestamp ++ lit "-" ++ hash ++ lit "@chat-to-calendar").

Definition createVEvent (event : Event) (index : nat) : M (list jsstring) :=
  let lines : list jsstring := [] in
  let lines := lines ++ [lit "BEGIN:VEVENT"] in
  let* uid := generateUID event index in
  let lines := lines ++ [lit "UID:" ++ uid] in
  let* now := Date_now in
  let lines :=
    lines ++ [lit "DTSTAMP:" ++ formatDateForICS (toISOString now)] in
  let lines :=
    lines ++ [lit "DTSTART:" ++ formatDateForICS (start_local event)] in
  let lines :=
    lines ++ [lit "DTEND:" ++ formatDateForICS (end_local event)] in
  let lines := lines ++ [lit "SUMMARY:" ++ escapeICSText (title event)] in
  let lines :=
    match description event with
    | Some ((_ :: _) as d) => lines ++ [lit "DESCRIPTION:" ++ escapeICSText d]
    | _ => lines
    end in
  let lines :=
    match location event with
    | Some ((_ :: _) as l) => lines ++ [lit "LOCATION:" ++ escapeICSText l]
    | _ => lines
    end in
  let lines := lines ++ [lit "END:VEVENT"] in
  ret lines.

(** [generateICS] up to the footer: the value of [lines] when the lines
    are about to be folded. *)
Definition documentLines (schedule : ScheduleResponse) : M (list jsstring) :=
  let lines : list jsstring := [] in
  let lines := lines ++ [lit "BEGIN:VCALENDAR"] in
  let lines := lines ++ [lit "VERSION:2.0"] in
  let lines := lines ++ [lit "PRODID:-//Chat to Calendar//EN"] in
  let lines := lines ++ [lit "CALSCALE:GREGORIAN"] in
  let lines := lines ++ [lit "METHOD:PUBLISH"] in
  let lines := lines ++ [lit "X-WR-TIMEZONE:" ++ timezone schedule] in
  let* lines :=
    forEachM (events schedule)
      (fun event index lines =>
         let* block := createVEvent event index in
         ret (lines ++ block))
      lines in
  let lines := lines ++ [lit "END:VCALENDAR"] in
  ret lines.

Definition generateICS (schedule : ScheduleResponse) : M jsstring :=
  let* lines := documentLines schedule in
  let foldedLines := map foldLine lines in
  ret (join CRLF foldedLines).

End Encoder.
End Ics.

(* ===================================================================== *)
(** * src/lib/appleLink.ts                                                *)
(* ===================================================================== *)

Module AppleLink.
Import JS Schema.

Section Link.
Context {host : Host}.

Definition formatDateForApple (localDateTime : jsstring) : jsstring :=
  let date := Date_parse localDateTime in
  let year := getFullYear date in
  let month := padStart0 2 (String_of_num (num_add (getMonth date) 1)) in
  let day := padStart0 2 (String_of_num (getDate date)) in
  let hours := padStart0 2 (String_of_num (getHours date)) in
  let minutes := padStart0 2 (String_of_num (getMinutes date)) in
  let seconds := lit "00" in
  String_of_num year ++ month ++ day ++ lit "T" ++ hours ++ minutes
  ++ seconds.

(** [generateAppleCalendarLink] up to its last statement: the value of
    [params] when the link is put together. *)
Definition linkParams (event : Event) : URLSearchParams :=
  let params : URLSearchParams := [] in
  let params := params ++ [(lit "title", title event)] in
  let params :=
    params ++ [(lit "starts", formatDateForApple (start_local event))] in
  let params :=
    params ++ [(lit "ends", formatDateForApple (end_local event))] in
  let params :=
    match description event with
    | Some ((_ :: _) as d) => params ++ [(lit "details", d)]
    | _ => params
    end in
  let params :=
    match location event with
    | Some ((_ :: _) as l) => params ++ [(lit "location", l)]
    | _ => params
    end in
  params.

Definition generateAppleCalendarLink (event : Event) (timezone : jsstring)
  : jsstring :=
  lit "https://www.icloud.com/calendar/event?"
  ++ URLSearchParams_toString (linkParams event).

End Link.
End AppleLink.

(* ===================================================================== *)
(** * src/app/api/schedule/route.ts                                       *)
(* ===================================================================== *)

Module Route.
Import JS Schema.

(** ** Values *)

#[local] Unset Elimination Schemes.

(** A JSON value, as [request.json()] and [JSON.parse] give it. Of a
    number the text is kept; what the runtime makes of the number it
    denotes is taken from the surroundings of the request. *)
Inductive JSON : Type :=
| JNull
| JBool (b : bool)
| JNumber (text : jsstring)
| JString (s : jsstring)
| JArray (items : list JSON)
| JObject (members : list (jsstring * JSON)).
#[local] Set Elimination Schemes.

Definition is_name (name n : jsstring) : bool :=
  if list_eq_dec N.eq_dec n name then true else false.

(** [object.name] of a parsed JSON object: of several members with one
    name the last one counts. *)
Fixpoint member (name : jsstring) (members : list (jsstring * JSON))
  : option JSON :=
  match members with
  | [] => None
  | (n, v) :: rest =>
    match member name rest with
    | Some v' => Some v'
    | None => if is_name name n then Some v else None
    end
  end.

(** [WhiteSpace] and [LineTerminator] of ECMAScript, which [trim]
    removes. *)
Definition is_white_space (c : code_unit) : bool :=
  (c =? 9)%N || (c =? 10)%N || (c =? 11)%N || (c =? 12)%N || (c =? 13)%N
  || (c =? 32)%N || (c =? 160)%N || (c =? 5760)%N
  || ((8192 <=? c)%N && (c <=? 8202)%N)
  || (c =? 8232)%N || (c =? 8233)%N || (c =? 8239)%N || (c =? 8287)%N
  || (c =? 12288)%N || (c =? 65279)%N.

Fixpoint trimStart (s : jsstring) : jsstring :=
  match s with
  | [] => []
  | c :: rest => if is_white_space c then trimStart rest else s
  end.

(** [s.trim()] *)
Definition trim (s : jsstring) : jsstring :=
  rev (trimStart (rev (trimStart s))).

(** What the handler reads of a value it has caught: [error?.status],
    where it is an integer, and [error?.message], where it is a string. *)
Record Thrown : Type := {
  error_status : option Z;
  error_message : option jsstring
}.

(** The ways the program can misuse a value, each of which throws a
    [TypeError]: taking [message] out of a body that is [null]; reading
    the property [name] of [null] or of [undefined]; calling the property
    [name] of a value, which is not a function; and converting to a
    string or a number an object whose [toString] is not a function. *)
Inductive Fault : Type :=
| destructure_null
| read_of_null (name : jsstring)
| read_of_undefined (name : jsstring)
| not_a_function (name : jsstring)
| not_primitive.

(** ** Responses and effects *)

(** The two shapes of the objects the handler answers with:
    [{ error, details }], and the parsed value [schedule] either as it is
    or as [{ ...schedule, warnings }]; [details] and [warnings] may be
    absent. *)
Inductive ResponseBody : Type :=
| error_body (error : jsstring) (details : option jsstring)
| schedule_body (schedule : JSON) (warnings : option (list jsstring)).

Record Response : Type := {
  status : Z;
  body : ResponseBody
}.

(** [NextResponse.json(body, { status })]; without a status it is 200. *)
Definition NextResponse_json (b : ResponseBody) (init : option Z)
  : Response :=
  {| status := match init with Some s => s | None => 200%Z end;
     body := b |}.

(** What a request does besides answering: it writes to the console and
    it asks OpenAI for a completion of the user's message. *)
Inductive Effect : Type :=
| console_error
| console_warn
| completions_create (message : jsstring).

(** ** The surroundings of a request *)

(** [request_json] is what [await request.json()] gives: a body, or a
    thrown value. [create_content] is what awaiting
    [openai.chat.completions.create] for a user message and reading
    [completion.choices[0]?.message?.content] gives: a thrown value, or
    the content, with [None] for [undefined] and [null]. [JSON_parse]
    gives the value a text denotes, any JSON value; [None] is a
    [SyntaxError]. [TypeError_message] is the message the runtime gives a
    [TypeError]. The last three fields are what the runtime makes of the
    number a text denotes: whether it is neither zero nor [NaN], its
    [String], and the time value of the [Date] made from it. *)
Record Env : Type := {
  request_json : Thrown + JSON;
  OPENAI_API_KEY : option jsstring;
  create_content : jsstring -> Thrown + option jsstring;
  JSON_parse : jsstring -> option JSON;
  TypeError_message : Fault -> jsstring;
  Number_truthy : jsstring -> bool;
  Number_toString : jsstring -> jsstring;
  Number_time : jsstring -> Date
}.

Definition TypeError (env : Env) (fault : Fault) : Thrown :=
  {| error_status := None;
     error_message := Some (TypeError_message env fault) |}.

(** A computation that returns or throws. *)
Definition Exn (A : Type) : Type := (Thrown + A)%type.

Definition bindE {A B} (m : Exn A) (k : A -> Exn B) : Exn B :=
  match m with
  | inl e => inl e
  | inr a => k a
  end.

Notation "x <~ m ;; k" := (bindE m (fun x => k))
  (at level 61, m at next level, right associativity).

(** [for (let i = start; i < start + count; i++) body] and
    [xs.forEach((x, index) => body)] over a state, with a body that may
    throw. *)
Fixpoint for_rangeE {St} (start count : nat)
    (body : nat -> St -> Exn St) (s : St) : Exn St :=
  match count with
  | O => inr s
  | S c => bindE (body start s) (for_rangeE (S start) c body)
  end.

Fixpoint forEachE_from {A St} (index : nat) (xs : list A)
    (body : A -> nat -> St -> Exn St) (s : St) : Exn St :=
  match xs with
  | [] => inr s
  | x :: rest => bindE (body x index s) (forEachE_from (S index) rest body)
  end.
Definition forEachE {A St} (xs : list A) (body : A -> nat -> St -> Exn St)
    (s : St) : Exn St := forEachE_from 0 xs body s.

(** ** src/lib/schema.ts on the values the handler passes to it *)

(** The handler gives [validateSchedule] what [JSON.parse] returned,
    which need not be a [ScheduleResponse]. Here are the functions of
    [src/lib/schema.ts] once more, on any JSON value; a value of the
    program is a JSON value or [undefined], which is [None]. *)
Module Untyped.
Section Untyped.
Context {host : Host}.
Variable env : Env.

(** [v.name], for a name that no prototype has. *)
Definition get (v : option JSON) (name : jsstring) : Exn (option JSON) :=
  match v with
  | None => inl (TypeError env (read_of_undefined name))
  | Some JNull => inl (TypeError env (read_of_null name))
  | Some (JObject members) => inr (member name members)
  | Some _ => inr None
  end.

(** [!v] is false. *)
Definition truthy (v : option JSON) : bool :=
  match v with
  | None => false
  | Some JNull => false
  | Some (JBool b) => b
  | Some (JNumber text) => Number_truthy env text
  | Some (JString s) => negb (length s =? 0)
  | Some (JArray _) => true
  | Some (JObject _) => true
  end.

(** The string of a value in a template literal. An array is its
    elements joined by commas, with nothing for [null]; an object is
    [[object Object]], unless it has a member [toString], which is not a
    function. *)
Fixpoint ToString (v : JSON) : Exn jsstring :=
  match v with
  | JNull => inr (lit "null")
  | JBool b => inr (if b then lit "true" else lit "false")
  | JNumber text => inr (Number_toString env text)
  | JString s => inr s
  | JArray items =>
    parts <~ (fix strings (items : list JSON) : Exn (list jsstring) :=
                match items with
                | [] => inr []
                | x :: rest =>
                  s <~ match x with
                       | JNull => inr []
                       | _ => ToString x
                       end ;;
                  ss <~ strings rest ;;
                  inr (s :: ss)
                end) items ;;
    inr (join (lit ",") parts)
  | JObject members =>
    match member (lit "toString") members with
    | Some _ => inl (TypeError env not_primitive)
    | None => inr (lit "[object Object]")
    end
  end.

Definition String_of (v : option JSON) : Exn jsstring :=
  match v with
  | None => inr (lit "undefined")
  | Some v => ToString v
  end.

(** [new Date(v)]: a string is parsed; [undefined] gives an Invalid
    Date; [null], [false] and [true] are the numbers 0, 0 and 1; an array
    or an object is first made a string. *)
Definition new_Date (v : option JSON) : Exn Date :=
  match v with
  | None => inr None
  | Some JNull => inr (Some 0%Z)
  | Some (JBool b) => inr (Some (if b then 1%Z else 0%Z))
  | Some (JNumber text) => inr (Number_time env text)
  | Some (JString s) => inr (Date_parse s)
  | Some v => s <~ ToString v ;; inr (Date_parse s)
  end.

Definition isValidEventTiming (event : option JSON) : Exn bool :=
  start_local <~ get event (lit "start_local") ;;
  start <~ new_Date start_local ;;
  end_local <~ get event (lit "end_local") ;;
  end_ <~ new_Date end_local ;;
  inr (date_gt end_ start).

Definition eventsOverlap (event1 event2 : option JSON) : Exn bool :=
  start_local1 <~ get event1 (lit "start_local") ;;
  start1 <~ new_Date start_local1 ;;
  end_local1 <~ get event1 (lit "end_local") ;;
  end1 <~ new_Date end_local1 ;;
  start_local2 <~ get event2 (lit "start_local") ;;
  start2 <~ new_Date start_local2 ;;
  end_local2 <~ get event2 (lit "end_local") ;;
  end2 <~ new_Date end_local2 ;;
  inr (date_lt start1 end2 && date_lt start2 end1).

Definition findOverlappingEvents (events : list JSON)
  : Exn (list (nat * nat)) :=
  let overlaps : list (nat * nat) := [] in
  for_rangeE 0 (length events) (fun i overlaps =>
    for_rangeE (i + 1) (length events - (i + 1)) (fun j overlaps =>
      overlap <~ eventsOverlap (nth_error events i) (nth_error events j) ;;
      if overlap
      then inr (overlaps ++ [(i, j)])
      else inr overlaps)
      overlaps)
    overlaps.

(** [validateSchedule]. Calling [schedule.events.forEach] throws unless
    [schedule.events] is an array; after it, [schedule.events] is that
    array, [events]. *)
Definition validateSchedule (schedule : JSON) : Exn ValidationResult :=
  let errors : list jsstring := [] in
  timezone <~ get (Some schedule) (lit "timezone") ;;
  let errors :=
    if negb (truthy timezone)
    then errors ++ [lit "Timezone is required"]
    else errors in
  events <~ get (Some schedule) (lit "events") ;;
  match events with
  | Some (JArray events) =>
    errors <~
      forEachE events (fun event index errors =>
        valid <~ isValidEventTiming (Some event) ;;
        if negb valid then
          title <~ get (Some event) (lit "title") ;;
          title <~ String_of title ;;
          inr (errors
               ++ [lit "Event " ++ String_of_nat (index + 1) ++ lit " ("
                   ++ title
                   ++ lit "): end time must be after start time"])
        else inr errors) errors ;;
    overlaps <~ findOverlappingEvents events ;;
    errors <~
      (if 0 <? length overlaps
       then forEachE overlaps (fun '(i, j) _ errors =>
              title_i <~ get (nth_error events i) (lit "title") ;;
              title_i <~ String_of title_i ;;
              title_j <~ get (nth_error events j) (lit "title") ;;
              title_j <~ String_of title_j ;;
              inr (errors
                   ++ [lit "Events overlap: " ++ [QUOTE] ++ title_i
                       ++ [QUOTE] ++ lit " and " ++ [QUOTE] ++ title_j
                       ++ [QUOTE]])) errors
       else inr errors) ;;
    inr {| isValid := length errors =? 0; errors := errors |}
  | None => inl (TypeError env (read_of_undefined (lit "forEach")))
  | Some JNull => inl (TypeError env (read_of_null (lit "forEach")))
  | Some _ => inl (TypeError env (not_a_function (lit "forEach")))
  end.

End Untyped.
End Untyped.

(** ** The handler *)

(** A computation that has effects and then returns or throws. *)
Definition Act (A : Type) : Type := (list Effect * (Thrown + A))%type.

Definition pure {A} (a : A) : Act A := ([], inr a).
Definition throw {A} (e : Thrown) : Act A := ([], inl e).
Definition await {A} (outcome : Thrown + A) : Act A := ([], outcome).
Definition effect (e : Effect) : Act unit := ([e], inr tt).
Definition bindA {A B} (m : Act A) (k : A -> Act B) : Act B :=
  match m with
  | (effects, inl e) => (effects, inl e)
  | (effects, inr a) =>
    let (effects', outcome) := k a in (effects ++ effects', outcome)
  end.

(** A call of a function that has no effects. *)
Definition call {A} (outcome : Exn A) : Act A := ([], outcome).

Notation "x <- m ;; k" := (bindA m (fun x => k))
  (at level 61, m at next level, right associativity).

Section Handler.
Context {host : Host}.
Variable env : Env.

(** [const { message } = body]; [None] is [undefined]. *)
Definition destructure_message (body : JSON) : Act (option JSON) :=
  match body with
  | JNull => throw (TypeError env destructure_null)
  | JObject members => pure (member (lit "message") members)
  | _ => pure None
  end.

(** The [try] block of [POST]. The first test,
    [!message || typeof message !== 'string'], lets a string through
    that is not empty, and nothing else. *)
Definition try_block : Act Response :=
  body <- await (request_json env) ;;
  message <- destructure_message body ;;
  match message with
  | Some (JString ((_ :: _) as message)) =>
    if length (trim message) =? 0 then
      pure (NextResponse_json
              (error_body (lit "Invalid request: message cannot be empty")
                 None)
              (Some 400%Z))
    else
      match OPENAI_API_KEY env with
      | Some (_ :: _) =>
        _ <- effect (completions_create message) ;;
        responseContent <- await (create_content env message) ;;
        match responseContent with
        | Some ((_ :: _) as responseContent) =>
          match JSON_parse env responseContent with
          | None =>
            _ <- effect console_error ;;
            pure (NextResponse_json
                    (error_body (lit "Failed to parse schedule response")
                       None)
                    (Some 500%Z))
          | Some schedule =>
            validation <- call (Untyped.validateSchedule env schedule) ;;
            if negb (isValid validation) then
              _ <- effect console_warn ;;
              pure (NextResponse_json
                      (schedule_body schedule (Some (errors validation)))
                      None)
            else
              pure (NextResponse_json (schedule_body schedule None) None)
          end
        | _ =>
          pure (NextResponse_json
                  (error_body (lit "No response from OpenAI") None)
                  (Some 500%Z))
        end
      | _ =>
        _ <- effect console_error ;;
        pure (NextResponse_json
                (error_body
                   (lit "Server configuration error: OpenAI API key not configured")
                   None)
                (Some 500%Z))
      end
  | _ =>
    pure (NextResponse_json
            (error_body
               (lit "Invalid request: message is required and must be a string")
               None)
            (Some 400%Z))
  end.

Definition status_is (error : Thrown) (code : Z) : bool :=
  match error_status error with
  | Some s => (s =? code)%Z
  | None => false
  end.

(** The [catch] block of [POST]; nothing in it throws. *)
Definition catch_block (error : Thrown) : list Effect * Response :=
  ([console_error],
   if status_is error 401 then
     NextResponse_json (error_body (lit "Invalid OpenAI API key") None)
       (Some 500%Z)
   else if status_is error 429 then
     NextResponse_json
       (error_body (lit "Rate limit exceeded. Please try again in a moment.")
          None)
       (Some 429%Z)
   else
     NextResponse_json
       (error_body (lit "Failed to generate schedule")
          (Some match error_message error with
                | Some ((_ :: _) as message) => message
                | _ => lit "Unknown error"
                end))
       (Some 500%Z)).

(** [POST]: the effects of the request, in order, and its response. *)
Definition POST : list Effect * Response :=
  match try_block with
  | (effects, inr response) => (effects, response)
  | (effects, inl error) =>
    let (effects', response) := catch_block error in
    (effects ++ effects', response)
  end.

End Handler.
End Route.

(* ===================================================================== *)
(** * The reading side                                                    *)
(* ===================================================================== *)

(** What a consumer of the calendar document does with folded lines and
    escaped text. The program has no such code; these are the inverse
    operations the round-trip properties are stated against. *)
Module Reader.
Import JS.

(** Unfolding: every CRLF that is followed by a space is removed together
    with that space, in one pass from the left. *)
Fixpoint unfoldLine (s : jsstring) : jsstring :=
  match s with
  | [] => []
  | a :: rest =>
    match rest with
    | b :: c :: rest' =>
      if (a =? CR)%N && (b =? LF)%N && (c =? SP)%N
      then unfoldLine rest'
      else a :: unfoldLine rest
    | _ => a :: unfoldLine rest
    end
  end.

(** The text holds the sequence CRLF, space somewhere. *)
Fixpoint has_fold_mark (s : jsstring) : bool :=
  match s with
  | [] => false
  | a :: rest =>
    match rest with
    | b :: c :: _ =>
      ((a =? CR)%N && (b =? LF)%N && (c =? SP)%N) || has_fold_mark rest
    | _ => has_fold_mark rest
    end
  end.

(** Unescaping: a backslash and the letter n (or N) stand for a newline,
    a backslash and any other code unit for that code unit. *)
Fixpoint unescapeICSText (s : jsstring) : jsstring :=
  match s with
  | [] => []
  | c :: rest =>
    if (c =? BACKSLASH)%N then
      match rest with
      | d :: rest' =>
        (if (d =? 110)%N || (d =? 78)%N then LF else d)
        :: unescapeICSText rest'
      | [] => [c]
      end
    else c :: unescapeICSText rest
  end.

End Reader.

(* ===================================================================== *)
(** * A reference host                                                    *)
(* ===================================================================== *)

(** One host the program can run on: a zone at a fixed offset from UTC, and
    a [Date] constructor that reads the ISO forms [YYYY-MM-DDTHH:mm],
    [YYYY-MM-DDTHH:mm:ss] and [YYYY-MM-DDTHH:mm:ss.sss], as local time or,
    with a final [Z], as UTC, and gives an Invalid Date for any other text.
    The properties below hold for every host; this one runs the examples. *)
Module RefHost.
Import JS.
Local Open Scope Z_scope.

Definition digit_val (c : code_unit) : option Z :=
  if is_digit c then Some (Z.of_N c - 48) else None.

Fixpoint number_of (s : jsstring) (acc : Z) : option Z :=
  match s with
  | [] => Some acc
  | c :: rest =>
    match digit_val c with
    | Some d => number_of rest (10 * acc + d)
    | None => None
    end
  end.

Definition field (s : jsstring) (a b : nat) : option Z :=
  number_of (substring s a b) 0.

Definition unit_at (s : jsstring) (i : nat) (c : string) : bool :=
  match nth_error s i, lit c with
  | Some x, [y] => (x =? y)%N
  | _, _ => false
  end.

Definition daysInMonth (y m : Z) : Z :=
  (if m =? 12 then days_from_civil (y + 1) 1 1
   else days_from_civil y (m + 1) 1)
  - days_from_civil y m 1.

Definition isoParse (tza : Z) (s : jsstring) : Date :=
  let utc := unit_at s (length s - 1) "Z" in
  let body := if utc then removelast s else s in
  let n := length body in
  if ((n =? 16) || (n =? 19) || (n =? 23))%nat
     && unit_at body 4 "-" && unit_at body 7 "-" && unit_at body 10 "T"
     && unit_at body 13 ":"
     && ((n =? 16)%nat || unit_at body 16 ":")
     && ((n <? 23)%nat || unit_at body 19 ".")
  then
    match field body 0 4, field body 5 7, field body 8 10,
          field body 11 13, field body 14 16,
          (if (n =? 16)%nat then Some 0 else field body 17 19),
          (if (n <? 23)%nat then Some 0 else field body 20 23) with
    | Some y, Some mo, Some d, Some h, Some mi, Some sec, Some ms =>
      if (1 <=? mo) && (mo <=? 12) && (1 <=? d) && (d <=? daysInMonth y mo)
         && (h <=? 23) && (mi <=? 59) && (sec <=? 59)
      then
        let t := days_from_civil y mo d * msPerDay
                 + h * 3600000 + mi * 60000 + sec * 1000 + ms in
        Some (if utc then t else t - tza)
      else None
    | _, _, _, _, _, _, _ => None
    end
  else None.

Definition at_offset (tza : Z) : Host :=
  {| Date_parse := isoParse tza; LocalTZA := fun _ => tza |}.

(** A host on UTC, and one five hours behind it. *)
Definition utc : Host := at_offset 0.
Definition new_york_winter : Host := at_offset (-18000000).

(** A clock that stands still at [t] on every reading. *)
Definition frozen (t : Z) : World := {| clock := fun _ => t; reads := 0 |}.

(** A clock that advances by one millisecond on every reading. *)
Definition ticking (t : Z) : World :=
  {| clock := fun n => t + Z.of_nat n; reads := 0 |}.

End RefHost.

(* ===================================================================== *)
(** * Notions the properties are stated with                              *)
(* ===================================================================== *)

Module Spec.
Import JS Schema.

(** Both are instants, and [a] is strictly before [b]. *)
Definition instant_lt (a b : Date) : Prop :=
  exists x y, a = Some x /\ b = Some y /\ (x < y)%Z.

(** Pairs of indices, ordered by the first and then by the second. *)
Definition lex_lt (p q : nat * nat) : Prop :=
  fst p < fst q \/ (fst p = fst q /\ snd p < snd q).

(** What the four replacements make of one code unit. *)
Definition escape_unit (c : code_unit) : jsstring :=
  if (c =? BACKSLASH)%N then [BACKSLASH; BACKSLASH]
  else if (c =? SEMICOLON)%N then [BACKSLASH; SEMICOLON]
  else if (c =? COMMA)%N then [BACKSLASH; COMMA]
  else if (c =? LF)%N then [BACKSLASH; 110%N]
  else [c].

(** The three code units of a fold: CR, LF and a space. *)
Definition is_mark (a b c : code_unit) : bool :=
  (a =? CR)%N && (b =? LF)%N && (c =? SP)%N.

Definition starts_with_mark (s : jsstring) : bool :=
  match s with
  | a :: b :: c :: _ => is_mark a b c
  | _ => false
  end.

(** A text of decimal digits. *)
Definition digits (s : jsstring) : Prop :=
  Forall (fun c => is_digit c = true) s.

(** Every chunk but the last holds 74 code units. *)
Fixpoint full_but_last (chunks : list jsstring) : Prop :=
  match chunks with
  | [] => True
  | c :: rest =>
    match rest with
    | [] => True
    | _ :: _ => length c = 74 /\ full_but_last rest
    end
  end.

(** [p] is a prefix of [s]. *)
Fixpoint is_prefix (p s : jsstring) : bool :=
  match p, s with
  | [], _ => true
  | a :: p', b :: s' => (a =? b)%N && is_prefix p' s'
  | _ :: _, [] => false
  end.

(** The documented form of [start_local] and [end_local]:
    [YYYY-MM-DDTHH:mm], sixteen code units. *)
Definition is_local_datetime (s : jsstring) : bool :=
  match s with
  | [y1; y2; y3; y4; h1; m1; m2; h2; d1; d2; t; o1; o2; c; n1; n2] =>
    is_digit y1 && is_digit y2 && is_digit y3 && is_digit y4
    && (h1 =? 45)%N && is_digit m1 && is_digit m2
    && (h2 =? 45)%N && is_digit d1 && is_digit d2
    && (t =? 84)%N && is_digit o1 && is_digit o2
    && (c =? 58)%N && is_digit n1 && is_digit n2
  | _ => false
  end.

(** An optional field that is the empty string, read as absent. *)
Definition drop_empty (field : option jsstring) : option jsstring :=
  match field with
  | Some [] => None
  | _ => field
  end.

Definition without_empty_fields (e : Event) : Event :=
  {| title := title e;
     start_local := start_local e;
     end_local := end_local e;
     description := drop_empty (description e);
     location := drop_empty (location e) |}.

(** The identifiers on the [UID:] lines of a document, in order. *)
Definition uidsOf (lines : list jsstring) : list jsstring :=
  map (skipn 4) (filter (is_prefix (lit "UID:")) lines).

(** The part of the identifier made from the event and its position. *)
Definition uidHash (event : Event) (index : nat) : jsstring :=
  filter is_alnum
    (title event ++ lit "-" ++ start_local event ++ lit "-"
     ++ String_of_nat index).

(** The [DESCRIPTION] and [LOCATION] lines of an event block. *)
Definition descriptionLines (e : Event) : list jsstring :=
  match description e with
  | Some ((_ :: _) as d) => [lit "DESCRIPTION:" ++ Ics.escapeICSText d]
  | _ => []
  end.
Definition locationLines (e : Event) : list jsstring :=
  match location e with
  | Some ((_ :: _) as l) => [lit "LOCATION:" ++ Ics.escapeICSText l]
  | _ => []
  end.

(** The parameters of the optional fields of a link, and the text they
    add to its query. *)
Definition optionalParams (e : Event) : URLSearchParams :=
  match description e with
  | Some ((_ :: _) as d) => [(lit "details", d)]
  | _ => []
  end
  ++ match location e with
     | Some ((_ :: _) as l) => [(lit "location", l)]
     | _ => []
     end.
Definition optionalQuery (e : Event) : jsstring :=
  flat_map
    (fun '(name, value) =>
       lit "&" ++ urlencode name ++ lit "=" ++ urlencode value)
    (optionalParams e).

Section WithHost.
Context {host : Host}.

Definition startOf (e : Event) : Date := Date_parse (start_local e).
Definition endOf (e : Event) : Date := Date_parse (end_local e).

(** The events at [i] and [j] exist and [eventsOverlap] holds of them. *)
Definition overlap_at (events : list Event) (i j : nat) : bool :=
  match nth_error events i, nth_error events j with
  | Some a, Some b => eventsOverlap a b
  | _, _ => false
  end.

(** The overlapping pairs [(i, j)], [i < j], listed by [i] and then [j]. *)
Definition pairsFrom (events : list Event) (i : nat) : list (nat * nat) :=
  map (pair i)
    (filter (overlap_at events i) (seq (i + 1) (length events - (i + 1)))).
Definition overlapPairs (events : list Event) : list (nat * nat) :=
  flat_map (pairsFrom events) (seq 0 (length events)).

(** The unordered pair of [i] and [j] is in the result. *)
Definition reported (pairs : list (nat * nat)) (i j : nat) : Prop :=
  In (i, j) pairs \/ In (j, i) pairs.

Definition timezoneErrors (schedule : ScheduleResponse) : list jsstring :=
  match timezone schedule with
  | [] => [lit "Timezone is required"]
  | _ :: _ => []
  end.

(** One message for each event whose timing is not valid, by index. *)
Definition timingErrors (events : list Event) : list jsstring :=
  flat_map
    (fun '(index, event) =>
       if isValidEventTiming event then [] else [timingError index event])
    (combine (seq 0 (length events)) events).

(** [message] is the overlap message for the pair [p] of indices. *)
Definition names_pair (events : list Event) (p : nat * nat)
    (message : jsstring) : Prop :=
  exists ei ej,
    nth_error events (fst p) = Some ei /\
    nth_error events (snd p) = Some ej /\
    message = overlapError ei ej.

(** The two messages as texts: for an event whose timing is not valid,
    its position counted from 1 and its title; for an overlapping pair,
    the two titles, each between quotes. *)
Definition timingText (position : nat) (name : jsstring) : jsstring :=
  lit "Event " ++ String_of_nat position ++ lit " (" ++ name
  ++ lit "): end time must be after start time".
Definition overlapText (first second : jsstring) : jsstring :=
  lit "Events overlap: " ++ [QUOTE] ++ first ++ [QUOTE] ++ lit " and "
  ++ [QUOTE] ++ second ++ [QUOTE].

(** The text of the timing message of each event whose timing is not
    valid, by index. *)
Definition timingTexts (events : list Event) : list jsstring :=
  flat_map
    (fun '(index, event) =>
       if isValidEventTiming event then []
       else [timingText (index + 1) (title event)])
    (combine (seq 0 (length events)) events).

(** [message] is the text that names, in this order, the titles of the
    events at the two indices of [p]. *)
Definition names_titles (events : list Event) (p : nat * nat)
    (message : jsstring) : Prop :=
  exists ei ej,
    nth_error events (fst p) = Some ei /\
    nth_error events (snd p) = Some ej /\
    message = overlapText (title ei) (title ej).

(** The lines of the event blocks of a run that starts at position
    [index] with the clock in state [w]. *)
Fixpoint eventBlocks (index : nat) (events : list Event) (w : World)
  : list jsstring * World :=
  match events with
  | [] => ([], w)
  | e :: rest =>
    let (block, w1) := Ics.createVEvent e index w in
    let (blocks, w2) := eventBlocks (S index) rest w1 in
    (block ++ blocks, w2)
  end.

Definition headerLines (schedule : ScheduleResponse) : list jsstring :=
  [lit "BEGIN:VCALENDAR"; lit "VERSION:2.0";
   lit "PRODID:-//Chat to Calendar//EN"; lit "CALSCALE:GREGORIAN";
   lit "METHOD:PUBLISH"; lit "X-WR-TIMEZONE:" ++ timezone schedule].

End WithHost.
End Spec.

(* ===================================================================== *)
(** * Sample data                                                         *)
(* ===================================================================== *)

Module Examples.
Import JS Schema.

Definition event (t s e : string) : Event :=
  {| title := lit t; start_local := lit s; end_local := lit e;
     description := None; location := None |}.

(** 07:00 to 08:00, 08:00 to 09:00, 07:00 to 08:30, and an instant. *)
Definition gym : Event := event "Gym" "2026-02-09T07:00" "2026-02-09T08:00".
Definition yoga : Event := event "Yoga" "2026-02-09T08:00" "2026-02-09T09:00".
Definition run : Event := event "Run" "2026-02-09T07:00" "2026-02-09T08:30".
Definition ping : Event := event "Ping" "2026-02-09T07:30" "2026-02-09T07:30".

(** Twelve events; the start of the last one lacks its final digit. *)
Definition standup (s : string) : Event :=
  event "Standup" s "2026-02-09T08:00".
Definition crowded : ScheduleResponse :=
  {| timezone := lit "UTC";
     events := [gym; standup "2026-02-09T07:01"; gym; gym; gym; gym; gym;
                gym; gym; gym; gym; standup "2026-02-09T07:0"] |}.

(** A hundred and one events; the first start time carries seconds. *)
Definition longRun : ScheduleResponse :=
  {| timezone := lit "UTC";
     events := standup "2026-02-09T07:00:10" :: repeat gym 99
               ++ [standup "2026-02-09T07:00"] |}.

(** [p] holds of [count] days, taken every [step] days from [day] on. *)
Fixpoint all_days (count : nat) (day step : Z) (p : Z -> bool) : bool :=
  match count with
  | O => true
  | S c => p day && all_days c (day + step)%Z step p
  end.

(** Moves the first three indices around and leaves the others. *)
Definition rotate3 (k : nat) : nat :=
  match k with
  | 0 => 2
  | 1 => 0
  | 2 => 1
  | _ => k
  end.

End Examples.

(* ===================================================================== *)
(** * Further notions                                                     *)
(* ===================================================================== *)

Module Notions.
Import JS Schema Spec.

(** Both indices moved up by one. *)
Definition shift_pair (p : nat * nat) : nat * nat := (S (fst p), S (snd p)).

Section WithHost.
Context {host : Host}.

(** [a] ends, as an instant, no later than [b] starts. *)
Definition ends_by_start (a b : Event) : Prop :=
  exists x y, endOf a = Some x /\ startOf b = Some y /\ (x <= y)%Z.

(** Both dates of [e] are instants and the start is not after the end. *)
Definition well_ordered (e : Event) : Prop :=
  exists x y, startOf e = Some x /\ endOf e = Some y /\ (x <= y)%Z.

(** One of the two dates of [e] cannot be read. *)
Definition unreadable (e : Event) : Prop :=
  startOf e = None \/ endOf e = None.

(** No two events of the list overlap. *)
Definition overlap_free (events : list Event) : Prop :=
  forall i j a b,
    i < j ->
    nth_error events i = Some a -> nth_error events j = Some b ->
    eventsOverlap a b = false.

(** How many events have a timing that is not valid. *)
Definition invalidCount (events : list Event) : nat :=
  length (filter (fun e => negb (isValidEventTiming e)) events).

End WithHost.
End Notions.

(* ===================================================================== *)
(** * Reading a document, and the shapes of its parts                     *)
(* ===================================================================== *)

Module Shapes.
Import JS Schema Spec.

(** The lines of a text, cut at every CRLF; [current] holds, last unit
    first, the line being read. *)
Fixpoint split_lines_from (s : jsstring) (current : jsstring)
  : list jsstring :=
  match s with
  | [] => [rev current]
  | a :: rest =>
    match rest with
    | b :: rest' =>
      if (a =? CR)%N && (b =? LF)%N
      then rev current :: split_lines_from rest' []
      else split_lines_from rest (a :: current)
    | [] => [rev (a :: current)]
    end
  end.
Definition split_lines (s : jsstring) : list jsstring :=
  split_lines_from s [].

(** The form [YYYYMMDDTHHMMSSZ]: eight digits, [T], six digits, [Z]. *)
Definition is_ics_datetime (s : jsstring) : bool :=
  match s with
  | [y1; y2; y3; y4; m1; m2; d1; d2; t; h1; h2; n1; n2; s1; s2; z] =>
    forallb is_digit [y1; y2; y3; y4; m1; m2; d1; d2; h1; h2; n1; n2; s1; s2]
    && (t =? 84)%N && (z =? 90)%N
  | _ => false
  end.

(** The form [YYYYMMDDTHHMM00]: eight digits, [T], four digits, [00]. *)
Definition is_apple_datetime (s : jsstring) : bool :=
  match s with
  | [y1; y2; y3; y4; m1; m2; d1; d2; t; h1; h2; n1; n2; s1; s2] =>
    forallb is_digit [y1; y2; y3; y4; m1; m2; d1; d2; h1; h2; n1; n2]
    && (t =? 84)%N && (s1 =? 48)%N && (s2 =? 48)%N
  | _ => false
  end.

(** The code units a serialized parameter name or value is made of:
    letters, digits, [* - . _], [+] and the [%] of an escape. *)
Definition url_safe (c : code_unit) : bool :=
  is_alnum c || (c =? 42)%N || (c =? 45)%N || (c =? 46)%N || (c =? 95)%N
  || (c =? 43)%N || (c =? 37)%N.

(** How often a code unit occurs in a text. *)
Definition occurrences (c : code_unit) (s : jsstring) : nat :=
  count_occ N.eq_dec s c.

(** How many lines the block of an event has. *)
Definition blockLength (e : Event) : nat :=
  7 + length (descriptionLines e) + length (locationLines e).

(** The four code units [escapeICSText] replaces. *)
Definition is_reserved (c : code_unit) : bool :=
  (c =? BACKSLASH)%N || (c =? SEMICOLON)%N || (c =? COMMA)%N || (c =? LF)%N.

(** The text holds no newline. *)
Definition no_lf (s : jsstring) : bool :=
  forallb (fun c => negb (c =? LF)%N) s.

(** The text is not empty and does not start with a space. *)
Definition starts_plain (s : jsstring) : bool :=
  match s with
  | [] => false
  | c :: _ => negb (c =? SP)%N
  end.

(** A line that holds no newline and starts with something else than a
    space. *)
Definition line_ok (l : jsstring) : Prop :=
  no_lf l = true /\ starts_plain l = true.

(** The two texts are the same. *)
Fixpoint text_eqb (a b : jsstring) : bool :=
  match a, b with
  | [], [] => true
  | x :: a', y :: b' => (x =? y)%N && text_eqb a' b'
  | _, _ => false
  end.

(** How many lines are the text [line]. *)
Definition countLines (line : jsstring) (lines : list jsstring) : nat :=
  length (filter (text_eqb line) lines).

(** The unescaped value of the first line that starts with [name]. *)
Definition readField (name : jsstring) (lines : list jsstring)
  : option jsstring :=
  match find (is_prefix name) lines with
  | Some line => Some (Reader.unescapeICSText (skipn (length name) line))
  | None => None
  end.

(** The identifier of an event at position [index] made at a clock
    reading [timestamp]. *)
Definition uidAt (timestamp : Z) (event : Event) (index : nat) : jsstring :=
  String_of_Z timestamp ++ lit "-" ++ uidHash event index
  ++ lit "@chat-to-calendar".

(** The text has [width] code units, all of them decimal digits, and
    denotes the number [z]. *)
Definition prints_as (width : nat) (z : Z) (s : jsstring) : bool :=
  (length s =? width) && forallb is_digit s
  && match RefHost.number_of s 0 with
     | Some v => (v =? z)%Z
     | None => false
     end.

(** The time value a text of the form [YYYYMMDDTHHMMSSZ] denotes. *)
Definition read_ics_datetime (s : jsstring) : option Z :=
  if is_ics_datetime s then
    match RefHost.field s 0 4, RefHost.field s 4 6, RefHost.field s 6 8,
          RefHost.field s 9 11, RefHost.field s 11 13,
          RefHost.field s 13 15 with
    | Some y, Some mo, Some d, Some h, Some mi, Some sec =>
      Some (days_from_civil y mo d * msPerDay
            + h * 3600000 + mi * 60000 + sec * 1000)%Z
    | _, _, _, _, _, _ => None
    end
  else None.

(** The local time value a text of the form [YYYYMMDDTHHMM00] denotes. *)
Definition read_apple_datetime (s : jsstring) : option Z :=
  if is_apple_datetime s then
    match RefHost.field s 0 4, RefHost.field s 4 6, RefHost.field s 6 8,
          RefHost.field s 9 11, RefHost.field s 11 13 with
    | Some y, Some mo, Some d, Some h, Some mi =>
      Some (days_from_civil y mo d * msPerDay + h * 3600000 + mi * 60000)%Z
    | _, _, _, _, _ => None
    end
  else None.

(** The code units a link is structured by. *)
Definition QUESTION : code_unit := 63%N.
Definition AMPERSAND : code_unit := 38%N.
Definition EQUALS : code_unit := 61%N.
Definition HASH : code_unit := 35%N.
Definition is_separator (c : code_unit) : bool :=
  (c =? QUESTION)%N || (c =? AMPERSAND)%N || (c =? EQUALS)%N
  || (c =? HASH)%N.

(** A letter, a digit or [-]. *)
Definition is_plain (c : code_unit) : bool := is_alnum c || (c =? 45)%N.

End Shapes.

(* ===================================================================== *)
(** * Requests and their outcomes                                         *)
(* ===================================================================== *)

Module Requests.
Import JS Schema Route.

(** The text has a code unit that is not white space. *)
Definition not_blank (s : jsstring) : Prop :=
  exists c, In c s /\ is_white_space c = false.

(** [body.message], where the body has one. *)
Definition message_of (body : JSON) : option JSON :=
  match body with
  | JObject members => member (lit "message") members
  | _ => None
  end.

(** The request is one the handler passes on: its body is an object
    whose [message] is the string [m], which is not blank, and the key of
    the server is set. *)
Definition accepted (env : Env) (m : jsstring) : Prop :=
  (exists body,
     request_json env = inr body /\ message_of body = Some (JString m))
  /\ not_blank m
  /\ (exists c key, OPENAI_API_KEY env = Some (c :: key)).

(** The request has a body, which is not [null], without a message that
    is a string and not blank. *)
Definition refused (env : Env) : Prop :=
  exists body,
    request_json env = inr body /\ body <> JNull
    /\ forall m, message_of body = Some (JString m) -> ~ not_blank m.

(** The messages sent to OpenAI, in order. *)
Definition calls (effects : list Effect) : list jsstring :=
  flat_map
    (fun e => match e with completions_create m => [m] | _ => [] end)
    effects.

(** The response with an error text and a status. *)
Definition failure (code : Z) (text : string) : Response :=
  {| status := code; body := error_body (lit text) None |}.

(** The content OpenAI answers the request with, where it does. *)
Definition answer (env : Env) (m content : jsstring) : Prop :=
  accepted env m /\ create_content env m = inr (Some content)
  /\ content <> [].


(** ** Values that are schedules *)

(** The array [value.events], where the value is an object that has
    one. *)
Definition events_of (value : JSON) : option (list JSON) :=
  match value with
  | JObject members =>
    match member (lit "events") members with
    | Some (JArray items) => Some items
    | _ => None
    end
  | _ => None
  end.

(** What [validateSchedule] cannot do on a value that has no array of
    events: read [timezone] of [null], or call [forEach] of
    [value.events], which is [undefined], [null] or a value of another
    kind. *)
Definition fault_of (value : JSON) : option Fault :=
  match value with
  | JNull => Some (read_of_null (lit "timezone"))
  | JObject members =>
    match member (lit "events") members with
    | None => Some (read_of_undefined (lit "forEach"))
    | Some JNull => Some (read_of_null (lit "forEach"))
    | Some (JArray _) => None
    | Some _ => Some (not_a_function (lit "forEach"))
    end
  | _ => Some (read_of_undefined (lit "forEach"))
  end.

Definition as_text (v : option JSON) : option jsstring :=
  match v with
  | Some (JString s) => Some s
  | _ => None
  end.

Definition as_optional_text (v : option JSON) : option (option jsstring) :=
  match v with
  | None => Some None
  | Some (JString s) => Some (Some s)
  | Some _ => None
  end.

(** The event a value is, where it is one: an object whose [title],
    [start_local] and [end_local] are strings and whose [description] and
    [location] are strings or absent. *)
Definition as_event (value : JSON) : option Event :=
  match value with
  | JObject members =>
    match as_text (member (lit "title") members),
          as_text (member (lit "start_local") members),
          as_text (member (lit "end_local") members),
          as_optional_text (member (lit "description") members),
          as_optional_text (member (lit "location") members) with
    | Some t, Some s, Some e, Some d, Some l =>
      Some {| title := t; start_local := s; end_local := e;
              description := d; location := l |}
    | _, _, _, _, _ => None
    end
  | _ => None
  end.

Fixpoint as_events (items : list JSON) : option (list Event) :=
  match items with
  | [] => Some []
  | item :: rest =>
    match as_event item, as_events rest with
    | Some e, Some es => Some (e :: es)
    | _, _ => None
    end
  end.

(** The schedule a value is, where it is one: an object whose [timezone]
    is a string and whose [events] is an array of events. *)
Definition as_schedule (value : JSON) : option ScheduleResponse :=
  match value with
  | JObject members =>
    match as_text (member (lit "timezone") members),
          member (lit "events") members with
    | Some tz, Some (JArray items) =>
      match as_events items with
      | Some es => Some {| timezone := tz; events := es |}
      | None => None
      end
    | _, _ => None
    end
  | _ => None
  end.

(** The JSON object of an event and of a schedule. *)
Definition optional_member (name : string) (field : option jsstring)
  : list (jsstring * JSON) :=
  match field with
  | Some text => [(lit name, JString text)]
  | None => []
  end.
Definition of_event (e : Event) : JSON :=
  JObject ([(lit "title", JString (title e));
            (lit "start_local", JString (start_local e));
            (lit "end_local", JString (end_local e))]
           ++ optional_member "description" (description e)
           ++ optional_member "location" (location e)).
Definition of_schedule (s : ScheduleResponse) : JSON :=
  JObject [(lit "timezone", JString (timezone s));
           (lit "events", JArray (map of_event (events s)))].

Section WithHost.
Context {host : Host}.

(** The value [e] is thrown while the request is handled: by reading the
    body, by taking the message of a body that is [null], by the call to
    OpenAI, or by [validateSchedule] on the value OpenAI's content
    denotes. *)
Definition thrown (env : Env) (e : Thrown) : Prop :=
  request_json env = inl e
  \/ (request_json env = inr JNull /\ e = TypeError env destructure_null)
  \/ (exists m, accepted env m /\ create_content env m = inl e)
  \/ (exists m content value,
        answer env m content /\ JSON_parse env content = Some value
        /\ Untyped.validateSchedule env value = inl e).

(** OpenAI answers the request with a content that denotes [value], on
    which [validateSchedule] returns [validation]. *)
Definition validated (env : Env) (value : JSON)
    (validation : ValidationResult) : Prop :=
  exists m content,
    answer env m content /\ JSON_parse env content = Some value
    /\ Untyped.validateSchedule env value = inr validation.

End WithHost.

End Requests.

(* ===================================================================== *)
(** * The validator                                                       *)
(* ===================================================================== *)

Module SchemaProofs.
Import JS Schema Spec.

Section WithHost.
Context {host : Host}.

Lemma date_lt_instant (a b : Date) : date_lt a b = true <-> instant_lt a b.
Proof.
  unfold date_lt, instant_lt. split.
  - destruct a as [x|], b as [y|]; try discriminate.
    intros H. exists x, y. repeat split. now apply Z.ltb_lt.
  - intros (x & y & -> & -> & H). now apply Z.ltb_lt.
Qed.

Lemma date_lt_irrefl (a : Date) : date_lt a a = false.
Proof. destruct a; simpl; [apply Z.ltb_irrefl | reflexivity]. Qed.

(** C7: [isValidEventTiming] is true when the end is an instant strictly
    after the start, false in every other case, and so false when the two
    are the same instant. *)
Theorem isValidEventTiming_strict (event : Event) :
  (instant_lt (startOf event) (endOf event) ->
   isValidEventTiming event = true)
  /\ (~ instant_lt (startOf event) (endOf event) ->
      isValidEventTiming event = false)
  /\ (endOf event = startOf event -> isValidEventTiming event = false).
Proof.
  unfold isValidEventTiming, date_gt, startOf, endOf. repeat split.
  - intros H. now apply date_lt_instant.
  - intros H. apply not_true_is_false. intros T. apply H.
    now apply date_lt_instant.
  - intros ->. apply date_lt_irrefl.
Qed.

Lemma eventsOverlap_sym (a b : Event) : eventsOverlap a b = eventsOverlap b a.
Proof. unfold eventsOverlap. apply andb_comm. Qed.

(** C1: [eventsOverlap a b] is true exactly when the start of [a] is
    before the end of [b] and the start of [b] is before the end of [a];
    two events of which one ends at the instant the other starts do not
    overlap, in either order of the arguments. *)
Theorem eventsOverlap_half_open (a b : Event) :
  (eventsOverlap a b = true <->
   instant_lt (startOf a) (endOf b) /\ instant_lt (startOf b) (endOf a))
  /\ (forall T : Z, endOf a = Some T -> startOf b = Some T ->
      eventsOverlap a b = false /\ eventsOverlap b a = false).
Proof.
  split.
  - unfold eventsOverlap, startOf, endOf.
    rewrite andb_true_iff, !date_lt_instant. reflexivity.
  - intros T Ha Hb.
    assert (H : eventsOverlap a b = false).
    { unfold eventsOverlap, startOf, endOf in *. rewrite Ha, Hb.
      simpl. rewrite Z.ltb_irrefl. apply andb_false_r. }
    split; [exact H | now rewrite eventsOverlap_sym].
Qed.

(** ** [findOverlappingEvents] computes [overlapPairs] *)

Lemma at_index_lt {A} (xs : list A) (i : nat) :
  i < length xs -> exists x, nth_error xs i = Some x /\ at_index xs i = Ok x.
Proof.
  intros H. unfold at_index.
  destruct (nth_error xs i) as [x|] eqn:E.
  - now exists x.
  - apply nth_error_None in E. lia.
Qed.

Lemma inner_body (events : list Event) (i j : nat)
    (overlaps : list (nat * nat)) :
  i < length events -> j < length events ->
  bind (at_index events i) (fun ei =>
  bind (at_index events j) (fun ej =>
  if eventsOverlap ei ej
  then Ok (overlaps ++ [(i, j)])
  else Ok overlaps))
  = Ok (if overlap_at events i j then overlaps ++ [(i, j)] else overlaps).
Proof.
  intros Hi Hj.
  destruct (at_index_lt events i Hi) as (ei & Ei & ->).
  destruct (at_index_lt events j Hj) as (ej & Ej & ->).
  unfold overlap_at. rewrite Ei, Ej. simpl.
  now destruct (eventsOverlap ei ej).
Qed.

Lemma inner_loop (events : list Event) (i : nat) :
  i < length events ->
  forall count start acc,
    start + count <= length events ->
    for_range start count
      (fun j overlaps =>
         bind (at_index events i) (fun ei =>
         bind (at_index events j) (fun ej =>
         if eventsOverlap ei ej
         then Ok (overlaps ++ [(i, j)])
         else Ok overlaps)))
      acc
    = Ok (acc ++ map (pair i) (filter (overlap_at events i) (seq start count))).
Proof.
  intros Hi. induction count as [|count IH]; intros start acc Hle; simpl.
  - now rewrite app_nil_r.
  - rewrite inner_body by lia. simpl.
    destruct (overlap_at events i start); simpl; rewrite IH by lia.
    + now rewrite <- app_assoc.
    + reflexivity.
Qed.

Lemma outer_loop (events : list Event) :
  forall count start acc,
    start + count <= length events ->
    for_range start count
      (fun i overlaps =>
         for_range (i + 1) (length events - (i + 1))
           (fun j overlaps =>
              bind (at_index events i) (fun ei =>
              bind (at_index events j) (fun ej =>
              if eventsOverlap ei ej
              then Ok (overlaps ++ [(i, j)])
              else Ok overlaps)))
           overlaps)
      acc
    = Ok (acc ++ flat_map (pairsFrom events) (seq start count)).
Proof.
  induction count as [|count IH]; intros start acc Hle; simpl.
  - now rewrite app_nil_r.
  - rewrite inner_loop by lia. simpl. rewrite IH by lia.
    unfold pairsFrom at 2. now rewrite <- app_assoc.
Qed.

Lemma findOverlappingEvents_eq (events : list Event) :
  findOverlappingEvents events = Ok (overlapPairs events).
Proof.
  unfold findOverlappingEvents, overlapPairs. now rewrite outer_loop.
Qed.

Lemma in_pairsFrom (events : list Event) (i a b : nat) :
  In (a, b) (pairsFrom events i) <->
  a = i /\ i < b < length events /\ overlap_at events i b = true.
Proof.
  unfold pairsFrom. rewrite in_map_iff. split.
  - intros (j & E & H). inversion E; subst.
    apply filter_In in H. destruct H as [H O]. apply in_seq in H.
    repeat split; try lia. exact O.
  - intros (-> & H & O). exists b. split; [reflexivity|].
    apply filter_In. split; [apply in_seq; lia | exact O].
Qed.

Lemma in_overlapPairs (events : list Event) (i j : nat) :
  In (i, j) (overlapPairs events) <->
  i < j < length events /\ overlap_at events i j = true.
Proof.
  unfold overlapPairs. rewrite in_flat_map. split.
  - intros (k & Hk & H). apply in_pairsFrom in H.
    destruct H as (-> & H & O). now split.
  - intros (H & O). exists i. split; [apply in_seq; lia|].
    apply in_pairsFrom. now repeat split.
Qed.

Lemma overlap_at_sym (events : list Event) (i j : nat) :
  overlap_at events i j = overlap_at events j i.
Proof.
  unfold overlap_at.
  destruct (nth_error events i), (nth_error events j); try reflexivity.
  apply eventsOverlap_sym.
Qed.

(** The pairs come out in order. *)

Lemma StronglySorted_app {A} (R : A -> A -> Prop) (l1 l2 : list A) :
  StronglySorted R l1 -> StronglySorted R l2 ->
  (forall x y, In x l1 -> In y l2 -> R x y) ->
  StronglySorted R (l1 ++ l2).
Proof.
  intros S1 S2 H. induction S1 as [|a l S1 IH F]; simpl; [exact S2|].
  constructor.
  - apply IH. intros x y Hx. apply H. now right.
  - apply Forall_app. split; [exact F|].
    apply Forall_forall. intros y Hy. apply H; [now left | exact Hy].
Qed.

Lemma StronglySorted_seq (start count : nat) :
  StronglySorted lt (seq start count).
Proof.
  revert start. induction count as [|count IH]; intros start; simpl.
  - constructor.
  - constructor; [apply IH|].
    apply Forall_forall. intros x Hx. apply in_seq in Hx. lia.
Qed.

Lemma StronglySorted_filter {A} (R : A -> A -> Prop) (f : A -> bool)
    (l : list A) :
  StronglySorted R l -> StronglySorted R (filter f l).
Proof.
  induction 1 as [|a l S IH F]; simpl; [constructor|].
  destruct (f a); [|exact IH].
  constructor; [exact IH|].
  apply Forall_forall. intros x Hx. apply filter_In in Hx.
  rewrite Forall_forall in F. now apply F.
Qed.

Lemma StronglySorted_pair (i : nat) (l : list nat) :
  StronglySorted lt l -> StronglySorted lex_lt (map (pair i) l).
Proof.
  induction 1 as [|a l S IH F]; simpl; constructor; [exact IH|].
  apply Forall_forall. intros p Hp. apply in_map_iff in Hp.
  destruct Hp as (b & <- & Hb). rewrite Forall_forall in F.
  right. simpl. split; [reflexivity | now apply F].
Qed.

Lemma pairsFrom_sorted (events : list Event) (i : nat) :
  StronglySorted lex_lt (pairsFrom events i).
Proof.
  apply StronglySorted_pair, StronglySorted_filter, StronglySorted_seq.
Qed.

Lemma overlapPairs_sorted (events : list Event) :
  StronglySorted lex_lt (overlapPairs events).
Proof.
  unfold overlapPairs. generalize 0 as start.
  induction (length events) as [|count IH]; intros start; simpl.
  - constructor.
  - apply StronglySorted_app; [apply pairsFrom_sorted | apply IH |].
    intros [a b] [c d] Hx Hy. apply in_pairsFrom in Hx.
    apply in_flat_map in Hy. destruct Hy as (k & Hk & Hy).
    apply in_pairsFrom in Hy. apply in_seq in Hk.
    left. simpl. lia.
Qed.

Lemma lex_lt_irrefl (p : nat * nat) : ~ lex_lt p p.
Proof. unfold lex_lt. lia. Qed.

Lemma StronglySorted_NoDup {A} (R : A -> A -> Prop) (l : list A) :
  (forall x, ~ R x x) -> StronglySorted R l -> NoDup l.
Proof.
  intros Irr. induction 1 as [|a l S IH F]; constructor; [|exact IH].
  intros Hin. rewrite Forall_forall in F. exact (Irr a (F a Hin)).
Qed.

Lemma overlap_at_lt (events : list Event) (i j : nat) :
  overlap_at events i j = true -> i < length events /\ j < length events.
Proof.
  unfold overlap_at. intros H. split; apply nth_error_Some; intros E;
    rewrite E in H; [|destruct (nth_error events i)]; discriminate.
Qed.

Lemma reported_overlapPairs (events : list Event) (i j : nat) :
  reported (overlapPairs events) i j <->
  i <> j /\ overlap_at events i j = true.
Proof.
  unfold reported. rewrite !in_overlapPairs. split.
  - intros [[H O]|[H O]]; (split; [lia|]); [|rewrite overlap_at_sym]; exact O.
  - intros [N O]. destruct (overlap_at_lt _ _ _ O) as [Hi Hj].
    destruct (Nat.lt_ge_cases i j) as [L|L].
    + left. split; [lia | exact O].
    + right. split; [lia | now rewrite overlap_at_sym].
Qed.

(** C10: every pair [(i, j)] of the result has [i < j < n]; no pair occurs
    twice, in either order; no index is paired with itself; and two equal
    events of positive duration at two indices are reported. *)
Theorem findOverlappingEvents_index_pairs (events : list Event) :
  exists pairs,
    findOverlappingEvents events = Ok pairs
    /\ (forall i j, In (i, j) pairs -> 0 <= i /\ i < j /\ j < length events)
    /\ NoDup pairs
    /\ (forall i j, In (i, j) pairs -> ~ In (j, i) pairs)
    /\ (forall i, ~ In (i, i) pairs)
    /\ (forall i j e,
          i < j ->
          nth_error events i = Some e -> nth_error events j = Some e ->
          instant_lt (startOf e) (endOf e) ->
          In (i, j) pairs).
Proof.
  exists (overlapPairs events). split; [apply findOverlappingEvents_eq|].
  repeat split.
  - lia.
  - apply in_overlapPairs in H. lia.
  - apply in_overlapPairs in H. lia.
  - apply StronglySorted_NoDup with (R := lex_lt);
      [apply lex_lt_irrefl | apply overlapPairs_sorted].
  - intros i j H H'. apply in_overlapPairs in H, H'. lia.
  - intros i H. apply in_overlapPairs in H. lia.
  - intros i j e L Ei Ej D. apply in_overlapPairs. split.
    + split; [exact L|]. apply nth_error_Some. now rewrite Ej.
    + unfold overlap_at. rewrite Ei, Ej. unfold eventsOverlap.
      apply date_lt_instant in D. unfold startOf, endOf in D.
      now rewrite D.
Qed.

(** ** Reordering the events *)

Lemma reindex_in_range (events events' : list Event) (f : nat -> nat) :
  length events = length events' ->
  (forall k, nth_error events' k = nth_error events (f k)) ->
  forall k, k < length events -> f k < length events.
Proof.
  intros L H k Hk. apply nth_error_Some. rewrite <- H.
  apply nth_error_Some. lia.
Qed.

Lemma reindex_onto (events events' : list Event) (f : nat -> nat) :
  length events = length events' ->
  Finite.Injective f ->
  (forall k, nth_error events' k = nth_error events (f k)) ->
  forall i, i < length events -> exists k, f k = i.
Proof.
  intros L Inj H i Hi.
  pose proof (@nat_bijection_Permutation (length events) f
                (reindex_in_range events events' f L H) Inj) as P.
  simpl in P. apply Permutation_sym in P.
  assert (Hin : In i (map f (seq 0 (length events)))).
  { eapply Permutation_in; [exact P | apply in_seq; lia]. }
  apply in_map_iff in Hin. destruct Hin as (k & E & _). now exists k.
Qed.

Lemma overlap_at_reindex (events events' : list Event) (f : nat -> nat) :
  (forall k, nth_error events' k = nth_error events (f k)) ->
  forall k l, overlap_at events' k l = overlap_at events (f k) (f l).
Proof. intros H k l. unfold overlap_at. now rewrite !H. Qed.

Lemma overlapPairs_reindex (events events' : list Event) (f : nat -> nat) :
  length events = length events' ->
  Finite.Injective f ->
  (forall k, nth_error events' k = nth_error events (f k)) ->
  (forall k l,
     reported (overlapPairs events') k l
     <-> reported (overlapPairs events) (f k) (f l))
  /\ (forall i j,
        reported (overlapPairs events) i j ->
        exists k l,
          f k = i /\ f l = j /\ reported (overlapPairs events') k l).
Proof.
  intros L Inj H.
  assert (A : forall k l,
             reported (overlapPairs events') k l <->
             reported (overlapPairs events) (f k) (f l)).
  { intros k l. rewrite !reported_overlapPairs.
    rewrite (overlap_at_reindex events events' f H). split.
    - intros [N O]. split; [|exact O]. intros E. apply N. now apply Inj.
    - intros [N O]. split; [|exact O]. intros E. apply N. now rewrite E. }
  split; [exact A|].
  intros i j R. pose proof R as R'. apply reported_overlapPairs in R'.
  destruct R' as [_ O]. apply overlap_at_lt in O. destruct O as [Hi Hj].
  destruct (reindex_onto events events' f L Inj H i Hi) as (k & Ek).
  destruct (reindex_onto events events' f L Inj H j Hj) as (l & El).
  exists k, l. repeat split; try assumption.
  apply A. now rewrite Ek, El.
Qed.

(** C8: when [events'] is a permutation of [events], there is a
    one-to-one map [f] of indices with the event at [k] of [events'] the
    event at [f k] of [events]; and through every such map the two results
    hold the same unordered pairs: [k] and [l] are reported for [events']
    exactly when [f k] and [f l] are reported for [events], and every pair
    reported for [events] is of that form. *)
Theorem findOverlappingEvents_permutation_invariant
    (events events' : list Event) :
  Permutation events events' ->
  exists pairs pairs',
    findOverlappingEvents events = Ok pairs
    /\ findOverlappingEvents events' = Ok pairs'
    /\ (exists f : nat -> nat,
          Finite.Injective f
          /\ forall k, nth_error events' k = nth_error events (f k))
    /\ (forall f : nat -> nat,
          Finite.Injective f ->
          (forall k, nth_error events' k = nth_error events (f k)) ->
          (forall k l, reported pairs' k l <-> reported pairs (f k) (f l))
          /\ (forall i j, reported pairs i j ->
                exists k l, f k = i /\ f l = j /\ reported pairs' k l)).
Proof.
  intros P. apply Permutation_nth_error in P. destruct P as [L F].
  exists (overlapPairs events), (overlapPairs events').
  split; [apply findOverlappingEvents_eq|].
  split; [apply findOverlappingEvents_eq|].
  split; [exact F|].
  intros f Inj H. now apply overlapPairs_reindex.
Qed.

(** ** [validateSchedule] *)

Lemma timing_loop (events : list Event) :
  forall index acc,
    forEach_from index events
      (fun event index errors =>
         if negb (isValidEventTiming event)
         then errors ++ [timingError index event]
         else errors) acc
    = acc ++ flat_map
               (fun '(index, event) =>
                  if isValidEventTiming event then []
                  else [timingError index event])
               (combine (seq index (length events)) events).
Proof.
  induction events as [|e events IH]; intros index acc; simpl.
  - now rewrite app_nil_r.
  - rewrite IH. destruct (isValidEventTiming e); simpl.
    + reflexivity.
    + now rewrite <- app_assoc.
Qed.

Lemma overlap_messages_loop (events : list Event) :
  forall pairs acc,
    (forall i j, In (i, j) pairs -> i < length events /\ j < length events) ->
    exists messages,
      forEachR pairs
        (fun '(i, j) errors =>
           bind (at_index events i) (fun ei =>
           bind (at_index events j) (fun ej =>
           Ok (errors ++ [overlapError ei ej])))) acc
      = Ok (acc ++ messages)
      /\ Forall2 (names_pair events) pairs messages.
Proof.
  induction pairs as [|[i j] pairs IH]; intros acc Hin; simpl.
  - exists []. split; [now rewrite app_nil_r | constructor].
  - destruct (Hin i j (or_introl eq_refl)) as [Hi Hj].
    destruct (at_index_lt events i Hi) as (ei & Ei & ->).
    destruct (at_index_lt events j Hj) as (ej & Ej & ->). simpl.
    destruct (IH (acc ++ [overlapError ei ej])) as (messages & E & F).
    { intros a b H. apply Hin. now right. }
    exists (overlapError ei ej :: messages). split.
    + rewrite E. now rewrite <- app_assoc.
    + constructor; [|exact F]. now exists ei, ej.
Qed.

Lemma length_zero_nil {A} (l : list A) : (length l =? 0) = true <-> l = [].
Proof.
  rewrite Nat.eqb_eq. split; [apply length_zero_iff_nil | now intros ->].
Qed.

Lemma timingErrors_texts (events : list Event) :
  timingErrors events = timingTexts events.
Proof.
  unfold timingErrors, timingTexts.
  induction (combine (seq 0 (length events)) events) as [|[index e] l IH];
    [reflexivity|].
  cbn [flat_map]. rewrite IH.
  destruct (isValidEventTiming e); reflexivity.
Qed.

Lemma names_pair_titles (events : list Event) (pairs : list (nat * nat))
    (messages : list jsstring) :
  Forall2 (names_pair events) pairs messages ->
  Forall2 (names_titles events) pairs messages.
Proof.
  induction 1 as [|p message pairs messages (ei & ej & Ei & Ej & M) F IH];
    constructor; [|exact IH].
  exists ei, ej. split; [exact Ei|]. split; [exact Ej|].
  rewrite M. reflexivity.
Qed.

(** C3: [validateSchedule] returns, with [isValid] true exactly when
    [errors] is empty; [errors] is the text [Timezone is required] if the
    timezone is missing, then, for every event whose timing is not valid,
    by index, the text [Event n (title): end time must be after start
    time] with its position [n] counted from 1 and its title, then one
    message for every overlapping pair, which is the text [Events
    overlap:] followed by the title of the first event and the title of
    the second, each between quotes, with [and] between them; the pairs
    are taken with [i] ascending and, for equal [i], [j] ascending, and
    are all the pairs [i < j] of overlapping events. *)
Theorem validateSchedule_accumulates (schedule : ScheduleResponse) :
  exists (result : ValidationResult) (overlapMessages : list jsstring),
    validateSchedule schedule = Ok result
    /\ (isValid result = true <-> errors result = [])
    /\ errors result
       = timezoneErrors schedule ++ timingTexts (events schedule)
         ++ overlapMessages
    /\ Forall2 (names_titles (events schedule))
         (overlapPairs (events schedule)) overlapMessages
    /\ StronglySorted lex_lt (overlapPairs (events schedule))
    /\ (forall i j,
          In (i, j) (overlapPairs (events schedule)) <->
          i < j < length (events schedule)
          /\ overlap_at (events schedule) i j = true).
Proof.
  set (evs := events schedule).
  set (before := timezoneErrors schedule ++ timingErrors evs).
  destruct (overlap_messages_loop evs (overlapPairs evs) before)
    as (messages & E & F).
  { intros i j H. apply in_overlapPairs in H. lia. }
  exists {| isValid := length (before ++ messages) =? 0;
            errors := before ++ messages |}, messages.
  split; [|split; [|split; [|split; [|split]]]].
  - unfold validateSchedule. fold evs.
    rewrite findOverlappingEvents_eq. simpl.
    unfold forEach. rewrite timing_loop.
    subst before. unfold timezoneErrors, timingErrors in *.
    destruct (0 <? length (overlapPairs evs)) eqn:N.
    + rewrite E. reflexivity.
    + apply Nat.ltb_ge in N.
      assert (Z : overlapPairs evs = []).
      { apply length_zero_iff_nil. lia. }
      rewrite Z in F. inversion F; subst. simpl.
      now rewrite app_nil_r.
  - simpl. apply length_zero_nil.
  - simpl. unfold before. rewrite timingErrors_texts.
    now rewrite <- app_assoc.
  - apply names_pair_titles. exact F.
  - apply overlapPairs_sorted.
  - apply in_overlapPairs.
Qed.

End WithHost.
Section Witnesses.
Import Examples.
#[local] Existing Instance RefHost.utc.

Lemma isValidEventTiming_strict_witness :
  isValidEventTiming gym = true
  /\ isValidEventTiming ping = false
  /\ isValidEventTiming ping = false.
Proof.
  split; [|split].
  - apply (proj1 (isValidEventTiming_strict gym)).
    apply date_lt_instant. vm_compute. reflexivity.
  - apply (proj1 (proj2 (isValidEventTiming_strict ping))).
    intros H. apply date_lt_instant in H. vm_compute in H. discriminate H.
  - apply (proj2 (proj2 (isValidEventTiming_strict ping))).
    vm_compute. reflexivity.
Defined.

Lemma eventsOverlap_half_open_witness :
  eventsOverlap gym yoga = false /\ eventsOverlap yoga gym = false.
Proof.
  apply (proj2 (eventsOverlap_half_open gym yoga) 1770624000000%Z);
    vm_compute; reflexivity.
Defined.

Lemma findOverlappingEvents_index_pairs_witness :
  exists pairs,
    findOverlappingEvents [gym; yoga; gym] = Ok pairs /\ In (0, 2) pairs.
Proof.
  destruct (findOverlappingEvents_index_pairs [gym; yoga; gym])
    as (pairs & E & _ & _ & _ & _ & H).
  exists pairs. split; [exact E|].
  apply (H 0 2 gym); [lia | reflexivity | reflexivity |].
  apply date_lt_instant. vm_compute. reflexivity.
Defined.

Lemma rotate3_injective : Finite.Injective rotate3.
Proof.
  intros [|[|[|x]]] [|[|[|y]]]; simpl; intros E;
    try reflexivity; try discriminate E; exact E.
Defined.

Lemma findOverlappingEvents_permutation_invariant_witness :
  exists pairs pairs',
    findOverlappingEvents [gym; run; yoga] = Ok pairs
    /\ findOverlappingEvents [yoga; gym; run] = Ok pairs'
    /\ (forall k l, reported pairs' k l
                    <-> reported pairs (rotate3 k) (rotate3 l))
    /\ (forall i j, reported pairs i j ->
          exists k l, rotate3 k = i /\ rotate3 l = j /\ reported pairs' k l).
Proof.
  destruct (findOverlappingEvents_permutation_invariant
              [gym; run; yoga] [yoga; gym; run])
    as (pairs & pairs' & E & E' & _ & A).
  - apply Permutation_sym, (Permutation_cons_app [gym; run] [] yoga).
    apply Permutation_refl.
  - exists pairs, pairs'. split; [exact E|]. split; [exact E'|].
    apply (A rotate3 rotate3_injective).
    intros [|[|[|k]]]; reflexivity.
Defined.

Lemma validateSchedule_accumulates_witness :
  exists result : ValidationResult,
    validateSchedule {| timezone := []; events := [gym; ping; run] |}
    = Ok result
    /\ (isValid result = true <-> errors result = [])
    /\ errors result
       = [lit "Timezone is required";
          lit "Event 2 (Ping): end time must be after start time";
          lit "Events overlap: " ++ [QUOTE] ++ lit "Gym" ++ [QUOTE]
          ++ lit " and " ++ [QUOTE] ++ lit "Ping" ++ [QUOTE];
          lit "Events overlap: " ++ [QUOTE] ++ lit "Gym" ++ [QUOTE]
          ++ lit " and " ++ [QUOTE] ++ lit "Run" ++ [QUOTE];
          lit "Events overlap: " ++ [QUOTE] ++ lit "Ping" ++ [QUOTE]
          ++ lit " and " ++ [QUOTE] ++ lit "Run" ++ [QUOTE]].
Proof.
  destruct (validateSchedule_accumulates
              {| timezone := []; events := [gym; ping; run] |})
    as (result & messages & E & V & Errs & F & _).
  exists result. split; [exact E|]. split; [exact V|].
  rewrite Errs. clear E V Errs.
  change (overlapPairs (events {| timezone := [];
                                  events := [gym; ping; run] |}))
    with [(0, 1); (0, 2); (1, 2)] in F.
  inversion F as [|p1 m1 l1 l1' (a1 & b1 & A1 & B1 & ->) F1]; subst.
  inversion F1 as [|p2 m2 l2 l2' (a2 & b2 & A2 & B2 & ->) F2]; subst.
  inversion F2 as [|p3 m3 l3 l3' (a3 & b3 & A3 & B3 & ->) F3]; subst.
  inversion F3; subst.
  injection A1 as <-. injection B1 as <-. injection A2 as <-.
  injection B2 as <-. injection A3 as <-. injection B3 as <-.
  reflexivity.
Defined.

End Witnesses.

End SchemaProofs.

(* ===================================================================== *)
(** * The calendar-file encoder                                           *)
(* ===================================================================== *)

Module IcsProofs.
Import JS Schema Ics Reader Spec.

(** ** Escaping *)

Lemma replace_all_app (c : code_unit) (by_ s t : jsstring) :
  replace_all c by_ (s ++ t) = replace_all c by_ s ++ replace_all c by_ t.
Proof. unfold replace_all. apply flat_map_app. Qed.

Lemma replace_all_cons (c : code_unit) (by_ : jsstring) (x : code_unit)
    (s : jsstring) :
  replace_all c by_ (x :: s)
  = (if (x =? c)%N then by_ else [x]) ++ replace_all c by_ s.
Proof. reflexivity. Qed.

Lemma escape_one (c : code_unit) : escapeICSText [c] = escape_unit c.
Proof.
  unfold escapeICSText, escape_unit, replace_all. simpl.
  destruct (N.eqb_spec c BACKSLASH) as [->|N1]; [reflexivity|]. simpl.
  destruct (N.eqb_spec c SEMICOLON) as [->|N2]; [reflexivity|]. simpl.
  destruct (N.eqb_spec c COMMA) as [->|N3]; [reflexivity|]. simpl.
  destruct (N.eqb_spec c LF) as [->|N4]; reflexivity.
Qed.

Lemma escapeICSText_app (s t : jsstring) :
  escapeICSText (s ++ t) = escapeICSText s ++ escapeICSText t.
Proof. unfold escapeICSText. now rewrite !replace_all_app. Qed.

Lemma escapeICSText_units (text : jsstring) :
  escapeICSText text = flat_map escape_unit text.
Proof.
  induction text as [|c text IH]; [reflexivity|].
  change (c :: text) with ([c] ++ text).
  rewrite escapeICSText_app, escape_one, IH. reflexivity.
Qed.

Lemma unescape_escape_unit (c : code_unit) (rest : jsstring) :
  unescapeICSText (escape_unit c ++ rest) = c :: unescapeICSText rest.
Proof.
  unfold escape_unit.
  destruct (N.eqb_spec c BACKSLASH) as [->|N1]; [reflexivity|].
  destruct (N.eqb_spec c SEMICOLON) as [->|N2]; [reflexivity|].
  destruct (N.eqb_spec c COMMA) as [->|N3]; [reflexivity|].
  destruct (N.eqb_spec c LF) as [->|N4]; [reflexivity|].
  simpl. apply N.eqb_neq in N1. now rewrite N1.
Qed.

Lemma unescape_escape (text : jsstring) :
  unescapeICSText (escapeICSText text) = text.
Proof.
  rewrite escapeICSText_units.
  induction text as [|c text IH]; [reflexivity|].
  simpl. rewrite unescape_escape_unit. now rewrite IH.
Qed.

(** C4: the replacements are made in the order backslash, semicolon,
    comma, newline; each of the first three code units gains a backslash
    before it and a newline becomes a backslash and the letter n; and
    unescaping the escaped text gives the text back, for every text, so
    that two texts with the same escaped form are equal. *)
Theorem escapeICSText_order_and_roundtrip :
  (forall text,
     escapeICSText text
     = replace_all LF [BACKSLASH; 110%N]
         (replace_all COMMA [BACKSLASH; COMMA]
            (replace_all SEMICOLON [BACKSLASH; SEMICOLON]
               (replace_all BACKSLASH [BACKSLASH; BACKSLASH] text))))
  /\ escapeICSText [BACKSLASH] = [BACKSLASH; BACKSLASH]
  /\ escapeICSText [SEMICOLON] = [BACKSLASH; SEMICOLON]
  /\ escapeICSText [COMMA] = [BACKSLASH; COMMA]
  /\ escapeICSText [LF] = [BACKSLASH; 110%N]
  /\ (forall text, escapeICSText text = flat_map escape_unit text)
  /\ (forall text, unescapeICSText (escapeICSText text) = text)
  /\ (forall text text',
        escapeICSText text = escapeICSText text' -> text = text').
Proof.
  repeat split; try reflexivity.
  - apply escapeICSText_units.
  - apply unescape_escape.
  - intros text text' E.
    rewrite <- (unescape_escape text), <- (unescape_escape text').
    now rewrite E.
Qed.

Lemma escapeICSText_order_and_roundtrip_witness :
  unescapeICSText
    (escapeICSText (lit "Meeting; Q1, a\b" ++ [LF] ++ lit "Follow-up"))
  = lit "Meeting; Q1, a\b" ++ [LF] ++ lit "Follow-up"
  /\ lit "a,b" = lit "a,b".
Proof.
  destruct escapeICSText_order_and_roundtrip
    as (_ & _ & _ & _ & _ & _ & R & I).
  split; [apply R | apply I; reflexivity].
Defined.

(** ** Folding *)

Lemma unfoldLine_eq (a : code_unit) (rest : jsstring) :
  unfoldLine (a :: rest)
  = if starts_with_mark (a :: rest) then unfoldLine (skipn 2 rest)
    else a :: unfoldLine rest.
Proof. destruct rest as [|b [|c r]]; reflexivity. Qed.

Lemma has_fold_mark_eq (a : code_unit) (rest : jsstring) :
  has_fold_mark (a :: rest)
  = starts_with_mark (a :: rest) || has_fold_mark rest.
Proof. destruct rest as [|b [|c r]]; reflexivity. Qed.

Lemma starts_with_mark_app (s t : jsstring) :
  starts_with_mark (s ++ t) = false -> starts_with_mark s = false.
Proof. destruct s as [|a [|b [|c r]]]; simpl; auto. Qed.

Lemma no_mark_app (s t : jsstring) :
  has_fold_mark (s ++ t) = false ->
  has_fold_mark s = false /\ has_fold_mark t = false.
Proof.
  induction s as [|a s IH]; intros H; [now split|].
  change ((a :: s) ++ t) with (a :: (s ++ t)) in H.
  rewrite has_fold_mark_eq in H. apply orb_false_iff in H.
  destruct H as [M H]. destruct (IH H) as [Hs Ht]. split; [|exact Ht].
  rewrite has_fold_mark_eq, Hs.
  change (a :: (s ++ t)) with ((a :: s) ++ t) in M.
  now rewrite (starts_with_mark_app _ _ M).
Qed.

Lemma no_mark_firstn (n : nat) (s : jsstring) :
  has_fold_mark s = false -> has_fold_mark (firstn n s) = false.
Proof.
  intros H. rewrite <- (firstn_skipn n s) in H. now apply no_mark_app in H.
Qed.

Lemma no_mark_skipn (n : nat) (s : jsstring) :
  has_fold_mark s = false -> has_fold_mark (skipn n s) = false.
Proof.
  intros H. rewrite <- (firstn_skipn n s) in H. now apply no_mark_app in H.
Qed.

Lemma no_mark_concat (chunks : list jsstring) :
  has_fold_mark (concat chunks) = false ->
  Forall (fun c => has_fold_mark c = false) chunks.
Proof.
  induction chunks as [|c chunks IH]; intros H; constructor;
    simpl in H; apply no_mark_app in H; [apply H | apply IH, H].
Qed.

Lemma unfold_no_mark (s : jsstring) :
  has_fold_mark s = false -> unfoldLine s = s.
Proof.
  induction s as [|a s IH]; intros H; [reflexivity|].
  rewrite has_fold_mark_eq in H. apply orb_false_iff in H.
  destruct H as [M H]. rewrite unfoldLine_eq, M. now rewrite IH.
Qed.

Lemma unfold_app_mark (s t : jsstring) :
  has_fold_mark s = false ->
  unfoldLine (s ++ CR :: LF :: SP :: t) = s ++ unfoldLine t.
Proof.
  induction s as [|a s IH]; intros H; [reflexivity|].
  rewrite has_fold_mark_eq in H. apply orb_false_iff in H.
  destruct H as [M H].
  change ((a :: s) ++ CR :: LF :: SP :: t)
    with (a :: (s ++ CR :: LF :: SP :: t)).
  rewrite unfoldLine_eq.
  assert (N : starts_with_mark (a :: (s ++ CR :: LF :: SP :: t)) = false).
  { destruct s as [|b [|c r]]; simpl.
    - unfold is_mark. simpl. now rewrite andb_false_r.
    - unfold is_mark. simpl. now rewrite andb_false_r.
    - exact M. }
  rewrite N. simpl. now rewrite IH.
Qed.

Lemma join_continuations (first : jsstring) (chunks : list jsstring) :
  join CRLF (first :: map (cons SP) chunks)
  = first ++ flat_map (fun c => CR :: LF :: SP :: c) chunks.
Proof.
  revert first. induction chunks as [|c chunks IH]; intros first.
  - simpl. now rewrite app_nil_r.
  - change (join CRLF (first :: map (cons SP) (c :: chunks)))
      with (first ++ CRLF ++ join CRLF ((SP :: c) :: map (cons SP) chunks)).
    rewrite IH. reflexivity.
Qed.

Lemma unfold_continuations (chunks : list jsstring) :
  Forall (fun c => has_fold_mark c = false) chunks ->
  forall first,
    has_fold_mark first = false ->
    unfoldLine (first ++ flat_map (fun c => CR :: LF :: SP :: c) chunks)
    = first ++ concat chunks.
Proof.
  induction 1 as [|c chunks Hc F IH]; intros first Hf; simpl.
  - rewrite !app_nil_r. now apply unfold_no_mark.
  - change ((CR :: LF :: SP :: c)
            ++ flat_map (fun c0 => CR :: LF :: SP :: c0) chunks)
      with (CR :: LF :: SP
            :: (c ++ flat_map (fun c0 => CR :: LF :: SP :: c0) chunks)).
    rewrite unfold_app_mark by exact Hf. now rewrite IH.
Qed.

(** The loop of [foldLine] cuts what remains into chunks. *)
Lemma foldLine_loop_chunks (remaining : jsstring) (folded : list jsstring) :
  exists chunks,
    foldLine_loop remaining folded = folded ++ map (cons SP) chunks
    /\ concat chunks = remaining
    /\ Forall (fun c => 1 <= length c <= 74) chunks
    /\ full_but_last chunks.
Proof.
  funelim (foldLine_loop remaining folded).
  - exists []. simp foldLine_loop. rewrite app_nil_r.
    repeat split; constructor.
  - destruct H as (chunks & E & C & F & B).
    unfold substring, substring_from in *.
    change (74 - 0) with 74 in *.
    change (skipn 0 (c :: rest)) with (c :: rest) in *.
    assert (Ll : 1 <= length (c :: rest)) by (simpl; lia).
    set (l := c :: rest) in *. clearbody l.
    exists (firstn 74 l :: chunks).
    rewrite E, <- app_assoc.
    split; [reflexivity|]. split; [|split].
    + change (concat (firstn 74 l :: chunks))
        with (firstn 74 l ++ concat chunks).
      rewrite C. apply firstn_skipn.
    + constructor; [|exact F]. rewrite length_firstn. lia.
    + destruct chunks as [|c' chunks']; [exact I|].
      change (length (firstn 74 l) = 74 /\ full_but_last (c' :: chunks')).
      split; [|exact B]. rewrite length_firstn.
      assert (L : length (concat (c' :: chunks')) <> 0).
      { inversion F; subst.
        change (concat (c' :: chunks')) with (c' ++ concat chunks').
        rewrite length_app. lia. }
      rewrite C, length_skipn in L. lia.
Qed.

Lemma foldLine_short (line : jsstring) :
  length line <= 75 -> foldLine line = line.
Proof.
  intros H. unfold foldLine. apply Nat.leb_le in H. now rewrite H.
Qed.

Lemma foldLine_long (line : jsstring) :
  75 < length line ->
  exists chunks,
    foldLine line = join CRLF (firstn 75 line :: map (cons SP) chunks)
    /\ concat chunks = skipn 75 line
    /\ Forall (fun c => 1 <= length c <= 74) chunks
    /\ full_but_last chunks.
Proof.
  intros H. unfold foldLine. apply Nat.leb_gt in H. rewrite H.
  cbv zeta. unfold substring, substring_from.
  change (75 - 0) with 75. change (skipn 0 line) with line.
  destruct (foldLine_loop_chunks (skipn 75 line) ([] ++ [firstn 75 line]))
    as (chunks & E & C & F & B).
  exists chunks. split; [apply f_equal; exact E|].
  repeat split; assumption.
Qed.

Lemma unfold_foldLine (line : jsstring) :
  has_fold_mark line = false -> unfoldLine (foldLine line) = line.
Proof.
  intros H. destruct (Nat.le_gt_cases (length line) 75) as [S|L].
  - rewrite foldLine_short by exact S. now apply unfold_no_mark.
  - destruct (foldLine_long line L) as (chunks & E & C & _ & _).
    rewrite E, join_continuations, unfold_continuations.
    + rewrite C. apply firstn_skipn.
    + apply no_mark_concat. rewrite C. now apply no_mark_skipn.
    + now apply no_mark_firstn.
Qed.

(** C2, as stated, fails for a line that holds CRLF and a space itself:
    folding leaves this short line as it is, and unfolding removes the
    three code units. *)
Lemma foldLine_roundtrip_counterexample :
  let line := lit "X-WR-TIMEZONE:" ++ [CR; LF; SP] ++ lit "UTC" in
  length line <= 75
  /\ foldLine line = line
  /\ unfoldLine (foldLine line) = lit "X-WR-TIMEZONE:UTC"
  /\ unfoldLine (foldLine line) <> line.
Proof.
  vm_compute. repeat split; try lia. discriminate.
Qed.

(** C2, amended: a line of at most 75 code units is returned unchanged; a
    longer one becomes its first 75 code units followed by chunks, each
    of them a space and 1 to 74 code units of the rest of the line (74 in
    every chunk but the last), all joined by CRLF; and for a line that
    holds no CRLF followed by a space, removing every CRLF followed by a
    space from the folded line gives the line back. *)
Theorem foldLine_folds (line : jsstring) :
  (length line <= 75 -> foldLine line = line)
  /\ (75 < length line ->
      exists chunks,
        foldLine line = join CRLF (firstn 75 line :: map (cons SP) chunks)
        /\ concat chunks = skipn 75 line
        /\ Forall (fun c => 1 <= length c <= 74) chunks
        /\ full_but_last chunks)
  /\ (has_fold_mark line = false -> unfoldLine (foldLine line) = line).
Proof.
  split; [apply foldLine_short|].
  split; [apply foldLine_long | apply unfold_foldLine].
Qed.

Lemma foldLine_folds_witness :
  foldLine (lit "SUMMARY:Gym") = lit "SUMMARY:Gym"
  /\ (exists chunks,
        foldLine (repeat 97%N 200)
        = join CRLF (repeat 97%N 75 :: map (cons SP) chunks)
        /\ concat chunks = repeat 97%N 125
        /\ Forall (fun c => 1 <= length c <= 74) chunks
        /\ full_but_last chunks)
  /\ unfoldLine (foldLine (repeat 97%N 200)) = repeat 97%N 200.
Proof.
  split; [|split].
  - apply (proj1 (foldLine_folds (lit "SUMMARY:Gym"))). simpl. lia.
  - apply (proj1 (proj2 (foldLine_folds (repeat 97%N 200)))).
    rewrite repeat_length. lia.
  - apply (proj2 (proj2 (foldLine_folds (repeat 97%N 200)))).
    vm_compute. reflexivity.
Defined.

(** ** Identifiers *)

Lemma uint_units_digits (d : Decimal.uint) : digits (uint_units d).
Proof. induction d; simpl; constructor; (reflexivity || assumption). Qed.

Lemma uint_units_inj (d d' : Decimal.uint) :
  uint_units d = uint_units d' -> d = d'.
Proof.
  revert d'. induction d; destruct d'; simpl; intros E;
    try discriminate E; try reflexivity;
    injection E as E; f_equal; now apply IHd.
Qed.

Lemma uint_units_nonempty (d : Decimal.uint) : d <> Nil -> uint_units d <> [].
Proof. destruct d; simpl; intros N E; (now apply N) || discriminate E. Qed.

Lemma String_of_nat_inj (i j : nat) :
  String_of_nat i = String_of_nat j -> i = j.
Proof.
  intros E. apply DecimalNat.Unsigned.to_uint_inj. now apply uint_units_inj.
Qed.

Lemma is_digit_alnum (c : code_unit) : is_digit c = true -> is_alnum c = true.
Proof. unfold is_alnum. intros ->. apply orb_true_r. Qed.

Lemma filter_alnum_digits (s : jsstring) :
  digits s -> filter is_alnum s = s.
Proof.
  induction 1 as [|c s Hc F IH]; [reflexivity|].
  simpl. rewrite (is_digit_alnum c Hc). now rewrite IH.
Qed.

(** Two texts that agree, each made of digits followed by a code unit
    that is not a digit, have the same digits and the same remainder. *)
Lemma digits_prefix_unique (x y : jsstring) (c1 c2 : code_unit)
    (r1 r2 : jsstring) :
  digits x -> digits y -> is_digit c1 = false -> is_digit c2 = false ->
  x ++ c1 :: r1 = y ++ c2 :: r2 ->
  x = y /\ c1 = c2 /\ r1 = r2.
Proof.
  intros Hx. revert y. induction Hx as [|a x Ha Hx IH]; intros y Hy N1 N2 E.
  - destruct Hy as [|b y Hb Hy]; simpl in E.
    + injection E as -> ->. auto.
    + injection E as -> _. congruence.
  - destruct Hy as [|b y Hb Hy]; simpl in E.
    + injection E as -> _. congruence.
    + injection E as -> E. destruct (IH y Hy N1 N2 E) as (-> & -> & ->).
      auto.
Qed.

Lemma app_inv_same_tail_length {A} (h1 h2 t1 t2 : list A) :
  length t1 = length t2 -> h1 ++ t1 = h2 ++ t2 -> h1 = h2 /\ t1 = t2.
Proof.
  intros L E.
  assert (Lh : length h1 = length h2).
  { apply (f_equal (@length A)) in E. rewrite !length_app in E. lia. }
  revert h2 Lh E. induction h1 as [|a h1 IH]; intros [|b h2] Lh E;
    try discriminate Lh.
  - now split.
  - simpl in E. injection E as -> E. injection Lh as Lh.
    destruct (IH h2 Lh E) as [-> ->]. now split.
Qed.

Lemma generateUID_eq (event : Event) (index : nat) (w : World) :
  fst (generateUID event index w)
  = String_of_Z (clock w (reads w)) ++ lit "-" ++ uidHash event index
    ++ lit "@chat-to-calendar".
Proof. reflexivity. Qed.

Lemma filter_keep (c : code_unit) (s : jsstring) :
  is_alnum c = true -> filter is_alnum (c :: s) = c :: filter is_alnum s.
Proof. intros H. simpl. now rewrite H. Qed.

Lemma filter_drop (c : code_unit) (s : jsstring) :
  is_alnum c = false -> filter is_alnum (c :: s) = filter is_alnum s.
Proof. intros H. simpl. now rewrite H. Qed.

Lemma local_datetime_alnum (s : jsstring) :
  is_local_datetime s = true ->
  exists date time,
    filter is_alnum s = date ++ 84%N :: time
    /\ length time = 4 /\ digits time.
Proof.
  do 17 (destruct s as [|? s]; try discriminate).
  unfold is_local_datetime.
  rewrite !andb_true_iff, !N.eqb_eq.
  intros (((((((((((((((Y1 & Y2) & Y3) & Y4) & ->) & M1) & M2) & ->)
                   & D1) & D2) & ->) & H1) & H2) & ->) & N1) & N2).
  exists [c; c0; c1; c2; c4; c5; c7; c8], [c10; c11; c13; c14].
  repeat first
    [ rewrite filter_keep by (apply is_digit_alnum; assumption)
    | rewrite filter_keep by reflexivity
    | rewrite filter_drop by reflexivity ].
  repeat split. repeat constructor; assumption.
Qed.

Lemma uidHash_shape (event : Event) (index : nat) :
  is_local_datetime (start_local event) = true ->
  exists before time,
    uidHash event index = before ++ 84%N :: time ++ String_of_nat index
    /\ length time = 4 /\ digits time.
Proof.
  intros W. destruct (local_datetime_alnum _ W) as (date & time & E & L & D).
  exists (filter is_alnum (title event) ++ date), time.
  unfold uidHash. rewrite !filter_app, E.
  rewrite (filter_alnum_digits (String_of_nat index))
    by apply uint_units_digits.
  change (filter is_alnum (lit "-")) with (@nil code_unit).
  rewrite <- !app_assoc. simpl. auto.
Qed.

(** With start times of the documented form, the position can be read
    off the hash. *)
Lemma uidHash_index (e1 e2 : Event) (i j : nat) :
  is_local_datetime (start_local e1) = true ->
  is_local_datetime (start_local e2) = true ->
  uidHash e1 i = uidHash e2 j -> i = j.
Proof.
  intros W1 W2 E.
  destruct (uidHash_shape e1 i W1) as (b1 & t1 & E1 & L1 & D1).
  destruct (uidHash_shape e2 j W2) as (b2 & t2 & E2 & L2 & D2).
  rewrite E1, E2 in E. apply (f_equal (@rev code_unit)) in E.
  change (b1 ++ 84%N :: t1 ++ String_of_nat i)
    with (b1 ++ [84%N] ++ t1 ++ String_of_nat i) in E.
  change (b2 ++ 84%N :: t2 ++ String_of_nat j)
    with (b2 ++ [84%N] ++ t2 ++ String_of_nat j) in E.
  rewrite !rev_app_distr in E. simpl in E. rewrite <- !app_assoc in E.
  simpl in E. rewrite !app_assoc in E.
  apply digits_prefix_unique in E; try reflexivity.
  - destruct E as (E & _ & _).
    apply app_inv_same_tail_length in E; [|now rewrite !length_rev, L1, L2].
    destruct E as [E _]. apply String_of_nat_inj.
    rewrite <- (rev_involutive (String_of_nat i)), E. apply rev_involutive.
  - apply Forall_app. split; apply Forall_rev;
      [apply uint_units_digits | exact D1].
  - apply Forall_app. split; apply Forall_rev;
      [apply uint_units_digits | exact D2].
Qed.

Lemma String_of_Z_shape (z : Z) :
  (exists d, String_of_Z z = d /\ digits d /\ d <> [])
  \/ (exists d, String_of_Z z = 45%N :: d /\ digits d /\ d <> []).
Proof.
  destruct z as [|p|p]; [left | left | right]; eexists;
    (split; [reflexivity|]); split;
    try apply uint_units_digits; apply uint_units_nonempty.
  - discriminate.
  - apply DecimalPos.Unsigned.to_uint_nonnil.
  - apply DecimalPos.Unsigned.to_uint_nonnil.
Qed.

(** Two identifiers that agree have the same hash. *)
Lemma uid_hash_inj (t1 t2 : Z) (h1 h2 : jsstring) :
  String_of_Z t1 ++ lit "-" ++ h1 ++ lit "@chat-to-calendar"
  = String_of_Z t2 ++ lit "-" ++ h2 ++ lit "@chat-to-calendar" ->
  h1 = h2.
Proof.
  intros E.
  assert (R : forall d1 d2 : jsstring,
             digits d1 -> digits d2 ->
             d1 ++ lit "-" ++ h1 ++ lit "@chat-to-calendar"
             = d2 ++ lit "-" ++ h2 ++ lit "@chat-to-calendar" ->
             h1 = h2).
  { intros d1 d2 D1 D2 H.
    apply (digits_prefix_unique d1 d2) in H;
      [| assumption | assumption | reflexivity | reflexivity].
    destruct H as (_ & _ & H). now apply app_inv_tail in H. }
  destruct (String_of_Z_shape t1) as [(d1 & S1 & D1 & N1)|(d1 & S1 & D1 & N1)];
    destruct (String_of_Z_shape t2)
      as [(d2 & S2 & D2 & N2)|(d2 & S2 & D2 & N2)];
    rewrite S1, S2 in E.
  - now apply (R d1 d2).
  - exfalso. destruct D1 as [|a d1 Ha D1]; [now apply N1|].
    simpl in E. injection E as -> _. discriminate Ha.
  - exfalso. destruct D2 as [|a d2 Ha D2]; [now apply N2|].
    simpl in E. injection E as <- _. discriminate Ha.
  - simpl in E. injection E as E. now apply (R d1 d2).
Qed.

Lemma generateUID_index (e1 e2 : Event) (i j : nat) (w1 w2 : World) :
  is_local_datetime (start_local e1) = true ->
  is_local_datetime (start_local e2) = true ->
  fst (generateUID e1 i w1) = fst (generateUID e2 j w2) -> i = j.
Proof.
  intros W1 W2 E. rewrite !generateUID_eq in E.
  apply uid_hash_inj in E. now apply (uidHash_index e1 e2).
Qed.

(** ** The identifiers of one run *)

Section Run.
Context {host : Host}.

Lemma createVEvent_lines (e : Event) (index : nat) (w : World) :
  fst (createVEvent e index w)
  = [lit "BEGIN:VEVENT";
     lit "UID:" ++ fst (generateUID e index w);
     lit "DTSTAMP:"
     ++ formatDateForICS (toISOString (clock w (S (reads w))));
     lit "DTSTART:" ++ formatDateForICS (start_local e);
     lit "DTEND:" ++ formatDateForICS (end_local e);
     lit "SUMMARY:" ++ escapeICSText (title e)]
    ++ descriptionLines e ++ locationLines e ++ [lit "END:VEVENT"].
Proof.
  unfold createVEvent, descriptionLines, locationLines, bindM, ret.
  destruct (description e) as [[|? ?]|], (location e) as [[|? ?]|];
    reflexivity.
Qed.

Lemma forEach_blocks (events : list Event) :
  forall index (lines : list jsstring) w,
    forEachM_from index events
      (fun event index lines =>
         let* block := createVEvent event index in
         ret (lines ++ block))
      lines w
    = (let (blocks, w') := eventBlocks index events w in
       (lines ++ blocks, w')).
Proof.
  induction events as [|e events IH]; intros index lines w.
  - simpl. unfold ret. now rewrite app_nil_r.
  - cbn [forEachM_from eventBlocks]. unfold bindM at 1 2. unfold ret at 1.
    destruct (createVEvent e index w) as [block w1].
    rewrite IH.
    destruct (eventBlocks (S index) events w1) as [blocks w2].
    now rewrite app_assoc.
Qed.

Lemma documentLines_run (schedule : ScheduleResponse) (w : World) :
  documentLines schedule w
  = (headerLines schedule
     ++ fst (eventBlocks 0 (events schedule) w) ++ [lit "END:VCALENDAR"],
     snd (eventBlocks 0 (events schedule) w)).
Proof.
  unfold documentLines, forEachM, bindM at 1. rewrite forEach_blocks.
  unfold ret, headerLines.
  destruct (eventBlocks 0 (events schedule) w) as [blocks w'].
  reflexivity.
Qed.

Lemma documentLines_eq (schedule : ScheduleResponse) (w : World) :
  fst (documentLines schedule w)
  = headerLines schedule
    ++ fst (eventBlocks 0 (events schedule) w) ++ [lit "END:VCALENDAR"].
Proof. now rewrite documentLines_run. Qed.

Lemma uidsOf_app (a b : list jsstring) : uidsOf (a ++ b) = uidsOf a ++ uidsOf b.
Proof. unfold uidsOf. now rewrite filter_app, map_app. Qed.

Lemma uidsOf_block (e : Event) (index : nat) (w : World) :
  uidsOf (fst (createVEvent e index w)) = [fst (generateUID e index w)].
Proof.
  rewrite createVEvent_lines, !uidsOf_app.
  unfold descriptionLines, locationLines.
  destruct (description e) as [[|? ?]|], (location e) as [[|? ?]|];
    reflexivity.
Qed.

Lemma uidsOf_eventBlocks (events : list Event) :
  Forall (fun e => is_local_datetime (start_local e) = true) events ->
  forall index w,
    let uids := uidsOf (fst (eventBlocks index events w)) in
    length uids = length events
    /\ NoDup uids
    /\ Forall
         (fun u => exists k e w',
              index <= k
              /\ is_local_datetime (start_local e) = true
              /\ u = fst (generateUID e k w'))
         uids.
Proof.
  induction 1 as [|e events We F IH]; intros index w.
  - simpl. repeat split; constructor.
  - cbn [eventBlocks].
    pose proof (uidsOf_block e index w) as B.
    destruct (createVEvent e index w) as [block w1].
    specialize (IH (S index) w1).
    destruct (eventBlocks (S index) events w1) as [blocks w2].
    cbn [fst] in *. cbv zeta in IH. destruct IH as (L & N & All).
    cbv zeta. rewrite uidsOf_app, B. cbn [app]. repeat split.
    + simpl. now rewrite L.
    + constructor; [|exact N]. intros Hin.
      rewrite Forall_forall in All.
      destruct (All _ Hin) as (k & e' & w' & Hk & We' & E).
      apply (generateUID_index e e' index k w w' We We') in E. lia.
    + constructor.
      * now exists index, e, w.
      * eapply Forall_impl; [|exact All].
        intros u (k & e' & w' & Hk & We' & E).
        exists k, e', w'. repeat split; try assumption. lia.
Qed.

Lemma uidsOf_run (schedule : ScheduleResponse) (w : World) :
  Forall (fun e => is_local_datetime (start_local e) = true)
    (events schedule) ->
  length (uidsOf (fst (documentLines schedule w)))
  = length (events schedule)
  /\ NoDup (uidsOf (fst (documentLines schedule w))).
Proof.
  intros W. rewrite documentLines_eq, !uidsOf_app.
  change (uidsOf (headerLines schedule)) with (@nil jsstring).
  change (uidsOf [lit "END:VCALENDAR"]) with (@nil jsstring).
  rewrite app_nil_r. cbn [app].
  destruct (uidsOf_eventBlocks (events schedule) W 0 w) as (L & N & _).
  now split.
Qed.

End Run.

(** C5: the identifiers of two events at distinct positions can collide.
    With the clock standing still over the run, the events at positions 0
    and 100 of [longRun], which have the same title and the start times
    [2026-02-09T07:00:10] and [2026-02-09T07:00], both get the identifier
    [1770620400000-Standup20260209T0700100@chat-to-calendar]; so do, in
    [crowded], the events at positions 1 and 11, whose start times are
    [2026-02-09T07:01] and [2026-02-09T07:0]. The list of identifiers of
    either run has a repetition. *)
Theorem generateUID_collision :
  let w := RefHost.frozen 1770620400000 in
  let uids :=
    uidsOf (fst (documentLines (host := RefHost.utc) Examples.longRun w)) in
  let uids' :=
    uidsOf (fst (documentLines (host := RefHost.utc) Examples.crowded w)) in
  (fst (generateUID (Examples.standup "2026-02-09T07:00:10") 0 w)
   = fst (generateUID (Examples.standup "2026-02-09T07:00") 100 w)
   /\ nth_error uids 0
      = Some (lit "1770620400000-Standup20260209T0700100@chat-to-calendar")
   /\ nth_error uids 100 = nth_error uids 0
   /\ ~ NoDup uids)
  /\ (fst (generateUID (Examples.standup "2026-02-09T07:01") 1 w)
      = fst (generateUID (Examples.standup "2026-02-09T07:0") 11 w)
      /\ nth_error uids' 1
         = Some (lit "1770620400000-Standup20260209T07011@chat-to-calendar")
      /\ nth_error uids' 11 = nth_error uids' 1
      /\ ~ NoDup uids').
Proof.
  cbv zeta. split.
  - split; [vm_compute; reflexivity|].
    split; [vm_compute; reflexivity|].
    split; [vm_compute; reflexivity|].
    intros N. rewrite NoDup_nth_error in N.
    specialize (N 100 0). cut (100 = 0); [discriminate|].
    apply N; vm_compute; [lia | reflexivity].
  - split; [vm_compute; reflexivity|].
    split; [vm_compute; reflexivity|].
    split; [vm_compute; reflexivity|].
    intros N. rewrite NoDup_nth_error in N.
    specialize (N 11 1). cut (11 = 1); [discriminate|].
    apply N; vm_compute; [lia | reflexivity].
Qed.

(** Where the identifiers are distinct: two events at distinct positions
    whose start times have the documented form [YYYY-MM-DDTHH:mm] get
    distinct identifiers, whatever their titles and whatever the clock
    reads at the two calls; so the identifiers of one run over a schedule
    with such start times, one for each event, are pairwise distinct. *)
Theorem generateUID_distinct :
  (forall (e1 e2 : Event) (i j : nat) (w1 w2 : World),
     is_local_datetime (start_local e1) = true ->
     is_local_datetime (start_local e2) = true ->
     i <> j ->
     fst (generateUID e1 i w1) <> fst (generateUID e2 j w2))
  /\ (forall (host : Host) (schedule : ScheduleResponse) (w : World),
        Forall (fun e => is_local_datetime (start_local e) = true)
          (events schedule) ->
        length (uidsOf (fst (documentLines schedule w)))
        = length (events schedule)
        /\ NoDup (uidsOf (fst (documentLines schedule w)))).
Proof.
  split.
  - intros e1 e2 i j w1 w2 W1 W2 N E. apply N.
    now apply (generateUID_index e1 e2 i j w1 w2).
  - intros host schedule w W. now apply uidsOf_run.
Qed.

Lemma generateUID_distinct_witness :
  fst (generateUID Examples.gym 0 (RefHost.frozen 1770620400000))
  <> fst (generateUID Examples.gym 1 (RefHost.frozen 1770620400000))
  /\ NoDup
       (uidsOf
          (fst (documentLines (host := RefHost.utc)
                  {| timezone := lit "UTC";
                     events := [Examples.gym; Examples.gym; Examples.yoga] |}
                  (RefHost.frozen 1770620400000)))).
Proof.
  split.
  - apply (proj1 generateUID_distinct); [reflexivity | reflexivity | lia].
  - apply (proj2 generateUID_distinct RefHost.utc).
    repeat constructor.
Defined.

End IcsProofs.

(* ===================================================================== *)
(** * The single-event link                                               *)
(* ===================================================================== *)

Module AppleLinkProofs.
Import JS Schema AppleLink Spec.

Section WithHost.
Context {host : Host}.

Lemma formatDateForApple_invalid (text : jsstring) :
  Date_parse text = None ->
  formatDateForApple text = lit "NaNNaNNaNTNaNNaN00".
Proof. intros H. unfold formatDateForApple. now rewrite H. Qed.

Lemma linkParams_eq (e : Event) :
  linkParams e
  = [(lit "title", title e);
     (lit "starts", formatDateForApple (start_local e));
     (lit "ends", formatDateForApple (end_local e))]
    ++ optionalParams e.
Proof.
  unfold linkParams, optionalParams.
  destruct (description e) as [[|? ?]|], (location e) as [[|? ?]|];
    reflexivity.
Qed.

Lemma join_amp (first : jsstring) (rest : list jsstring) :
  join (lit "&") (first :: rest)
  = first ++ flat_map (fun p => lit "&" ++ p) rest.
Proof.
  revert first. induction rest as [|p rest IH]; intros first.
  - simpl. now rewrite app_nil_r.
  - change (join (lit "&") (first :: p :: rest))
      with (first ++ lit "&" ++ join (lit "&") (p :: rest)).
    rewrite IH. reflexivity.
Qed.

Lemma generateAppleCalendarLink_eq (e : Event) (tz : jsstring) :
  generateAppleCalendarLink e tz
  = lit "https://www.icloud.com/calendar/event?title="
    ++ urlencode (title e)
    ++ lit "&starts=" ++ urlencode (formatDateForApple (start_local e))
    ++ lit "&ends=" ++ urlencode (formatDateForApple (end_local e))
    ++ optionalQuery e.
Proof.
  unfold generateAppleCalendarLink, URLSearchParams_toString, optionalQuery.
  rewrite linkParams_eq. cbn [map app]. rewrite !join_amp.
  cbn [flat_map]. rewrite <- !app_assoc.
  change (urlencode (lit "title")) with (lit "title").
  change (urlencode (lit "starts")) with (lit "starts").
  change (urlencode (lit "ends")) with (lit "ends").
  rewrite flat_map_concat_map, map_map, <- flat_map_concat_map.
  rewrite (flat_map_ext _
             (fun '(name, value) =>
                lit "&" ++ urlencode name ++ lit "=" ++ urlencode value))
    by (intros [name value]; reflexivity).
  reflexivity.
Qed.

Lemma scalar_values_nil (s : jsstring) : scalar_values s = [] -> s = [].
Proof.
  destruct s as [|c rest]; [reflexivity|]. intros H. exfalso.
  cbn [scalar_values] in H.
  destruct (is_high_surrogate c).
  - destruct rest as [|lo rest']; [discriminate H|].
    destruct (is_low_surrogate lo); discriminate H.
  - destruct (is_low_surrogate c); discriminate H.
Qed.

Lemma utf8_encode_nonempty (cp : N) : utf8_encode cp <> [].
Proof.
  unfold utf8_encode.
  destruct (cp <? 128)%N; [discriminate|].
  destruct (cp <? 2048)%N; [discriminate|].
  destruct (cp <? 65536)%N; discriminate.
Qed.

Lemma urlencode_byte_nonempty (b : N) : urlencode_byte b <> [].
Proof.
  unfold urlencode_byte.
  destruct (b =? 32)%N; [discriminate|].
  destruct ((b =? 42)%N || (b =? 45)%N || (b =? 46)%N || (b =? 95)%N
            || is_alnum b); discriminate.
Qed.

Lemma flat_map_nil {A B} (f : A -> list B) (l : list A) :
  (forall x, f x <> []) -> flat_map f l = [] -> l = [].
Proof.
  intros N H. destruct l as [|x l]; [reflexivity|].
  simpl in H. apply app_eq_nil in H. destruct H as [H _]. now apply N in H.
Qed.

Lemma urlencode_nil (s : jsstring) : urlencode s = [] <-> s = [].
Proof.
  split; [|now intros ->]. unfold urlencode. intros H.
  apply flat_map_nil in H; [|apply urlencode_byte_nonempty].
  apply flat_map_nil in H; [|apply utf8_encode_nonempty].
  now apply scalar_values_nil.
Qed.

Lemma formatDateForApple_nonempty (text : jsstring) :
  formatDateForApple text <> [].
Proof.
  unfold formatDateForApple. intros H.
  apply (f_equal (@length code_unit)) in H.
  rewrite !length_app in H. simpl in H. lia.
Qed.

(** C6, amended: the link is always produced; its [starts] and [ends]
    values are never empty, and for a start or end time that the host
    cannot read they are the text [NaNNaNNaNTNaNNaN00]; the [title] value
    is empty exactly when the title is the empty text. *)
Theorem generateAppleCalendarLink_total (e : Event) (tz : jsstring) :
  generateAppleCalendarLink e tz
  = lit "https://www.icloud.com/calendar/event?title="
    ++ urlencode (title e)
    ++ lit "&starts=" ++ urlencode (formatDateForApple (start_local e))
    ++ lit "&ends=" ++ urlencode (formatDateForApple (end_local e))
    ++ optionalQuery e
  /\ urlencode (formatDateForApple (start_local e)) <> []
  /\ urlencode (formatDateForApple (end_local e)) <> []
  /\ (Date_parse (start_local e) = None ->
      urlencode (formatDateForApple (start_local e))
      = lit "NaNNaNNaNTNaNNaN00")
  /\ (Date_parse (end_local e) = None ->
      urlencode (formatDateForApple (end_local e))
      = lit "NaNNaNNaNTNaNNaN00")
  /\ (urlencode (title e) = [] <-> title e = []).
Proof.
  split; [apply generateAppleCalendarLink_eq|].
  split; [|split; [|split; [|split]]].
  - intros H. apply (proj1 (urlencode_nil _)) in H.
    now apply formatDateForApple_nonempty in H.
  - intros H. apply (proj1 (urlencode_nil _)) in H.
    now apply formatDateForApple_nonempty in H.
  - intros H. now rewrite formatDateForApple_invalid.
  - intros H. now rewrite formatDateForApple_invalid.
  - apply urlencode_nil.
Qed.

End WithHost.

(** C6, as stated, fails: for an event with an empty start time and an
    end time that is not a date, the link carries the text
    [NaNNaNNaNTNaNNaN00] in both parameters, and no empty value. *)
Lemma generateAppleCalendarLink_not_empty :
  let e := Examples.event "Gym" "" "tomorrow" in
  generateAppleCalendarLink (host := RefHost.utc) e (lit "UTC")
  = lit "https://www.icloud.com/calendar/event?title=Gym&starts=NaNNaNNaNTNaNNaN00&ends=NaNNaNNaNTNaNNaN00"
  /\ linkParams (host := RefHost.utc) e
     = [(lit "title", lit "Gym");
        (lit "starts", lit "NaNNaNNaNTNaNNaN00");
        (lit "ends", lit "NaNNaNNaNTNaNNaN00")]
  /\ ~ In (lit "starts", []) (linkParams (host := RefHost.utc) e)
  /\ ~ In (lit "ends", []) (linkParams (host := RefHost.utc) e).
Proof.
  cbv zeta. split; [vm_compute; reflexivity|].
  split; [vm_compute; reflexivity|].
  split; vm_compute; intros [H|[H|[H|[]]]]; discriminate H.
Qed.

Lemma generateAppleCalendarLink_total_witness :
  urlencode
    (formatDateForApple (host := RefHost.utc)
       (start_local (Examples.event "" "" "tomorrow")))
  = lit "NaNNaNNaNTNaNNaN00"
  /\ urlencode
       (formatDateForApple (host := RefHost.utc)
          (end_local (Examples.event "" "" "tomorrow")))
     = lit "NaNNaNNaNTNaNNaN00"
  /\ urlencode (title (Examples.event "" "" "tomorrow")) = [].
Proof.
  destruct (generateAppleCalendarLink_total (host := RefHost.utc)
              (Examples.event "" "" "tomorrow") (lit "UTC"))
    as (_ & _ & _ & S & E & T).
  split; [apply S; reflexivity|].
  split; [apply E; reflexivity | apply T; reflexivity].
Defined.

End AppleLinkProofs.

(* ===================================================================== *)
(** * Optional fields                                                     *)
(* ===================================================================== *)

Module OptionalFieldProofs.
Import JS Schema Ics AppleLink Spec IcsProofs AppleLinkProofs.

Section WithHost.
Context {host : Host}.

Lemma descriptionLines_without_empty (e : Event) :
  descriptionLines (without_empty_fields e) = descriptionLines e.
Proof.
  unfold descriptionLines, without_empty_fields. simpl.
  now destruct (description e) as [[|? ?]|].
Qed.

Lemma locationLines_without_empty (e : Event) :
  locationLines (without_empty_fields e) = locationLines e.
Proof.
  unfold locationLines, without_empty_fields. simpl.
  now destruct (location e) as [[|? ?]|].
Qed.

Lemma createVEvent_without_empty (e : Event) (index : nat) (w : World) :
  createVEvent (without_empty_fields e) index w = createVEvent e index w.
Proof.
  unfold createVEvent, without_empty_fields, bindM, ret. simpl.
  destruct (description e) as [[|? ?]|], (location e) as [[|? ?]|];
    reflexivity.
Qed.

Lemma eventBlocks_without_empty (events : list Event) :
  forall index w,
    eventBlocks index (map without_empty_fields events) w
    = eventBlocks index events w.
Proof.
  induction events as [|e events IH]; intros index w; [reflexivity|].
  cbn [map eventBlocks]. rewrite createVEvent_without_empty.
  destruct (createVEvent e index w) as [block w1]. now rewrite IH.
Qed.

Lemma generateICS_without_empty (schedule : ScheduleResponse) (w : World) :
  generateICS
    {| timezone := timezone schedule;
       events := map without_empty_fields (events schedule) |} w
  = generateICS schedule w.
Proof.
  unfold generateICS, bindM. rewrite !documentLines_run.
  cbn [events]. now rewrite eventBlocks_without_empty.
Qed.

Lemma optionalParams_without_empty (e : Event) :
  optionalParams (without_empty_fields e) = optionalParams e.
Proof.
  unfold optionalParams, without_empty_fields. simpl.
  now destruct (description e) as [[|? ?]|], (location e) as [[|? ?]|].
Qed.

Lemma link_without_empty (e : Event) (tz : jsstring) :
  generateAppleCalendarLink (without_empty_fields e) tz
  = generateAppleCalendarLink e tz.
Proof.
  rewrite !generateAppleCalendarLink_eq. unfold optionalQuery.
  now rewrite optionalParams_without_empty.
Qed.

Lemma no_description_line (e : Event) (index : nat) (w : World) :
  description e = Some [] ->
  Forall (fun l => is_prefix (lit "DESCRIPTION:") l = false)
    (fst (createVEvent e index w)).
Proof.
  intros H. rewrite createVEvent_lines.
  unfold descriptionLines, locationLines. rewrite H.
  destruct (location e) as [[|? ?]|]; repeat constructor.
Qed.

Lemma no_location_line (e : Event) (index : nat) (w : World) :
  location e = Some [] ->
  Forall (fun l => is_prefix (lit "LOCATION:") l = false)
    (fst (createVEvent e index w)).
Proof.
  intros H. rewrite createVEvent_lines.
  unfold descriptionLines, locationLines. rewrite H.
  destruct (description e) as [[|? ?]|]; repeat constructor.
Qed.

Lemma no_details_param (e : Event) :
  description e = Some [] -> ~ In (lit "details") (map fst (linkParams e)).
Proof.
  intros H. rewrite linkParams_eq. unfold optionalParams. rewrite H.
  destruct (location e) as [[|? ?]|]; simpl;
    intros Hin; repeat (destruct Hin as [Hin|Hin]; [discriminate Hin|]);
    exact Hin.
Qed.

Lemma no_location_param (e : Event) :
  location e = Some [] -> ~ In (lit "location") (map fst (linkParams e)).
Proof.
  intros H. rewrite linkParams_eq. unfold optionalParams. rewrite H.
  destruct (description e) as [[|? ?]|]; simpl;
    intros Hin; repeat (destruct Hin as [Hin|Hin]; [discriminate Hin|]);
    exact Hin.
Qed.

(** C9: an optional field that is the empty text is treated as an absent
    one: the event block, the calendar document and the link are those of
    the event without the field; with an empty description no line of the
    block starts with [DESCRIPTION:] and the link has no [details]
    parameter, and with an empty location no line starts with [LOCATION:]
    and the link has no [location] parameter. *)
Theorem empty_optional_fields_omitted (e : Event) (index : nat) (w : World)
    (tz : jsstring) :
  (createVEvent e index w = createVEvent (without_empty_fields e) index w
   /\ generateAppleCalendarLink e tz
      = generateAppleCalendarLink (without_empty_fields e) tz
   /\ forall (schedule : ScheduleResponse) (w' : World),
        generateICS schedule w'
        = generateICS
            {| timezone := timezone schedule;
               events := map without_empty_fields (events schedule) |} w')
  /\ (description e = Some [] ->
      Forall (fun l => is_prefix (lit "DESCRIPTION:") l = false)
        (fst (createVEvent e index w))
      /\ ~ In (lit "details") (map fst (linkParams e)))
  /\ (location e = Some [] ->
      Forall (fun l => is_prefix (lit "LOCATION:") l = false)
        (fst (createVEvent e index w))
      /\ ~ In (lit "location") (map fst (linkParams e))).
Proof.
  split; [split; [|split]|split].
  - symmetry. apply createVEvent_without_empty.
  - symmetry. apply link_without_empty.
  - intros schedule w'. symmetry. apply generateICS_without_empty.
  - intros H. split; [now apply no_description_line
                     | now apply no_details_param].
  - intros H. split; [now apply no_location_line
                     | now apply no_location_param].
Qed.

End WithHost.

Lemma empty_optional_fields_omitted_witness :
  let e := {| title := lit "Gym";
              start_local := lit "2026-02-09T07:00";
              end_local := lit "2026-02-09T08:00";
              description := Some [];
              location := Some [] |} in
  let w := RefHost.ticking 1770620400000 in
  (Forall (fun l => is_prefix (lit "DESCRIPTION:") l = false)
     (fst (createVEvent (host := RefHost.utc) e 0 w))
   /\ ~ In (lit "details") (map fst (linkParams (host := RefHost.utc) e)))
  /\ (Forall (fun l => is_prefix (lit "LOCATION:") l = false)
        (fst (createVEvent (host := RefHost.utc) e 0 w))
      /\ ~ In (lit "location")
             (map fst (linkParams (host := RefHost.utc) e))).
Proof.
  cbv zeta.
  split;
    apply (empty_optional_fields_omitted (host := RefHost.utc));
    try exact []; reflexivity.
Defined.

End OptionalFieldProofs.

(* ===================================================================== *)
(** * The program on sample data                                          *)
(* ===================================================================== *)

Module Checks.
Import JS Schema Ics AppleLink Reader Spec Examples.

(** The calendar arithmetic of the host model is its own inverse on the
    days tried, every 37th day from 1770 to 2175. *)
Example civil_days_roundtrip :
  all_days 4000 (-73000) 37
    (fun days =>
       let '(y, m, d) := civil_from_days days in
       (days_from_civil y m d =? days)%Z)
  = true.
Proof. vm_compute. reflexivity. Qed.

Example epoch_is_1970 : civil_from_days 0 = (1970, 1, 1)%Z.
Proof. reflexivity. Qed.

Example leap_day_2024 : civil_from_days 19782 = (2024, 2, 29)%Z.
Proof. reflexivity. Qed.

(** A start time read five hours behind UTC is written in UTC. *)
Example formatDateForICS_new_york :
  formatDateForICS (host := RefHost.new_york_winter) (lit "2026-02-09T07:00")
  = lit "20260209T120000Z".
Proof. vm_compute. reflexivity. Qed.

(** The link keeps the local wall-clock time. *)
Example formatDateForApple_new_york :
  formatDateForApple (host := RefHost.new_york_winter)
    (lit "2026-02-09T07:00")
  = lit "20260209T070000".
Proof. vm_compute. reflexivity. Qed.

Example generateICS_gym :
  fst (generateICS (host := RefHost.new_york_winter)
         {| timezone := lit "America/New_York"; events := [gym] |}
         (RefHost.ticking 1770638400000))
  = join CRLF
      [lit "BEGIN:VCALENDAR"; lit "VERSION:2.0";
       lit "PRODID:-//Chat to Calendar//EN"; lit "CALSCALE:GREGORIAN";
       lit "METHOD:PUBLISH"; lit "X-WR-TIMEZONE:America/New_York";
       lit "BEGIN:VEVENT";
       lit "UID:1770638400000-Gym20260209T07000@chat-to-calendar";
       lit "DTSTAMP:20260209T120000Z";
       lit "DTSTART:20260209T120000Z";
       lit "DTEND:20260209T130000Z";
       lit "SUMMARY:Gym";
       lit "END:VEVENT"; lit "END:VCALENDAR"].
Proof. vm_compute. reflexivity. Qed.

Example validateSchedule_touching :
  validateSchedule (host := RefHost.utc)
    {| timezone := lit "UTC"; events := [gym; yoga] |}
  = Ok {| isValid := true; errors := [] |}.
Proof. vm_compute. reflexivity. Qed.

Example validateSchedule_overlapping :
  validateSchedule (host := RefHost.utc)
    {| timezone := lit "UTC"; events := [run; yoga] |}
  = Ok {| isValid := false;
          errors := [lit "Events overlap: " ++ [QUOTE] ++ lit "Run"
                     ++ [QUOTE] ++ lit " and " ++ [QUOTE] ++ lit "Yoga"
                     ++ [QUOTE]] |}.
Proof. vm_compute. reflexivity. Qed.

Example escapeICSText_title :
  escapeICSText
    (lit "Meeting; Q1, " ++ [QUOTE] ++ lit "Review" ++ [QUOTE] ++ [LF]
     ++ lit "Follow-up")
  = lit "Meeting\; Q1\, " ++ [QUOTE] ++ lit "Review" ++ [QUOTE]
    ++ lit "\nFollow-up".
Proof. vm_compute. reflexivity. Qed.

Example foldLine_long_line :
  foldLine (lit "SUMMARY:" ++ repeat 120%N 150)
  = lit "SUMMARY:" ++ repeat 120%N 67 ++ CRLF ++ [SP] ++ repeat 120%N 74
    ++ CRLF ++ [SP] ++ repeat 120%N 9.
Proof. vm_compute. reflexivity. Qed.

Example generateAppleCalendarLink_gym :
  generateAppleCalendarLink (host := RefHost.new_york_winter)
    {| title := lit "Team sync & review";
       start_local := lit "2026-02-09T07:00";
       end_local := lit "2026-02-09T08:00";
       description := Some (lit "Room 4/B");
       location := Some [] |}
    (lit "America/New_York")
  = lit "https://www.icloud.com/calendar/event?title=Team+sync+%26+review&starts=20260209T070000&ends=20260209T080000&details=Room+4%2FB".
Proof. vm_compute. reflexivity. Qed.

End Checks.

(* ===================================================================== *)
(** * More on the validator                                               *)
(* ===================================================================== *)

Module ValidatorProofs.
Import JS Schema Spec Notions SchemaProofs.

Section WithHost.
Context {host : Host}.

(** ** What [validateSchedule] returns *)

Lemma validateSchedule_run (schedule : ScheduleResponse) :
  exists messages,
    validateSchedule schedule
    = Ok {| isValid :=
              length (timezoneErrors schedule
                      ++ timingErrors (events schedule) ++ messages) =? 0;
            errors := timezoneErrors schedule
                      ++ timingErrors (events schedule) ++ messages |}
    /\ Forall2 (names_pair (events schedule))
         (overlapPairs (events schedule)) messages.
Proof.
  set (evs := events schedule).
  destruct (overlap_messages_loop evs (overlapPairs evs)
              (timezoneErrors schedule ++ timingErrors evs))
    as (messages & E & F).
  { intros i j H. apply in_overlapPairs in H. lia. }
  exists messages. split; [|exact F].
  unfold validateSchedule. fold evs.
  rewrite findOverlappingEvents_eq. simpl.
  unfold forEach. rewrite timing_loop.
  unfold timezoneErrors, timingErrors in *.
  destruct (0 <? length (overlapPairs evs)) eqn:N.
  - rewrite E. simpl. now rewrite <- !app_assoc.
  - apply Nat.ltb_ge in N.
    assert (Z : overlapPairs evs = []) by (apply length_zero_iff_nil; lia).
    rewrite Z in F. inversion F; subst. simpl.
    now rewrite !app_nil_r.
Qed.

Lemma timingErrors_from (events : list Event) :
  forall index,
    length
      (flat_map
         (fun '(index, event) =>
            if isValidEventTiming event then []
            else [timingError index event])
         (combine (seq index (length events)) events))
    = invalidCount events.
Proof.
  unfold invalidCount.
  induction events as [|e events IH]; intros index; [reflexivity|].
  simpl. rewrite length_app, IH.
  now destruct (isValidEventTiming e).
Qed.

Lemma timingErrors_length (events : list Event) :
  length (timingErrors events) = invalidCount events.
Proof. apply timingErrors_from. Qed.

Lemma invalidCount_zero (events : list Event) :
  invalidCount events = 0
  <-> Forall (fun e => isValidEventTiming e = true) events.
Proof.
  unfold invalidCount. induction events as [|e events IH]; simpl.
  - split; [constructor | reflexivity].
  - destruct (isValidEventTiming e) eqn:V; simpl.
    + rewrite IH. split; [now constructor | now inversion 1].
    + split; [discriminate|]. inversion 1; congruence.
Qed.

Lemma overlapPairs_nil (events : list Event) :
  overlapPairs events = [] <-> overlap_free events.
Proof.
  split.
  - intros E i j a b L A B.
    destruct (eventsOverlap a b) eqn:O; [|reflexivity].
    assert (H : In (i, j) (overlapPairs events)).
    { apply in_overlapPairs. split.
      - split; [exact L|]. apply nth_error_Some. now rewrite B.
      - unfold overlap_at. now rewrite A, B. }
    rewrite E in H. destruct H.
  - intros F. destruct (overlapPairs events) as [|[i j] rest] eqn:E;
      [reflexivity|].
    assert (H : In (i, j) (overlapPairs events)) by (rewrite E; now left).
    apply in_overlapPairs in H. destruct H as [[L Lj] O].
    unfold overlap_at in O.
    destruct (nth_error events i) as [a|] eqn:A; [|discriminate].
    destruct (nth_error events j) as [b|] eqn:B; [|discriminate].
    rewrite (F i j a b L A B) in O. discriminate.
Qed.

Lemma timezoneErrors_length (schedule : ScheduleResponse) :
  length (timezoneErrors schedule)
  = match timezone schedule with [] => 1 | _ :: _ => 0 end.
Proof. unfold timezoneErrors. now destruct (timezone schedule). Qed.

(** X1: the schedule is reported valid exactly when it has a timezone,
    every event ends strictly after it starts, and no two events
    overlap. *)
Theorem validateSchedule_valid_iff (schedule : ScheduleResponse) :
  exists result,
    validateSchedule schedule = Ok result
    /\ (isValid result = true
        <-> timezone schedule <> []
            /\ Forall (fun e => isValidEventTiming e = true)
                 (events schedule)
            /\ overlap_free (events schedule)).
Proof.
  destruct (validateSchedule_run schedule) as (messages & E & F).
  eexists. split; [exact E|]. cbn [isValid].
  rewrite Nat.eqb_eq, !length_app, timezoneErrors_length,
    timingErrors_length.
  rewrite <- (Forall2_length F), <- invalidCount_zero, <- overlapPairs_nil.
  rewrite <- (length_zero_iff_nil (overlapPairs (events schedule))).
  destruct (timezone schedule); split.
  - lia.
  - intros [H _]. now destruct H.
  - intros H. repeat split; try lia. discriminate.
  - lia.
Qed.

(** ** How many errors *)

Lemma pairsFrom_length (events : list Event) (i : nat) :
  length (pairsFrom events i) <= length events - (i + 1).
Proof.
  unfold pairsFrom. rewrite length_map.
  etransitivity; [apply filter_length_le|]. now rewrite length_seq.
Qed.

Lemma overlapPairs_length_from (events : list Event) :
  forall count start,
    start + count <= length events ->
    2 * length (flat_map (pairsFrom events) (seq start count))
    + count * (2 * start + count + 1)
    <= 2 * count * length events.
Proof.
  induction count as [|count IH]; intros start H; [simpl; lia|].
  cbn [seq flat_map]. rewrite length_app.
  pose proof (pairsFrom_length events start).
  specialize (IH (S start) ltac:(lia)). nia.
Qed.

Lemma overlapPairs_length (events : list Event) :
  2 * length (overlapPairs events) <= length events * (length events - 1).
Proof.
  pose proof (overlapPairs_length_from events (length events) 0
                ltac:(lia)) as H.
  unfold overlapPairs. nia.
Qed.

Lemma invalidCount_le (events : list Event) :
  invalidCount events <= length events.
Proof. apply filter_length_le. Qed.

(** X2: the number of errors is one for a missing timezone, plus the
    number of events with a timing that is not valid, plus the number of
    overlapping pairs; for [n] events there are at most [n (n - 1) / 2]
    pairs, so at most [1 + n + n (n - 1) / 2] errors. *)
Theorem validateSchedule_error_count (schedule : ScheduleResponse) :
  exists result pairs,
    validateSchedule schedule = Ok result
    /\ findOverlappingEvents (events schedule) = Ok pairs
    /\ length (errors result)
       = (match timezone schedule with [] => 1 | _ :: _ => 0 end)
         + invalidCount (events schedule) + length pairs
    /\ 2 * length pairs
       <= length (events schedule) * (length (events schedule) - 1)
    /\ 2 * length (errors result)
       <= 2 + 2 * length (events schedule)
          + length (events schedule) * (length (events schedule) - 1).
Proof.
  destruct (validateSchedule_run schedule) as (messages & E & F).
  eexists. exists (overlapPairs (events schedule)).
  split; [exact E|]. split; [apply findOverlappingEvents_eq|].
  cbn [errors].
  rewrite !length_app, timezoneErrors_length, timingErrors_length,
    <- (Forall2_length F).
  pose proof (overlapPairs_length (events schedule)).
  pose proof (invalidCount_le (events schedule)).
  destruct (timezone schedule); repeat split; lia.
Qed.

(** ** Dates that cannot be read *)

Lemma unreadable_no_overlap (a b : Event) :
  unreadable a -> eventsOverlap a b = false /\ eventsOverlap b a = false.
Proof.
  assert (H : unreadable a -> eventsOverlap a b = false).
  { unfold unreadable, startOf, endOf, eventsOverlap. intros [H|H];
      rewrite H; simpl; [reflexivity|].
    destruct (Date_parse (start_local b));
      [apply andb_false_r | apply andb_false_r]. }
  intros U. split; [|rewrite eventsOverlap_sym]; now apply H.
Qed.

Lemma unreadable_invalid (e : Event) :
  unreadable e -> isValidEventTiming e = false.
Proof.
  unfold unreadable, startOf, endOf, isValidEventTiming, date_gt, date_lt.
  intros [H|H]; rewrite H; [reflexivity|].
  now destruct (Date_parse (start_local e)).
Qed.

Lemma in_timingErrors_from (events : list Event) :
  forall index i e,
    nth_error events i = Some e ->
    isValidEventTiming e = false ->
    In (timingError (index + i) e)
      (flat_map
         (fun '(index, event) =>
            if isValidEventTiming event then []
            else [timingError index event])
         (combine (seq index (length events)) events)).
Proof.
  induction events as [|x events IH]; intros index i e H V.
  - destruct i; discriminate H.
  - cbn [length seq combine flat_map]. apply in_or_app.
    destruct i as [|i].
    + injection H as ->. rewrite V, Nat.add_0_r. left. now left.
    + right. replace (index + S i) with (S index + i) by lia.
      now apply IH.
Qed.

(** X3: an event with a start or end that cannot be read is never part
    of an overlapping pair, with any event and in either order; it is
    reported once, by its timing error. *)
Theorem unreadable_event_reported_once (schedule : ScheduleResponse)
    (i : nat) (e : Event) :
  nth_error (events schedule) i = Some e ->
  unreadable e ->
  exists result pairs,
    validateSchedule schedule = Ok result
    /\ findOverlappingEvents (events schedule) = Ok pairs
    /\ isValid result = false
    /\ In (timingError i e) (errors result)
    /\ (forall j, ~ reported pairs i j)
    /\ (forall other,
          eventsOverlap e other = false /\ eventsOverlap other e = false).
Proof.
  intros H U.
  destruct (validateSchedule_run schedule) as (messages & E & F).
  eexists. exists (overlapPairs (events schedule)).
  split; [exact E|]. split; [apply findOverlappingEvents_eq|].
  assert (T : In (timingError i e) (timingErrors (events schedule))).
  { apply (in_timingErrors_from (events schedule) 0 i e H).
    now apply unreadable_invalid. }
  cbn [isValid errors].
  split; [|split; [|split; [|intros other;
                              now apply unreadable_no_overlap]]].
  - apply Nat.eqb_neq. intros Z. apply length_zero_iff_nil in Z.
    apply app_eq_nil in Z. destruct Z as [_ Z].
    apply app_eq_nil in Z. destruct Z as [Z _].
    rewrite Z in T. destruct T.
  - apply in_or_app. right. apply in_or_app. now left.
  - intros j R. apply reported_overlapPairs in R. destruct R as [_ O].
    unfold overlap_at in O. rewrite H in O.
    destruct (nth_error (events schedule) j) as [b|]; [|discriminate].
    destruct (unreadable_no_overlap e b U) as [O' _]. congruence.
Qed.

(** ** Events in chronological order *)

Lemma date_lt_false_ge (a b : Date) (x y : Z) :
  a = Some x -> b = Some y -> (y <= x)%Z -> date_lt a b = false.
Proof. intros -> -> H. simpl. now apply Z.ltb_ge. Qed.

Lemma chain_ends_by_start (a : Event) (rest : list Event) :
  Sorted ends_by_start (a :: rest) ->
  Forall well_ordered rest ->
  Forall (ends_by_start a) rest.
Proof.
  revert a. induction rest as [|b rest IH]; intros a S W; [constructor|].
  apply Sorted_inv in S. destruct S as [S Hd].
  apply HdRel_inv in Hd. inversion W as [|? ? Wb W']; subst.
  constructor; [exact Hd|].
  specialize (IH b S W').
  eapply Forall_impl; [|exact IH].
  intros c (x & y & Eb & Sc & L).
  destruct Hd as (x1 & y1 & Ea & Sb & L1).
  destruct Wb as (x2 & y2 & Sb' & Eb' & L2).
  unfold startOf, endOf in *.
  exists x1, y. repeat split; try assumption.
  rewrite Sb in Sb'. injection Sb' as <-.
  rewrite Eb in Eb'. injection Eb' as <-. lia.
Qed.

Lemma chain_overlap_free (events : list Event) :
  Sorted ends_by_start events -> Forall well_ordered events ->
  overlap_free events.
Proof.
  induction events as [|e events IH]; intros S W i j a b L A B.
  - destruct i; discriminate A.
  - inversion W as [|? ? We W']; subst.
    destruct j as [|j]; [lia|]. simpl in B.
    destruct i as [|i].
    + injection A as ->.
      pose proof (chain_ends_by_start a events S W') as C.
      rewrite Forall_forall in C.
      destruct (C b (nth_error_In _ _ B)) as (x & y & Ea & Sb & Le).
      unfold eventsOverlap. unfold startOf, endOf in *.
      rewrite (date_lt_false_ge _ _ y x Sb Ea Le). apply andb_false_r.
    + simpl in A. apply Sorted_inv in S. destruct S as [S _].
      apply (IH S W' i j a b); [lia | exact A | exact B].
Qed.

(** X4: when every event starts no earlier than the one before it ends,
    and no event ends before it starts, no pair of events is reported as
    overlapping; with a timezone and events of positive duration, the
    schedule is valid. *)
Theorem chronological_schedule_valid (schedule : ScheduleResponse) :
  Sorted ends_by_start (events schedule) ->
  Forall well_ordered (events schedule) ->
  findOverlappingEvents (events schedule) = Ok []
  /\ (timezone schedule <> [] ->
      Forall (fun e => isValidEventTiming e = true) (events schedule) ->
      validateSchedule schedule = Ok {| isValid := true; errors := [] |}).
Proof.
  intros S W.
  assert (P : overlapPairs (events schedule) = []).
  { apply overlapPairs_nil. now apply chain_overlap_free. }
  split; [now rewrite findOverlappingEvents_eq, P|].
  intros TZ V.
  destruct (validateSchedule_run schedule) as (messages & E & F).
  rewrite P in F. inversion F; subst. rewrite E.
  assert (T : timingErrors (events schedule) = []).
  { apply length_zero_iff_nil. rewrite timingErrors_length.
    now apply invalidCount_zero. }
  rewrite T. unfold timezoneErrors.
  destruct (timezone schedule); [now destruct TZ | reflexivity].
Qed.

(** ** Adding events at the end *)

Lemma overlap_at_app (events more : list Event) (i j : nat) :
  i < length events -> j < length events ->
  overlap_at (events ++ more) i j = overlap_at events i j.
Proof.
  intros Hi Hj. unfold overlap_at. now rewrite !nth_error_app1.
Qed.

(** X5: events added at the end of the list leave the pairs among the
    earlier events as they were: the pairs found for the longer list
    whose second index lies in the shorter one are the pairs found for
    the shorter list. *)
Theorem findOverlappingEvents_append (events more : list Event) :
  exists pairs pairs',
    findOverlappingEvents events = Ok pairs
    /\ findOverlappingEvents (events ++ more) = Ok pairs'
    /\ (forall i j,
          In (i, j) pairs <-> In (i, j) pairs' /\ j < length events)
    /\ length pairs <= length pairs'.
Proof.
  exists (overlapPairs events), (overlapPairs (events ++ more)).
  split; [apply findOverlappingEvents_eq|].
  split; [apply findOverlappingEvents_eq|].
  assert (A : forall i j,
             In (i, j) (overlapPairs events)
             <-> In (i, j) (overlapPairs (events ++ more))
                 /\ j < length events).
  { intros i j. rewrite !in_overlapPairs, length_app. split.
    - intros [L O]. rewrite overlap_at_app by lia. repeat split; lia || auto.
    - intros [[L O] Lj]. rewrite overlap_at_app in O by lia.
      repeat split; lia || auto. }
  split; [exact A|].
  apply NoDup_incl_length.
  - apply StronglySorted_NoDup with (R := lex_lt);
      [apply lex_lt_irrefl | apply overlapPairs_sorted].
  - intros [i j] H. now apply A in H.
Qed.

(** ** The order of the events *)

Lemma filter_by_index (P : Event -> bool) (l : list Event) :
  length
    (filter
       (fun j => match nth_error l j with Some b => P b | None => false end)
       (seq 0 (length l)))
  = length (filter P l).
Proof.
  induction l as [|a l IH]; [reflexivity|].
  cbn [length seq]. rewrite <- seq_shift. cbn [filter nth_error].
  assert (T : length
                (filter
                   (fun j => match nth_error (a :: l) j with
                             | Some b => P b
                             | None => false
                             end)
                   (map S (seq 0 (length l))))
              = length (filter P l)).
  { rewrite filter_map_swap, length_map. exact IH. }
  destruct (P a); cbn [length]; now rewrite T.
Qed.

Lemma pairsFrom_first_length (x : Event) (l : list Event) :
  length (pairsFrom (x :: l) 0) = length (filter (eventsOverlap x) l).
Proof.
  unfold pairsFrom. rewrite length_map.
  change (seq (0 + 1) (length (x :: l) - (0 + 1)))
    with (seq 1 (length l - 0)).
  rewrite Nat.sub_0_r, <- seq_shift, filter_map_swap, length_map.
  apply (filter_by_index (eventsOverlap x)).
Qed.

Lemma pairsFrom_shift (x : Event) (l : list Event) (i : nat) :
  pairsFrom (x :: l) (S i) = map shift_pair (pairsFrom l i).
Proof.
  unfold pairsFrom.
  change (seq (S i + 1) (length (x :: l) - (S i + 1)))
    with (seq (S (i + 1)) (length l - (i + 1))).
  rewrite <- seq_shift, filter_map_swap, !map_map. reflexivity.
Qed.

Lemma pairs_shift (x : Event) (l : list Event) :
  forall count start,
    flat_map (pairsFrom (x :: l)) (seq (S start) count)
    = map shift_pair (flat_map (pairsFrom l) (seq start count)).
Proof.
  induction count as [|count IH]; intros start; [reflexivity|].
  cbn [seq flat_map]. now rewrite pairsFrom_shift, map_app, IH.
Qed.

(** The pairs of a list with one more event in front: the pairs of the
    new event, then the earlier pairs with their indices moved up. *)
Lemma overlapPairs_cons (x : Event) (l : list Event) :
  overlapPairs (x :: l)
  = pairsFrom (x :: l) 0 ++ map shift_pair (overlapPairs l).
Proof.
  unfold overlapPairs. cbn [length seq flat_map]. now rewrite pairs_shift.
Qed.

Lemma overlapPairs_cons_length (x : Event) (l : list Event) :
  length (overlapPairs (x :: l))
  = length (filter (eventsOverlap x) l) + length (overlapPairs l).
Proof.
  now rewrite overlapPairs_cons, length_app, length_map,
    pairsFrom_first_length.
Qed.

Lemma filter_length_Permutation {A} (f : A -> bool) (l l' : list A) :
  Permutation l l' -> length (filter f l) = length (filter f l').
Proof.
  induction 1 as [|x l l' P IH|x y l|l l' l'' P1 IH1 P2 IH2]; simpl.
  - reflexivity.
  - destruct (f x); simpl; now rewrite IH.
  - destruct (f x), (f y); reflexivity.
  - now rewrite IH1.
Qed.

Lemma overlapPairs_length_Permutation (l l' : list Event) :
  Permutation l l' -> length (overlapPairs l) = length (overlapPairs l').
Proof.
  induction 1 as [|x l l' P IH|x y l|l l' l'' P1 IH1 P2 IH2].
  - reflexivity.
  - rewrite !overlapPairs_cons_length, IH.
    now rewrite (filter_length_Permutation (eventsOverlap x) l l' P).
  - rewrite !overlapPairs_cons_length. cbn [filter].
    rewrite (eventsOverlap_sym y x).
    destruct (eventsOverlap x y); cbn [length]; lia.
  - now rewrite IH1.
Qed.

(** X6: putting the events of a schedule in another order changes
    neither the verdict nor the number of errors, nor the number of
    overlapping pairs. *)
Theorem validateSchedule_order_insensitive (tz : jsstring)
    (events events' : list Event) :
  Permutation events events' ->
  exists result result' pairs pairs',
    validateSchedule {| timezone := tz; events := events |} = Ok result
    /\ validateSchedule {| timezone := tz; events := events' |} = Ok result'
    /\ findOverlappingEvents events = Ok pairs
    /\ findOverlappingEvents events' = Ok pairs'
    /\ isValid result = isValid result'
    /\ length (errors result) = length (errors result')
    /\ length pairs = length pairs'.
Proof.
  intros P.
  destruct (validateSchedule_run {| timezone := tz; events := events |})
    as (m & E & F).
  destruct (validateSchedule_run {| timezone := tz; events := events' |})
    as (m' & E' & F').
  cbn [Schema.events] in *.
  assert (L : length (timezoneErrors {| timezone := tz; events := events |}
                      ++ timingErrors events ++ m)
              = length (timezoneErrors
                          {| timezone := tz; events := events' |}
                        ++ timingErrors events' ++ m')).
  { rewrite !length_app, !timezoneErrors_length, !timingErrors_length.
    rewrite <- (Forall2_length F), <- (Forall2_length F').
    rewrite (overlapPairs_length_Permutation events events' P).
    unfold invalidCount.
    now rewrite (filter_length_Permutation _ events events' P). }
  eexists. eexists. exists (overlapPairs events), (overlapPairs events').
  split; [exact E|]. split; [exact E'|].
  split; [apply findOverlappingEvents_eq|].
  split; [apply findOverlappingEvents_eq|].
  cbn [isValid errors]. rewrite L. repeat split.
  now apply overlapPairs_length_Permutation.
Qed.

End WithHost.
Section Witnesses.
Import Examples.
#[local] Existing Instance RefHost.utc.

Lemma unreadable_event_reported_once_witness :
  let bad := event "Bad" "tomorrow" "2026-02-09T08:00" in
  exists result pairs,
    validateSchedule {| timezone := lit "UTC"; events := [gym; bad] |}
    = Ok result
    /\ findOverlappingEvents [gym; bad] = Ok pairs
    /\ isValid result = false
    /\ In (timingError 1 bad) (errors result)
    /\ (forall j, ~ reported pairs 1 j).
Proof.
  cbv zeta.
  destruct (unreadable_event_reported_once
              {| timezone := lit "UTC";
                 events := [gym; event "Bad" "tomorrow" "2026-02-09T08:00"] |}
              1 (event "Bad" "tomorrow" "2026-02-09T08:00"))
    as (result & pairs & E & P & V & T & R & _).
  - reflexivity.
  - left. vm_compute. reflexivity.
  - exists result, pairs. repeat split; assumption.
Defined.

Lemma chronological_schedule_valid_witness :
  findOverlappingEvents [gym; yoga] = Ok []
  /\ validateSchedule {| timezone := lit "UTC"; events := [gym; yoga] |}
     = Ok {| isValid := true; errors := [] |}.
Proof.
  assert (G : well_ordered gym).
  { exists 1770620400000%Z, 1770624000000%Z.
    repeat split; vm_compute; (reflexivity || discriminate). }
  assert (Y : well_ordered yoga).
  { exists 1770624000000%Z, 1770627600000%Z.
    repeat split; vm_compute; (reflexivity || discriminate). }
  destruct (chronological_schedule_valid
              {| timezone := lit "UTC"; events := [gym; yoga] |})
    as [P V].
  - repeat constructor.
    exists 1770624000000%Z, 1770624000000%Z.
    repeat split; vm_compute; (reflexivity || discriminate).
  - repeat constructor; assumption.
  - split; [exact P|]. apply V.
    + discriminate.
    + repeat constructor.
Defined.

Lemma validateSchedule_order_insensitive_witness :
  exists result result',
    validateSchedule {| timezone := []; events := [gym; run; yoga] |}
    = Ok result
    /\ validateSchedule {| timezone := []; events := [yoga; gym; run] |}
       = Ok result'
    /\ isValid result = isValid result'
    /\ length (errors result) = length (errors result').
Proof.
  destruct (validateSchedule_order_insensitive []
              [gym; run; yoga] [yoga; gym; run])
    as (result & result' & _ & _ & E & E' & _ & _ & V & L & _).
  - apply Permutation_sym, (Permutation_cons_app [gym; run] [] yoga).
    apply Permutation_refl.
  - exists result, result'. repeat split; assumption.
Defined.

End Witnesses.

End ValidatorProofs.


(* ===================================================================== *)
(** * More on the calendar-file encoder                                   *)
(* ===================================================================== *)

Module EncoderProofs.
Import JS Schema Ics Reader Spec Shapes IcsProofs.

(** ** Escaped text *)

Lemma escape_unit_length (c : code_unit) :
  length (escape_unit c) = if is_reserved c then 2 else 1.
Proof.
  unfold escape_unit, is_reserved.
  destruct (c =? BACKSLASH)%N; [reflexivity|].
  destruct (c =? SEMICOLON)%N; [reflexivity|].
  destruct (c =? COMMA)%N; [reflexivity|].
  now destruct (c =? LF)%N.
Qed.

Lemma escape_unit_plain (c : code_unit) :
  is_reserved c = false -> escape_unit c = [c].
Proof.
  unfold escape_unit, is_reserved. intros H.
  apply orb_false_iff in H. destruct H as [H H4].
  apply orb_false_iff in H. destruct H as [H H3].
  apply orb_false_iff in H. destruct H as [H1 H2].
  now rewrite H1, H2, H3, H4.
Qed.

Lemma escape_unit_no_lf (c : code_unit) : no_lf (escape_unit c) = true.
Proof.
  unfold escape_unit.
  destruct (c =? BACKSLASH)%N; [reflexivity|].
  destruct (c =? SEMICOLON)%N; [reflexivity|].
  destruct (c =? COMMA)%N; [reflexivity|].
  destruct (c =? LF)%N eqn:E; [reflexivity|].
  unfold no_lf. simpl. now rewrite E.
Qed.

Lemma no_lf_app (s t : jsstring) : no_lf (s ++ t) = no_lf s && no_lf t.
Proof. apply forallb_app. Qed.

Lemma escape_no_lf (text : jsstring) : no_lf (escapeICSText text) = true.
Proof.
  rewrite escapeICSText_units.
  induction text as [|c text IH]; [reflexivity|].
  cbn [flat_map]. now rewrite no_lf_app, escape_unit_no_lf, IH.
Qed.

Lemma no_lf_In (s : jsstring) : no_lf s = true <-> ~ In LF s.
Proof.
  unfold no_lf. rewrite forallb_forall. split.
  - intros H Hin. specialize (H LF Hin). discriminate H.
  - intros H c Hin. apply negb_true_iff, N.eqb_neq. intros ->. now apply H.
Qed.

Lemma escape_length (text : jsstring) :
  length (escapeICSText text)
  = length text + length (filter is_reserved text).
Proof.
  rewrite escapeICSText_units.
  induction text as [|c text IH]; [reflexivity|].
  cbn [flat_map filter length]. rewrite length_app, escape_unit_length, IH.
  destruct (is_reserved c); cbn [length]; lia.
Qed.

Lemma escape_plain (text : jsstring) :
  Forall (fun c => is_reserved c = false) text -> escapeICSText text = text.
Proof.
  rewrite escapeICSText_units.
  induction 1 as [|c text Hc F IH]; [reflexivity|].
  cbn [flat_map]. now rewrite escape_unit_plain, IH.
Qed.

Lemma filter_nil_Forall {A} (f : A -> bool) (l : list A) :
  filter f l = [] -> Forall (fun x => f x = false) l.
Proof.
  induction l as [|x l IH]; [constructor|]. simpl.
  destruct (f x) eqn:E; [discriminate|]. intros H. constructor; auto.
Qed.

(** X7: the escaped text holds no newline; it is longer than the text by
    the number of backslashes, semicolons, commas and newlines in it, so
    at most twice as long, and it is the text itself exactly when the
    text holds none of them; escaping a text in two parts gives the two
    escaped parts. *)
Theorem escapeICSText_output (text : jsstring) :
  ~ In LF (escapeICSText text)
  /\ length (escapeICSText text)
     = length text + length (filter is_reserved text)
  /\ length (escapeICSText text) <= 2 * length text
  /\ (escapeICSText text = text
      <-> Forall (fun c => is_reserved c = false) text)
  /\ (forall more,
        escapeICSText (text ++ more)
        = escapeICSText text ++ escapeICSText more).
Proof.
  split; [apply no_lf_In, escape_no_lf|].
  split; [apply escape_length|].
  split; [|split].
  - rewrite escape_length.
    pose proof (filter_length_le is_reserved text). lia.
  - split; [|apply escape_plain].
    intros E. apply filter_nil_Forall, length_zero_iff_nil.
    pose proof (escape_length text) as L. rewrite E in L. lia.
  - intros more. apply escapeICSText_app.
Qed.

(** ** Lines without a newline *)

Lemma digit_not_lf (c : code_unit) : is_digit c = true -> (c =? LF)%N = false.
Proof.
  intros H. destruct (N.eqb_spec c LF) as [->|]; [discriminate H|reflexivity].
Qed.

Lemma alnum_not_lf (c : code_unit) : is_alnum c = true -> (c =? LF)%N = false.
Proof.
  intros H. destruct (N.eqb_spec c LF) as [->|]; [discriminate H|reflexivity].
Qed.

Lemma digits_no_lf (s : jsstring) : digits s -> no_lf s = true.
Proof.
  induction 1 as [|c s Hc F IH]; [reflexivity|].
  unfold no_lf in *. simpl. now rewrite (digit_not_lf c Hc), IH.
Qed.

Lemma String_of_Z_no_lf (z : Z) : no_lf (String_of_Z z) = true.
Proof.
  destruct (String_of_Z_shape z) as [(d & -> & D & _)|(d & -> & D & _)].
  - now apply digits_no_lf.
  - change (no_lf (45%N :: d)) with (no_lf d). now apply digits_no_lf.
Qed.

Lemma String_of_num_no_lf (x : jsnum) : no_lf (String_of_num x) = true.
Proof. destruct x; [apply String_of_Z_no_lf | reflexivity]. Qed.

Lemma padStart0_no_lf (n : nat) (s : jsstring) :
  no_lf s = true -> no_lf (padStart0 n s) = true.
Proof.
  intros H. unfold padStart0. rewrite no_lf_app, H, andb_true_r.
  induction (n - length s) as [|k IH]; [reflexivity | exact IH].
Qed.

Lemma filter_alnum_no_lf (s : jsstring) : no_lf (filter is_alnum s) = true.
Proof.
  induction s as [|c s IH]; [reflexivity|]. simpl.
  destruct (is_alnum c) eqn:E; [|exact IH].
  unfold no_lf in *. simpl. now rewrite (alnum_not_lf c E), IH.
Qed.

Lemma generateUID_no_lf (e : Event) (index : nat) (w : World) :
  no_lf (fst (generateUID e index w)) = true.
Proof.
  rewrite generateUID_eq, !no_lf_app. unfold uidHash.
  now rewrite String_of_Z_no_lf, filter_alnum_no_lf.
Qed.

Section WithHost.
Context {host : Host}.

Lemma formatDateForICS_no_lf (text : jsstring) :
  no_lf (formatDateForICS text) = true.
Proof.
  unfold formatDateForICS. rewrite !no_lf_app.
  rewrite !padStart0_no_lf by apply String_of_num_no_lf.
  now rewrite String_of_num_no_lf.
Qed.

Lemma line_ok_lit (name : string) (value : jsstring) :
  line_ok (lit name) -> no_lf value = true -> line_ok (lit name ++ value).
Proof.
  intros [N S] V. split.
  - now rewrite no_lf_app, N, V.
  - destruct (lit name); [discriminate S | exact S].
Qed.

Lemma createVEvent_lines_ok (e : Event) (index : nat) (w : World) :
  Forall line_ok (fst (createVEvent e index w)).
Proof.
  rewrite createVEvent_lines. unfold descriptionLines, locationLines.
  apply Forall_app; split; [|apply Forall_app; split;
                              [|apply Forall_app; split]].
  - repeat constructor; try reflexivity.
    + apply line_ok_lit; [now split | apply generateUID_no_lf].
    + apply line_ok_lit; [now split | apply formatDateForICS_no_lf].
    + apply line_ok_lit; [now split | apply formatDateForICS_no_lf].
    + apply line_ok_lit; [now split | apply formatDateForICS_no_lf].
    + apply line_ok_lit; [now split | apply escape_no_lf].
  - destruct (description e) as [[|? ?]|]; repeat constructor.
    apply line_ok_lit; [now split | apply escape_no_lf].
  - destruct (location e) as [[|? ?]|]; repeat constructor.
    apply line_ok_lit; [now split | apply escape_no_lf].
  - repeat constructor; reflexivity.
Qed.

Lemma eventBlocks_lines_ok (events : list Event) :
  forall index w, Forall line_ok (fst (eventBlocks index events w)).
Proof.
  induction events as [|e events IH]; intros index w; [constructor|].
  cbn [eventBlocks].
  pose proof (createVEvent_lines_ok e index w) as B.
  destruct (createVEvent e index w) as [block w1].
  specialize (IH (S index) w1).
  destruct (eventBlocks (S index) events w1) as [blocks w2].
  apply Forall_app. now split.
Qed.

Lemma documentLines_ok (schedule : ScheduleResponse) (w : World) :
  no_lf (timezone schedule) = true ->
  Forall line_ok (fst (documentLines schedule w)).
Proof.
  intros T. rewrite documentLines_eq. unfold headerLines.
  apply Forall_app; split; [|apply Forall_app; split].
  - repeat constructor; try reflexivity.
    apply line_ok_lit; [now split | exact T].
  - apply eventBlocks_lines_ok.
  - repeat constructor; reflexivity.
Qed.

End WithHost.

(** ** Reading the document back *)

Lemma no_lf_cons (c : code_unit) (s : jsstring) :
  no_lf (c :: s) = true -> (c =? LF)%N = false /\ no_lf s = true.
Proof.
  unfold no_lf. simpl. intros H. apply andb_true_iff in H.
  destruct H as [H1 H2]. split; [now apply negb_true_iff | exact H2].
Qed.

Lemma no_lf_no_mark (s : jsstring) : no_lf s = true -> has_fold_mark s = false.
Proof.
  induction s as [|a s IH]; intros H; [reflexivity|].
  apply no_lf_cons in H. destruct H as [_ H].
  rewrite has_fold_mark_eq, (IH H), orb_false_r.
  destruct s as [|b [|c r]]; try reflexivity.
  apply no_lf_cons in H. destruct H as [Hb _].
  cbn [starts_with_mark]. unfold is_mark. rewrite Hb.
  now rewrite andb_false_r.
Qed.

(** Unfolding goes through a text without newline when what follows does
    not start with a newline. *)
Lemma unfold_app_plain (s tail : jsstring) :
  no_lf s = true ->
  match tail with c :: _ => (c =? LF)%N = false | [] => True end ->
  unfoldLine (s ++ tail) = s ++ unfoldLine tail.
Proof.
  induction s as [|a s IH]; intros H T; [reflexivity|].
  apply no_lf_cons in H. destruct H as [_ H].
  change ((a :: s) ++ tail) with (a :: (s ++ tail)).
  rewrite unfoldLine_eq.
  assert (N : starts_with_mark (a :: (s ++ tail)) = false).
  { destruct s as [|b s'].
    - destruct tail as [|b [|c r]]; try reflexivity.
      cbn [app starts_with_mark]. unfold is_mark. rewrite T.
      now rewrite andb_false_r.
    - apply no_lf_cons in H. destruct H as [Hb _].
      destruct (s' ++ tail) as [|c r] eqn:E.
      + change ((b :: s') ++ tail) with (b :: (s' ++ tail)).
        now rewrite E.
      + change ((b :: s') ++ tail) with (b :: (s' ++ tail)).
        rewrite E. cbn [starts_with_mark]. unfold is_mark. rewrite Hb.
        now rewrite andb_false_r. }
  rewrite N. now rewrite IH.
Qed.

Lemma unfold_break (c : code_unit) (t : jsstring) :
  (c =? SP)%N = false ->
  unfoldLine (CR :: LF :: c :: t) = CR :: LF :: unfoldLine (c :: t).
Proof.
  intros H. rewrite unfoldLine_eq.
  cbn [starts_with_mark]. unfold is_mark. rewrite H.
  cbn [andb N.eqb CR LF Pos.eqb]. rewrite unfoldLine_eq.
  destruct t; reflexivity.
Qed.

(** A folded line: a first part and continuations, which put together
    are the line. *)
Lemma foldLine_parts (line : jsstring) :
  exists first chunks,
    foldLine line = first ++ flat_map (fun c => CR :: LF :: SP :: c) chunks
    /\ first ++ concat chunks = line
    /\ length first <= 75
    /\ Forall (fun c => 1 <= length c <= 74) chunks
    /\ (chunks <> [] -> length first = 75)
    /\ full_but_last chunks.
Proof.
  destruct (Nat.le_gt_cases (length line) 75) as [S|L].
  - exists line, []. rewrite (foldLine_short line S), !app_nil_r.
    repeat split; try assumption; try constructor. now intros [].
  - destruct (foldLine_long line L) as (chunks & E & C & F & B).
    exists (firstn 75 line), chunks.
    rewrite E, join_continuations, C, firstn_skipn.
    repeat split; try assumption.
    + rewrite length_firstn. lia.
    + intros _. rewrite length_firstn. lia.
Qed.

Lemma no_lf_firstn_skipn (s t : jsstring) :
  no_lf (s ++ t) = true -> no_lf s = true /\ no_lf t = true.
Proof. rewrite no_lf_app. apply andb_true_iff. Qed.

Lemma no_lf_concat (chunks : list jsstring) :
  no_lf (concat chunks) = true -> Forall (fun c => no_lf c = true) chunks.
Proof.
  induction chunks as [|c chunks IH]; intros H; constructor;
    simpl in H; apply no_lf_firstn_skipn in H; [apply H | apply IH, H].
Qed.

Lemma unfold_parts_then (chunks : list jsstring) :
  Forall (fun c => no_lf c = true) chunks ->
  forall first tail,
    no_lf first = true ->
    match tail with c :: _ => (c =? LF)%N = false | [] => True end ->
    unfoldLine
      (first ++ flat_map (fun c => CR :: LF :: SP :: c) chunks ++ tail)
    = first ++ concat chunks ++ unfoldLine tail.
Proof.
  induction 1 as [|c chunks Hc F IH]; intros first tail Hf T.
  - cbn [flat_map concat app]. now apply unfold_app_plain.
  - cbn [flat_map concat]. rewrite <- !app_assoc.
    change ((CR :: LF :: SP :: c)
            ++ flat_map (fun c0 => CR :: LF :: SP :: c0) chunks ++ tail)
      with (CR :: LF :: SP
            :: (c ++ flat_map (fun c0 => CR :: LF :: SP :: c0) chunks
                ++ tail)).
    rewrite unfold_app_mark by now apply no_lf_no_mark.
    now rewrite IH.
Qed.

Lemma unfold_folded_then (line tail : jsstring) :
  no_lf line = true ->
  match tail with c :: _ => (c =? LF)%N = false | [] => True end ->
  unfoldLine (foldLine line ++ tail) = line ++ unfoldLine tail.
Proof.
  intros H T.
  destruct (foldLine_parts line) as (first & chunks & E & C & _).
  rewrite E, <- app_assoc. rewrite <- C in H.
  apply no_lf_firstn_skipn in H. destruct H as [Hf Hc].
  rewrite unfold_parts_then; try assumption.
  - now rewrite app_assoc, C.
  - now apply no_lf_concat.
Qed.

Lemma foldLine_head (c : code_unit) (s : jsstring) :
  exists t, foldLine (c :: s) = c :: t.
Proof.
  destruct (foldLine_parts (c :: s)) as (first & chunks & E & C & L & F & N & _).
  destruct first as [|a first].
  - destruct chunks as [|k chunks].
    + discriminate C.
    + specialize (N ltac:(discriminate)). discriminate N.
  - injection C as -> _. rewrite E. now eexists.
Qed.

Lemma join_cons2 (sep a b : jsstring) (rest : list jsstring) :
  join sep (a :: b :: rest) = a ++ sep ++ join sep (b :: rest).
Proof. reflexivity. Qed.

Lemma join_head (sep : jsstring) (c : code_unit) (t : jsstring)
    (rest : list jsstring) :
  exists t', join sep ((c :: t) :: rest) = c :: t'.
Proof. destruct rest; simpl; now eexists. Qed.

(** Unfolding the joined folded lines gives the joined lines. *)
Lemma unfold_document (lines : list jsstring) :
  Forall line_ok lines ->
  unfoldLine (join CRLF (map foldLine lines)) = join CRLF lines.
Proof.
  induction 1 as [|l lines [Hl Sl] F IH]; [reflexivity|].
  destruct lines as [|l2 lines].
  - cbn [map join]. apply unfold_foldLine. now apply no_lf_no_mark.
  - cbn [map]. rewrite !join_cons2.
    inversion F as [|? ? [H2 S2] F2]; subst.
    destruct l2 as [|c s]; [discriminate S2|].
    assert (R : exists t',
               join CRLF (foldLine (c :: s) :: map foldLine lines)
               = c :: t').
    { destruct (foldLine_head c s) as (t & ->). apply join_head. }
    destruct R as (t' & R). cbn [map] in IH. rewrite R in IH |- *.
    rewrite unfold_folded_then; [|exact Hl|reflexivity].
    cbn [CRLF app]. rewrite unfold_break by now apply negb_true_iff.
    now rewrite IH.
Qed.

Lemma split_lines_from_eq (a : code_unit) (rest current : jsstring) :
  split_lines_from (a :: rest) current
  = match rest with
    | b :: rest' =>
      if (a =? CR)%N && (b =? LF)%N
      then rev current :: split_lines_from rest' []
      else split_lines_from rest (a :: current)
    | [] => [rev (a :: current)]
    end.
Proof. destruct rest; reflexivity. Qed.

Lemma split_plain (l : jsstring) :
  no_lf l = true ->
  forall current, split_lines_from l current = [rev current ++ l].
Proof.
  induction l as [|a l IH]; intros H current.
  - simpl. now rewrite app_nil_r.
  - apply no_lf_cons in H. destruct H as [_ H].
    destruct l as [|b l'].
    + simpl. reflexivity.
    + pose proof H as H'. apply no_lf_cons in H'. destruct H' as [Hb _].
      rewrite split_lines_from_eq, Hb, andb_false_r.
      rewrite (IH H). cbn [rev]. now rewrite <- app_assoc.
Qed.

Lemma split_break (l : jsstring) :
  no_lf l = true ->
  forall current t,
    split_lines_from (l ++ CR :: LF :: t) current
    = (rev current ++ l) :: split_lines_from t [].
Proof.
  induction l as [|a l IH]; intros H current t.
  - simpl. now rewrite app_nil_r.
  - apply no_lf_cons in H. destruct H as [_ H].
    change ((a :: l) ++ CR :: LF :: t) with (a :: (l ++ CR :: LF :: t)).
    assert (E : exists b r, l ++ CR :: LF :: t = b :: r
                            /\ (b =? LF)%N = false).
    { destruct l as [|b l'].
      - now exists CR, (LF :: t).
      - apply no_lf_cons in H. destruct H as [Hb _].
        now exists b, (l' ++ CR :: LF :: t). }
    destruct E as (b & r & E & Hb).
    rewrite split_lines_from_eq, E, Hb, andb_false_r, <- E.
    rewrite (IH H). cbn [rev]. now rewrite <- app_assoc.
Qed.

Lemma split_join (lines : list jsstring) :
  lines <> [] ->
  Forall (fun l => no_lf l = true) lines ->
  split_lines (join CRLF lines) = lines.
Proof.
  intros N F. unfold split_lines.
  induction F as [|l lines Hl F IH]; [now destruct N|].
  destruct lines as [|l2 lines].
  - cbn [join]. now rewrite split_plain.
  - rewrite join_cons2. cbn [CRLF app].
    rewrite split_break by exact Hl. cbn [rev app].
    now rewrite IH.
Qed.

Section Decode.
Context {host : Host}.

Lemma documentLines_nonempty (schedule : ScheduleResponse) (w : World) :
  fst (documentLines schedule w) <> [].
Proof. rewrite documentLines_eq. discriminate. Qed.

(** X8: when the timezone holds no newline, the document can be read
    back: removing every CRLF followed by a space from it and cutting
    the result at every CRLF gives exactly the lines the encoder put in,
    none of which holds a newline. *)
Theorem generateICS_reads_back (schedule : ScheduleResponse) (w : World) :
  no_lf (timezone schedule) = true ->
  split_lines (unfoldLine (fst (generateICS schedule w)))
  = fst (documentLines schedule w)
  /\ Forall (fun l => ~ In LF l) (fst (documentLines schedule w)).
Proof.
  intros T. pose proof (documentLines_ok schedule w T) as Ok.
  assert (NL : Forall (fun l => no_lf l = true)
                 (fst (documentLines schedule w))).
  { eapply Forall_impl; [|exact Ok]. now intros l [H _]. }
  split.
  - unfold generateICS, bindM, ret.
    destruct (documentLines schedule w) as [lines w'] eqn:E.
    cbn [fst] in *. rewrite unfold_document by exact Ok.
    apply split_join; [|exact NL].
    pose proof (documentLines_nonempty schedule w) as N.
    now rewrite E in N.
  - eapply Forall_impl; [|exact NL]. intros l. apply no_lf_In.
Qed.

End Decode.

(** ** Reading the fields of an event back *)

Lemma find_skip (p l : jsstring) (rest : list jsstring) :
  is_prefix p l = false ->
  find (is_prefix p) (l :: rest) = find (is_prefix p) rest.
Proof. intros H. simpl. now rewrite H. Qed.

Lemma find_hit (p l : jsstring) (rest : list jsstring) :
  is_prefix p l = true -> find (is_prefix p) (l :: rest) = Some l.
Proof. intros H. simpl. now rewrite H. Qed.

Section Fields.
Context {host : Host}.

(** X9: the text fields of an event can be read back from its block:
    unescaping what follows [SUMMARY:] gives the title, and what follows
    [DESCRIPTION:] and [LOCATION:] the description and the location,
    where the event has them and they are not empty; there is no such
    line otherwise. *)
Theorem createVEvent_fields_read_back (e : Event) (index : nat)
    (w : World) :
  readField (lit "SUMMARY:") (fst (createVEvent e index w))
  = Some (title e)
  /\ readField (lit "DESCRIPTION:") (fst (createVEvent e index w))
     = drop_empty (description e)
  /\ readField (lit "LOCATION:") (fst (createVEvent e index w))
     = drop_empty (location e).
Proof.
  rewrite createVEvent_lines. unfold readField, descriptionLines,
    locationLines, drop_empty.
  cbn [app]. split; [|split].
  - do 5 (rewrite find_skip by reflexivity).
    rewrite find_hit by reflexivity.
    change (skipn (length (lit "SUMMARY:"))
              (lit "SUMMARY:" ++ escapeICSText (title e)))
      with (escapeICSText (title e)).
    now rewrite unescape_escape.
  - do 6 (rewrite find_skip by reflexivity).
    destruct (description e) as [[|c d]|].
    + cbn [app]. destruct (location e) as [[|? ?]|]; cbn [app];
        repeat (rewrite find_skip by reflexivity); reflexivity.
    + cbn [app]. rewrite find_hit by reflexivity.
      change (skipn (length (lit "DESCRIPTION:"))
                (lit "DESCRIPTION:" ++ escapeICSText (c :: d)))
        with (escapeICSText (c :: d)).
      now rewrite unescape_escape.
    + cbn [app]. destruct (location e) as [[|? ?]|]; cbn [app];
        repeat (rewrite find_skip by reflexivity); reflexivity.
  - do 6 (rewrite find_skip by reflexivity).
    destruct (description e) as [[|c d]|];
      destruct (location e) as [[|c' l]|]; cbn [app];
      repeat (rewrite find_skip by reflexivity);
      try reflexivity;
      rewrite find_hit by reflexivity;
      change (skipn (length (lit "LOCATION:"))
                (lit "LOCATION:" ++ escapeICSText (c' :: l)))
        with (escapeICSText (c' :: l));
      now rewrite unescape_escape.
Qed.

End Fields.

(** ** The size of a folded line *)

Lemma chunks_total (chunks : list jsstring) :
  Forall (fun c => 1 <= length c <= 74) chunks ->
  full_but_last chunks ->
  chunks <> [] ->
  74 * (length chunks - 1) < length (concat chunks)
  /\ length (concat chunks) <= 74 * length chunks.
Proof.
  induction 1 as [|c chunks Hc F IH]; intros B N; [now destruct N|].
  cbn [concat length]. rewrite length_app.
  destruct chunks as [|c' chunks'].
  - simpl. lia.
  - destruct B as [L B].
    specialize (IH B ltac:(discriminate)). cbn [length] in *. lia.
Qed.

Lemma continuations_length (chunks : list jsstring) :
  length (flat_map (fun c => CR :: LF :: SP :: c) chunks)
  = 3 * length chunks + length (concat chunks).
Proof.
  induction chunks as [|c chunks IH]; [reflexivity|].
  cbn [flat_map concat length]. rewrite !length_app. cbn [length].
  rewrite IH. lia.
Qed.

(** X10: folding adds three code units for every continuation, and a
    line of [n] code units gets [(n - 2) / 74] of them: the folded line
    has [n + 3 * ((n - 2) / 74)] code units. *)
Theorem foldLine_length (line : jsstring) :
  length (foldLine line)
  = length line + 3 * ((length line - 2) / 74).
Proof.
  destruct (foldLine_parts line) as (first & chunks & E & C & L & F & N & B).
  rewrite E, length_app, continuations_length, <- C, length_app.
  assert (K : (length first + length (concat chunks) - 2) / 74
              = length chunks).
  { destruct chunks as [|c chunks'].
    - cbn [concat length]. apply Nat.div_small. lia.
    - specialize (N ltac:(discriminate)).
      destruct (chunks_total (c :: chunks') F B ltac:(discriminate))
        as [Lo Hi].
      unfold jsstring in *. symmetry.
      apply Nat.div_unique
        with (r := length first + length (concat (c :: chunks')) - 2
                   - 74 * length (c :: chunks')); lia. }
  unfold jsstring in *. rewrite K. lia.
Qed.

(** ** The lines of the document as they are written *)

Lemma join_app (sep : jsstring) (p q : list jsstring) :
  p <> [] -> q <> [] ->
  join sep (p ++ q) = join sep p ++ sep ++ join sep q.
Proof.
  intros Np Nq. induction p as [|a p IH]; [now destruct Np|].
  destruct p as [|b p'].
  - destruct q as [|c q']; [now destruct Nq|]. reflexivity.
  - change ((a :: b :: p') ++ q) with (a :: b :: (p' ++ q)).
    rewrite !join_cons2.
    change (b :: (p' ++ q)) with ((b :: p') ++ q).
    rewrite IH by discriminate. now rewrite <- !app_assoc.
Qed.

Lemma join_join (sep : jsstring) (groups : list (list jsstring)) :
  Forall (fun g => g <> []) groups ->
  join sep (map (join sep) groups) = join sep (concat groups).
Proof.
  induction 1 as [|g groups Hg F IH]; [reflexivity|].
  destruct groups as [|g' groups'].
  - cbn [map concat join]. now rewrite app_nil_r.
  - cbn [map concat]. rewrite join_cons2.
    cbn [map] in IH. rewrite IH.
    rewrite join_app; [reflexivity | exact Hg |].
    inversion F as [|? ? Hg' _]; subst.
    destruct g'; [now destruct Hg' | discriminate].
Qed.

Lemma foldLine_written (line : jsstring) :
  no_lf line = true ->
  exists parts,
    foldLine line = join CRLF parts
    /\ parts <> []
    /\ Forall (fun p => length p <= 75) parts
    /\ Forall (fun p => no_lf p = true) parts.
Proof.
  intros H.
  destruct (foldLine_parts line) as (first & chunks & E & C & L & F & _).
  exists (first :: map (cons SP) chunks).
  rewrite join_continuations. split; [exact E|].
  split; [discriminate|].
  rewrite <- C in H. apply no_lf_firstn_skipn in H. destruct H as [Hf Hc].
  apply no_lf_concat in Hc. split.
  - constructor; [exact L|]. apply Forall_map.
    eapply Forall_impl; [|exact F]. intros c Hc'.
    cbv beta in *. cbn [length]. unfold jsstring in *. lia.
  - constructor; [exact Hf|]. apply Forall_map.
    eapply Forall_impl; [|exact Hc]. intros c Hc'. exact Hc'.
Qed.

Lemma folded_lines_written (lines : list jsstring) :
  Forall (fun l => no_lf l = true) lines ->
  exists groups,
    map foldLine lines = map (join CRLF) groups
    /\ length groups = length lines
    /\ Forall (fun g => g <> []) groups
    /\ Forall (fun p => length p <= 75) (concat groups)
    /\ Forall (fun p => no_lf p = true) (concat groups).
Proof.
  induction 1 as [|l lines Hl F IH].
  - exists []. repeat split; constructor.
  - destruct IH as (groups & E & Len & N & L & P).
    destruct (foldLine_written l Hl) as (parts & El & Nl & Ll & Pl).
    exists (parts :: groups). cbn [map concat length].
    rewrite El, E, Len. repeat split.
    + now constructor.
    + apply Forall_app. now split.
    + apply Forall_app. now split.
Qed.

Section Written.
Context {host : Host}.

(** X11: when the timezone holds no newline, no line of the document as
    it is written, between one CRLF and the next, has more than 75 code
    units. *)
Theorem generateICS_line_limit (schedule : ScheduleResponse) (w : World) :
  no_lf (timezone schedule) = true ->
  Forall (fun p => length p <= 75)
    (split_lines (fst (generateICS schedule w))).
Proof.
  intros T. pose proof (documentLines_ok schedule w T) as Ok.
  assert (NL : Forall (fun l => no_lf l = true)
                 (fst (documentLines schedule w))).
  { eapply Forall_impl; [|exact Ok]. now intros l [H _]. }
  pose proof (documentLines_nonempty schedule w) as Ne.
  unfold generateICS, bindM, ret.
  destruct (documentLines schedule w) as [lines w']. cbn [fst] in *.
  destruct (folded_lines_written lines NL) as (groups & E & Len & N & L & P).
  rewrite E, join_join by exact N.
  rewrite split_join; [exact L | | exact P].
  destruct groups as [|g groups].
  - destruct lines; [now destruct Ne | discriminate Len].
  - inversion N as [|? ? Hg _]; subst.
    destruct g; [now destruct Hg | discriminate].
Qed.

End Written.

(** ** The layout of the document *)

Lemma countLines_app (line : jsstring) (a b : list jsstring) :
  countLines line (a ++ b) = countLines line a + countLines line b.
Proof. unfold countLines. now rewrite filter_app, length_app. Qed.

Section Layout.
Context {host : Host}.

Lemma createVEvent_length (e : Event) (index : nat) (w : World) :
  length (fst (createVEvent e index w)) = blockLength e.
Proof.
  rewrite createVEvent_lines. unfold blockLength.
  rewrite !length_app. cbn [length]. lia.
Qed.

Lemma createVEvent_marks (e : Event) (index : nat) (w : World) :
  countLines (lit "BEGIN:VEVENT") (fst (createVEvent e index w)) = 1
  /\ countLines (lit "END:VEVENT") (fst (createVEvent e index w)) = 1
  /\ countLines (lit "BEGIN:VCALENDAR") (fst (createVEvent e index w)) = 0
  /\ countLines (lit "END:VCALENDAR") (fst (createVEvent e index w)) = 0.
Proof.
  rewrite createVEvent_lines. unfold descriptionLines, locationLines.
  destruct (description e) as [[|? ?]|], (location e) as [[|? ?]|];
    repeat split; reflexivity.
Qed.

Lemma createVEvent_world (e : Event) (index : nat) (w : World) :
  snd (createVEvent e index w)
  = {| clock := clock w; reads := S (S (reads w)) |}.
Proof.
  unfold createVEvent, bindM, ret.
  destruct (description e) as [[|? ?]|], (location e) as [[|? ?]|];
    reflexivity.
Qed.

Lemma eventBlocks_layout (events : list Event) :
  forall index w,
    length (fst (eventBlocks index events w))
    = list_sum (map blockLength events)
    /\ countLines (lit "BEGIN:VEVENT") (fst (eventBlocks index events w))
       = length events
    /\ countLines (lit "END:VEVENT") (fst (eventBlocks index events w))
       = length events
    /\ countLines (lit "BEGIN:VCALENDAR")
         (fst (eventBlocks index events w)) = 0
    /\ countLines (lit "END:VCALENDAR")
         (fst (eventBlocks index events w)) = 0.
Proof.
  induction events as [|e events IH]; intros index w.
  - repeat split; reflexivity.
  - cbn [eventBlocks].
    pose proof (createVEvent_length e index w) as L.
    destruct (createVEvent_marks e index w) as (B & E & BC & EC).
    destruct (createVEvent e index w) as [block w1].
    destruct (IH (S index) w1) as (L' & B' & E' & BC' & EC').
    destruct (eventBlocks (S index) events w1) as [blocks w2].
    cbn [fst] in *. rewrite !countLines_app, length_app.
    unfold list_sum in *. cbn [map fold_right length].
    unfold jsstring in *. repeat split; lia.
Qed.

Lemma eventBlocks_world (events : list Event) :
  forall index w,
    snd (eventBlocks index events w)
    = {| clock := clock w; reads := reads w + 2 * length events |}.
Proof.
  induction events as [|e events IH]; intros index w.
  - cbn [eventBlocks snd length]. destruct w as [c r]. cbn [clock reads].
    f_equal. lia.
  - cbn [eventBlocks].
    pose proof (createVEvent_world e index w) as W.
    destruct (createVEvent e index w) as [block w1].
    specialize (IH (S index) w1).
    destruct (eventBlocks (S index) events w1) as [blocks w2].
    cbn [snd] in *. rewrite IH, W. cbn [clock reads length]. f_equal. lia.
Qed.

Lemma eventBlocks_uids (events : list Event) :
  forall index w,
    length (uidsOf (fst (eventBlocks index events w))) = length events
    /\ forall k e,
         nth_error events k = Some e ->
         nth_error (uidsOf (fst (eventBlocks index events w))) k
         = Some (uidAt (clock w (reads w + 2 * k)) e (index + k)).
Proof.
  induction events as [|e events IH]; intros index w.
  - split; [reflexivity|]. intros [|k] e' H; discriminate H.
  - cbn [eventBlocks].
    pose proof (createVEvent_world e index w) as W.
    pose proof (uidsOf_block e index w) as U.
    destruct (createVEvent e index w) as [block w1].
    destruct (IH (S index) w1) as [L N].
    destruct (eventBlocks (S index) events w1) as [blocks w2].
    cbn [fst snd] in *. rewrite uidsOf_app, U. cbn [app length].
    split; [now rewrite L|].
    intros [|k] e' H.
    + injection H as <-. cbn [nth_error]. rewrite generateUID_eq.
      unfold uidAt, uidHash.
      replace (reads w + 2 * 0) with (reads w) by lia.
      now replace (index + 0) with index by lia.
    + cbn [nth_error] in *. rewrite (N k e' H), W. cbn [clock reads].
      replace (S (S (reads w)) + 2 * k) with (reads w + 2 * S k) by lia.
      now replace (S index + k) with (index + S k) by lia.
Qed.

(** X12: the document has seven lines of its own and, for every event,
    seven lines and one more for each of a description and a location
    that is not empty. Whatever the texts of the events are, the line
    [BEGIN:VEVENT] and the line [END:VEVENT] occur once for every event,
    and [BEGIN:VCALENDAR] and [END:VCALENDAR] once. *)
Theorem documentLines_layout (schedule : ScheduleResponse) (w : World) :
  let lines := fst (documentLines schedule w) in
  length lines = 7 + list_sum (map blockLength (events schedule))
  /\ countLines (lit "BEGIN:VEVENT") lines = length (events schedule)
  /\ countLines (lit "END:VEVENT") lines = length (events schedule)
  /\ countLines (lit "BEGIN:VCALENDAR") lines = 1
  /\ countLines (lit "END:VCALENDAR") lines = 1.
Proof.
  cbv zeta. rewrite documentLines_eq.
  destruct (eventBlocks_layout (events schedule) 0 w)
    as (L & B & E & BC & EC).
  rewrite !countLines_app, !length_app, L, B, E, BC, EC.
  change (countLines (lit "BEGIN:VEVENT") (headerLines schedule)) with 0.
  change (countLines (lit "END:VEVENT") (headerLines schedule)) with 0.
  change (countLines (lit "BEGIN:VCALENDAR") (headerLines schedule)) with 1.
  change (countLines (lit "END:VCALENDAR") (headerLines schedule)) with 0.
  change (countLines (lit "BEGIN:VEVENT") [lit "END:VCALENDAR"]) with 0.
  change (countLines (lit "END:VEVENT") [lit "END:VCALENDAR"]) with 0.
  change (countLines (lit "BEGIN:VCALENDAR") [lit "END:VCALENDAR"]) with 0.
  change (countLines (lit "END:VCALENDAR") [lit "END:VCALENDAR"]) with 1.
  cbn [headerLines length]. repeat split; lia.
Qed.

(** X13: making the document reads the clock twice for every event and
    leaves the readings to come as they were; the identifier of the event
    at position [k] is made from the reading [2 * k] places after the
    first one. *)
Theorem generateICS_clock (schedule : ScheduleResponse) (w : World) :
  snd (generateICS schedule w)
  = {| clock := clock w;
       reads := reads w + 2 * length (events schedule) |}
  /\ length (uidsOf (fst (documentLines schedule w)))
     = length (events schedule)
  /\ forall k e,
       nth_error (events schedule) k = Some e ->
       nth_error (uidsOf (fst (documentLines schedule w))) k
       = Some (uidAt (clock w (reads w + 2 * k)) e k).
Proof.
  split.
  - unfold generateICS, bindM, ret. rewrite documentLines_run.
    apply eventBlocks_world.
  - rewrite documentLines_eq, !uidsOf_app.
    change (uidsOf (headerLines schedule)) with (@nil jsstring).
    change (uidsOf [lit "END:VCALENDAR"]) with (@nil jsstring).
    rewrite app_nil_r. cbn [app].
    apply (eventBlocks_uids (events schedule) 0 w).
Qed.

End Layout.

(** ** Identifiers and the clock *)

Lemma String_of_Z_inj (z z' : Z) : String_of_Z z = String_of_Z z' -> z = z'.
Proof.
  assert (D : forall p c s, uint_units (Pos.to_uint p) = c :: s ->
                            is_digit c = true).
  { intros p c s E. pose proof (uint_units_digits (Pos.to_uint p)) as F.
    rewrite E in F. now inversion F. }
  assert (Z0 : forall p, uint_units (Pos.to_uint p) <> lit "0").
  { intros p E. apply (DecimalPos.Unsigned.to_uint_nonzero p).
    now apply uint_units_inj. }
  destruct z as [|p|p], z' as [|p'|p']; cbn [String_of_Z Z.to_N N.to_uint];
    intros E; try reflexivity.
  - symmetry in E. now apply Z0 in E.
  - discriminate E.
  - now apply Z0 in E.
  - apply uint_units_inj, DecimalPos.Unsigned.to_uint_inj in E. congruence.
  - apply D in E. discriminate E.
  - discriminate E.
  - symmetry in E. apply D in E. discriminate E.
  - injection E as E.
    apply uint_units_inj, DecimalPos.Unsigned.to_uint_inj in E. congruence.
Qed.

(** Two identifiers that agree were made at the same clock reading. *)
Lemma uid_timestamp_inj (t1 t2 : Z) (h1 h2 : jsstring) :
  String_of_Z t1 ++ lit "-" ++ h1 ++ lit "@chat-to-calendar"
  = String_of_Z t2 ++ lit "-" ++ h2 ++ lit "@chat-to-calendar" ->
  t1 = t2.
Proof.
  intros E. apply String_of_Z_inj.
  assert (R : forall d1 d2 : jsstring,
             digits d1 -> digits d2 ->
             d1 ++ lit "-" ++ h1 ++ lit "@chat-to-calendar"
             = d2 ++ lit "-" ++ h2 ++ lit "@chat-to-calendar" ->
             d1 = d2).
  { intros d1 d2 D1 D2 H.
    apply (digits_prefix_unique d1 d2) in H;
      [| assumption | assumption | reflexivity | reflexivity].
    now destruct H as (H & _ & _). }
  destruct (String_of_Z_shape t1) as [(d1 & S1 & D1 & N1)|(d1 & S1 & D1 & N1)];
    destruct (String_of_Z_shape t2)
      as [(d2 & S2 & D2 & N2)|(d2 & S2 & D2 & N2)];
    rewrite S1, S2 in E |- *.
  - now apply (R d1 d2).
  - exfalso. destruct D1 as [|a d1 Ha D1]; [now apply N1|].
    simpl in E. injection E as -> _. discriminate Ha.
  - exfalso. destruct D2 as [|a d2 Ha D2]; [now apply N2|].
    simpl in E. injection E as <- _. discriminate Ha.
  - simpl in E. injection E as E. f_equal. now apply (R d1 d2).
Qed.

(** X14: identifiers made at two different readings of the clock differ,
    whatever the events and their positions are; when the clock gives a
    different reading for every event of a run, no identifier occurs
    twice in the document. *)
Theorem generateUID_by_clock :
  (forall (e1 e2 : Event) (i j : nat) (w1 w2 : World),
     clock w1 (reads w1) <> clock w2 (reads w2) ->
     fst (generateUID e1 i w1) <> fst (generateUID e2 j w2))
  /\ (forall (host : Host) (schedule : ScheduleResponse) (w : World),
        (forall a b,
           a < b < length (events schedule) ->
           clock w (reads w + 2 * a) <> clock w (reads w + 2 * b)) ->
        NoDup (uidsOf (fst (documentLines schedule w)))).
Proof.
  split.
  - intros e1 e2 i j w1 w2 N E. apply N.
    rewrite !generateUID_eq in E. now apply uid_timestamp_inj in E.
  - intros host schedule w C.
    destruct (eventBlocks_uids (events schedule) 0 w) as [L U].
    assert (E : uidsOf (fst (documentLines schedule w))
                = uidsOf (fst (eventBlocks 0 (events schedule) w))).
    { rewrite documentLines_eq, !uidsOf_app.
      change (uidsOf (headerLines schedule)) with (@nil jsstring).
      change (uidsOf [lit "END:VCALENDAR"]) with (@nil jsstring).
      now rewrite app_nil_r. }
    rewrite E. apply NoDup_nth_error. intros a b Ha Hab.
    rewrite L in Ha.
    destruct (nth_error (events schedule) a) as [ea|] eqn:Ea;
      [|apply nth_error_None in Ea; lia].
    rewrite (U a ea Ea) in Hab. symmetry in Hab.
    assert (Hb : b < length (events schedule)).
    { rewrite <- L. apply nth_error_Some. now rewrite Hab. }
    destruct (nth_error (events schedule) b) as [eb|] eqn:Eb;
      [|apply nth_error_None in Eb; lia].
    rewrite (U b eb Eb) in Hab. injection Hab as Hab.
    unfold uidAt, uidHash in Hab. apply uid_timestamp_inj in Hab.
    destruct (Nat.lt_trichotomy a b) as [Lt|[Eq|Gt]]; [|exact Eq|].
    + exfalso. apply (C a b); [lia | now symmetry].
    + exfalso. apply (C b a); [lia | exact Hab].
Qed.


(** ** Dates *)

Section Calendar.
Local Open Scope Z_scope.

Lemma yoe_range (doe : Z) :
  0 <= doe <= 146096 ->
  0 <= (doe - doe / 1460 + doe / 36524 - doe / 146096) / 365 <= 399.
Proof. intros H. Z.div_mod_to_equations. lia. Qed.

Lemma doy_range (doe : Z) :
  0 <= doe <= 146096 ->
  let yoe := (doe - doe / 1460 + doe / 36524 - doe / 146096) / 365 in
  0 <= doe - (365 * yoe + yoe / 4 - yoe / 100) <= 365.
Proof. intros H. cbv zeta. Z.div_mod_to_equations. lia. Qed.

Lemma mp_range (doy : Z) :
  0 <= doy <= 365 ->
  let mp := (5 * doy + 2) / 153 in
  0 <= mp <= 11 /\ 1 <= doy - (153 * mp + 2) / 5 + 1 <= 31.
Proof. intros H. cbv zeta. Z.div_mod_to_equations. lia. Qed.

(** The civil date of a day number is a date of the calendar, and it is
    the date of that day. *)
Lemma civil_round_trip (days : Z) :
  let '(y, m, d) := civil_from_days days in
  days_from_civil y m d = days /\ 1 <= m <= 12 /\ 1 <= d <= 31.
Proof.
  unfold civil_from_days.
  set (z := days + 719468).
  set (era := z / 146097).
  set (doe := z - era * 146097).
  assert (Hdoe : 0 <= doe <= 146096).
  { unfold doe, era. Z.div_mod_to_equations. lia. }
  pose proof (yoe_range doe Hdoe) as Hyoe.
  pose proof (doy_range doe Hdoe) as Hdoy. cbv zeta in Hdoy.
  set (yoe := (doe - doe / 1460 + doe / 36524 - doe / 146096) / 365) in *.
  set (doy := doe - (365 * yoe + yoe / 4 - yoe / 100)) in *.
  pose proof (mp_range doy Hdoy) as Hmp. cbv zeta in Hmp.
  set (mp := (5 * doy + 2) / 153) in *.
  set (d := doy - (153 * mp + 2) / 5 + 1) in *.
  cbv zeta. unfold days_from_civil.
  destruct (mp <? 10) eqn:Emp.
  - apply Z.ltb_lt in Emp.
    replace (mp + 3 <=? 2) with false by (symmetry; apply Z.leb_gt; lia).
    replace (2 <? mp + 3) with true by (symmetry; apply Z.ltb_lt; lia).
    replace ((yoe + era * 400 + 0) / 400) with era
      by (Z.div_mod_to_equations; lia).
    replace (mp + 3 - 3) with mp by lia.
    replace (yoe + era * 400 + 0 - era * 400) with yoe by lia.
    split; [|lia]. unfold d, doy, doe, z. lia.
  - apply Z.ltb_ge in Emp.
    replace (mp - 9 <=? 2) with true by (symmetry; apply Z.leb_le; lia).
    replace (2 <? mp - 9) with false by (symmetry; apply Z.ltb_ge; lia).
    replace ((yoe + era * 400 + 1 - 1) / 400) with era
      by (Z.div_mod_to_equations; lia).
    replace (mp - 9 + 9) with mp by lia.
    replace (yoe + era * 400 + 1 - 1 - era * 400) with yoe by lia.
    split; [|lia]. unfold d, doy, doe, z. lia.
Qed.

Lemma date_of_time (t : Z) :
  days_from_civil (YearFromTime t) (MonthFromTime t + 1) (DateFromTime t)
  = Day t
  /\ 0 <= MonthFromTime t + 1 <= 99
  /\ 0 <= DateFromTime t <= 99.
Proof.
  unfold YearFromTime, MonthFromTime, DateFromTime.
  pose proof (civil_round_trip (Day t)) as H.
  destruct (civil_from_days (Day t)) as [[y m] d].
  replace (m - 1 + 1) with m by lia. destruct H as (H & M & D).
  repeat split; (exact H || lia).
Qed.

Lemma clock_of_time (t : Z) :
  0 <= HourFromTime t <= 99
  /\ 0 <= MinFromTime t <= 99
  /\ 0 <= SecFromTime t <= 99
  /\ Day t * msPerDay + HourFromTime t * 3600000 + MinFromTime t * 60000
     = t - t mod 60000
  /\ Day t * msPerDay + HourFromTime t * 3600000 + MinFromTime t * 60000
     + SecFromTime t * 1000
     = t - t mod 1000.
Proof.
  unfold HourFromTime, MinFromTime, SecFromTime, Day, msPerDay.
  Z.div_mod_to_equations. lia.
Qed.

Lemma all_days_spec (p : Z -> bool) (count : nat) :
  forall day,
    Examples.all_days count day 1 p = true ->
    forall z, day <= z < day + Z.of_nat count -> p z = true.
Proof.
  induction count as [|count IH]; intros day H z Hz; [lia|].
  cbn [Examples.all_days] in H. apply andb_true_iff in H. destruct H as [H1 H2].
  destruct (Z.eq_dec z day) as [->|N]; [exact H1|].
  apply (IH (day + 1) H2). lia.
Qed.

Lemma two_digits (z : Z) :
  0 <= z <= 99 -> prints_as 2 z (padStart0 2 (String_of_Z z)) = true.
Proof.
  intros H.
  apply (all_days_spec
           (fun z => prints_as 2 z (padStart0 2 (String_of_Z z)))
           (Z.to_nat 100) 0).
  - vm_compute. reflexivity.
  - rewrite Z2Nat.id; lia.
Qed.

Lemma four_digits (y : Z) :
  1000 <= y <= 9999 -> prints_as 4 y (String_of_Z y) = true.
Proof.
  intros H.
  apply (all_days_spec (fun y => prints_as 4 y (String_of_Z y))
           (Z.to_nat 9000) 1000).
  - vm_compute. reflexivity.
  - rewrite Z2Nat.id; lia.
Qed.

Lemma prints_as_two (z : Z) (s : jsstring) :
  prints_as 2 z s = true ->
  exists a b,
    s = [a; b] /\ is_digit a = true /\ is_digit b = true
    /\ RefHost.number_of [a; b] 0 = Some z.
Proof.
  unfold prints_as. rewrite !andb_true_iff. intros [[L F] V].
  apply Nat.eqb_eq in L.
  destruct s as [|a [|b [|c s]]]; try discriminate L.
  exists a, b. cbn [forallb] in F. rewrite !andb_true_iff in F.
  destruct F as (A & B & _).
  destruct (RefHost.number_of [a; b] 0) as [v|]; [|discriminate V].
  apply Z.eqb_eq in V. subst v. auto.
Qed.

Lemma prints_as_four (z : Z) (s : jsstring) :
  prints_as 4 z s = true ->
  exists a b c d,
    s = [a; b; c; d]
    /\ is_digit a = true /\ is_digit b = true
    /\ is_digit c = true /\ is_digit d = true
    /\ RefHost.number_of [a; b; c; d] 0 = Some z.
Proof.
  unfold prints_as. rewrite !andb_true_iff. intros [[L F] V].
  apply Nat.eqb_eq in L.
  destruct s as [|a [|b [|c [|d [|e s]]]]]; try discriminate L.
  exists a, b, c, d. cbn [forallb] in F. rewrite !andb_true_iff in F.
  destruct F as (A & B & C & D & _).
  destruct (RefHost.number_of [a; b; c; d] 0) as [v|]; [|discriminate V].
  apply Z.eqb_eq in V. subst v. repeat split; assumption.
Qed.

(** A text put together from a year of four digits and five numbers of
    two digits is read as the instant they denote. *)
Lemma read_ics_parts (Y Mo D H Mi S : jsstring) (y mo d h mi sec : Z) :
  prints_as 4 y Y = true -> prints_as 2 mo Mo = true ->
  prints_as 2 d D = true -> prints_as 2 h H = true ->
  prints_as 2 mi Mi = true -> prints_as 2 sec S = true ->
  read_ics_datetime (Y ++ Mo ++ D ++ lit "T" ++ H ++ Mi ++ S ++ lit "Z")
  = Some (days_from_civil y mo d * msPerDay
          + h * 3600000 + mi * 60000 + sec * 1000).
Proof.
  intros PY PMo PD PH PMi PS.
  destruct (prints_as_four _ _ PY)
    as (y1 & y2 & y3 & y4 & -> & Y1 & Y2 & Y3 & Y4 & VY).
  destruct (prints_as_two _ _ PMo) as (m1 & m2 & -> & M1 & M2 & VMo).
  destruct (prints_as_two _ _ PD) as (d1 & d2 & -> & D1 & D2 & VD).
  destruct (prints_as_two _ _ PH) as (h1 & h2 & -> & H1 & H2 & VH).
  destruct (prints_as_two _ _ PMi) as (n1 & n2 & -> & N1 & N2 & VMi).
  destruct (prints_as_two _ _ PS) as (s1 & s2 & -> & S1 & S2 & VS).
  change (read_ics_datetime
            [y1; y2; y3; y4; m1; m2; d1; d2; 84%N; h1; h2; n1; n2; s1; s2;
             90%N]
          = Some (days_from_civil y mo d * msPerDay
                  + h * 3600000 + mi * 60000 + sec * 1000)).
  unfold read_ics_datetime, is_ics_datetime. cbn [forallb].
  rewrite Y1, Y2, Y3, Y4, M1, M2, D1, D2, H1, H2, N1, N2, S1, S2.
  cbn [andb N.eqb Pos.eqb].
  change (RefHost.field
            [y1; y2; y3; y4; m1; m2; d1; d2; 84%N; h1; h2; n1; n2; s1; s2;
             90%N] 0 4)
    with (RefHost.number_of [y1; y2; y3; y4] 0).
  change (RefHost.field
            [y1; y2; y3; y4; m1; m2; d1; d2; 84%N; h1; h2; n1; n2; s1; s2;
             90%N] 4 6)
    with (RefHost.number_of [m1; m2] 0).
  change (RefHost.field
            [y1; y2; y3; y4; m1; m2; d1; d2; 84%N; h1; h2; n1; n2; s1; s2;
             90%N] 6 8)
    with (RefHost.number_of [d1; d2] 0).
  change (RefHost.field
            [y1; y2; y3; y4; m1; m2; d1; d2; 84%N; h1; h2; n1; n2; s1; s2;
             90%N] 9 11)
    with (RefHost.number_of [h1; h2] 0).
  change (RefHost.field
            [y1; y2; y3; y4; m1; m2; d1; d2; 84%N; h1; h2; n1; n2; s1; s2;
             90%N] 11 13)
    with (RefHost.number_of [n1; n2] 0).
  change (RefHost.field
            [y1; y2; y3; y4; m1; m2; d1; d2; 84%N; h1; h2; n1; n2; s1; s2;
             90%N] 13 15)
    with (RefHost.number_of [s1; s2] 0).
  now rewrite VY, VMo, VD, VH, VMi, VS.
Qed.

Lemma read_apple_parts (Y Mo D H Mi : jsstring) (y mo d h mi : Z) :
  prints_as 4 y Y = true -> prints_as 2 mo Mo = true ->
  prints_as 2 d D = true -> prints_as 2 h H = true ->
  prints_as 2 mi Mi = true ->
  read_apple_datetime (Y ++ Mo ++ D ++ lit "T" ++ H ++ Mi ++ lit "00")
  = Some (days_from_civil y mo d * msPerDay + h * 3600000 + mi * 60000).
Proof.
  intros PY PMo PD PH PMi.
  destruct (prints_as_four _ _ PY)
    as (y1 & y2 & y3 & y4 & -> & Y1 & Y2 & Y3 & Y4 & VY).
  destruct (prints_as_two _ _ PMo) as (m1 & m2 & -> & M1 & M2 & VMo).
  destruct (prints_as_two _ _ PD) as (d1 & d2 & -> & D1 & D2 & VD).
  destruct (prints_as_two _ _ PH) as (h1 & h2 & -> & H1 & H2 & VH).
  destruct (prints_as_two _ _ PMi) as (n1 & n2 & -> & N1 & N2 & VMi).
  change (read_apple_datetime
            [y1; y2; y3; y4; m1; m2; d1; d2; 84%N; h1; h2; n1; n2; 48%N;
             48%N]
          = Some (days_from_civil y mo d * msPerDay
                  + h * 3600000 + mi * 60000)).
  unfold read_apple_datetime, is_apple_datetime. cbn [forallb].
  rewrite Y1, Y2, Y3, Y4, M1, M2, D1, D2, H1, H2, N1, N2.
  cbn [andb N.eqb Pos.eqb].
  change (RefHost.field
            [y1; y2; y3; y4; m1; m2; d1; d2; 84%N; h1; h2; n1; n2; 48%N;
             48%N] 0 4)
    with (RefHost.number_of [y1; y2; y3; y4] 0).
  change (RefHost.field
            [y1; y2; y3; y4; m1; m2; d1; d2; 84%N; h1; h2; n1; n2; 48%N;
             48%N] 4 6)
    with (RefHost.number_of [m1; m2] 0).
  change (RefHost.field
            [y1; y2; y3; y4; m1; m2; d1; d2; 84%N; h1; h2; n1; n2; 48%N;
             48%N] 6 8)
    with (RefHost.number_of [d1; d2] 0).
  change (RefHost.field
            [y1; y2; y3; y4; m1; m2; d1; d2; 84%N; h1; h2; n1; n2; 48%N;
             48%N] 9 11)
    with (RefHost.number_of [h1; h2] 0).
  change (RefHost.field
            [y1; y2; y3; y4; m1; m2; d1; d2; 84%N; h1; h2; n1; n2; 48%N;
             48%N] 11 13)
    with (RefHost.number_of [n1; n2] 0).
  now rewrite VY, VMo, VD, VH, VMi.
Qed.

(** Reading the digits of a printed number gives the number. *)
Lemma number_of_acc (d : Decimal.uint) :
  forall acc : positive,
    RefHost.number_of (uint_units d) (Z.pos acc)
    = Some (Z.pos (Pos.of_uint_acc d acc)).
Proof.
  induction d as [|d IH|d IH|d IH|d IH|d IH|d IH|d IH|d IH|d IH|d IH];
    intros acc; [reflexivity|..];
    cbn [uint_units RefHost.number_of Pos.of_uint_acc];
    match goal with
    | |- context [RefHost.digit_val ?c] =>
      let v := eval vm_compute in (RefHost.digit_val c) in
      change (RefHost.digit_val c) with v
    end;
    cbv beta iota; rewrite <- IH; f_equal; lia.
Qed.

Lemma number_of_units (d : Decimal.uint) :
  RefHost.number_of (uint_units d) 0 = Some (Z.of_N (Pos.of_uint d)).
Proof.
  induction d as [|d IH|d IH|d IH|d IH|d IH|d IH|d IH|d IH|d IH|d IH];
    [reflexivity|..];
    cbn [uint_units RefHost.number_of Pos.of_uint];
    match goal with
    | |- context [RefHost.digit_val ?c] =>
      let v := eval vm_compute in (RefHost.digit_val c) in
      change (RefHost.digit_val c) with v
    end;
    cbv beta iota; [exact IH|..];
    match goal with
    | |- RefHost.number_of _ ?a = _ =>
      let v := eval vm_compute in a in change a with v
    end;
    now rewrite number_of_acc.
Qed.

Lemma number_of_String (z : Z) :
  0 <= z -> RefHost.number_of (String_of_Z z) 0 = Some z.
Proof.
  destruct z as [|p|p]; intros H; [reflexivity| |lia].
  change (String_of_Z (Z.pos p)) with (uint_units (Pos.to_uint p)).
  now rewrite number_of_units, DecimalPos.Unsigned.of_to.
Qed.

Lemma digit_value_range (c : code_unit) :
  is_digit c = true -> 0 <= Z.of_N c - 48 <= 9.
Proof.
  unfold is_digit. rewrite andb_true_iff, !N.leb_le. lia.
Qed.

Lemma number_of_digit (c : code_unit) (rest : jsstring) (acc : Z) :
  is_digit c = true ->
  RefHost.number_of (c :: rest) acc
  = RefHost.number_of rest (10 * acc + (Z.of_N c - 48)).
Proof.
  intros H. cbn [RefHost.number_of]. unfold RefHost.digit_val.
  now rewrite H.
Qed.

Lemma three_digits_at_most (y : Z) :
  0 <= y <= 999 -> (length (String_of_Z y) <=? 3)%nat = true.
Proof.
  intros H.
  apply (all_days_spec (fun y => (length (String_of_Z y) <=? 3)%nat)
           (Z.to_nat 1000) 0).
  - vm_compute. reflexivity.
  - rewrite Z2Nat.id; lia.
Qed.

(** A number that prints as four digits lies between 1000 and 9999. *)
Lemma year_of_four (y : Z) :
  length (String_of_Z y) = 4%nat -> digits (String_of_Z y) ->
  1000 <= y <= 9999.
Proof.
  intros L D.
  assert (P : 0 <= y).
  { destruct y as [|p|p]; try lia.
    cbn [String_of_Z] in D. inversion D as [|? ? H _]. discriminate H. }
  pose proof (number_of_String y P) as V.
  destruct (String_of_Z y) as [|a [|b [|c [|d [|e s]]]]] eqn:E;
    try discriminate L.
  inversion D as [|? ? A D1]; subst. inversion D1 as [|? ? B D2]; subst.
  inversion D2 as [|? ? C D3]; subst. inversion D3 as [|? ? F _]; subst.
  rewrite !number_of_digit in V by assumption.
  change (Some (10 * (10 * (10 * (10 * 0 + (Z.of_N a - 48))
                             + (Z.of_N b - 48))
                       + (Z.of_N c - 48))
                + (Z.of_N d - 48))
          = Some y) in V.
  assert (V' : 10 * (10 * (10 * (10 * 0 + (Z.of_N a - 48))
                             + (Z.of_N b - 48))
                       + (Z.of_N c - 48))
               + (Z.of_N d - 48) = y) by congruence.
  apply digit_value_range in A, B, C, F.
  split; [|lia].
  destruct (Z_lt_le_dec y 1000) as [Lt|Ge]; [|exact Ge].
  pose proof (three_digits_at_most y ltac:(lia)) as T.
  rewrite E in T. discriminate T.
Qed.

Lemma is_ics_fits (s : jsstring) :
  is_ics_datetime s = true ->
  length s = 16%nat /\ digits (firstn 4 s).
Proof.
  destruct s as [|c1 [|c2 [|c3 [|c4 [|c5 [|c6 [|c7 [|c8 [|c9 [|c10 [|c11
                [|c12 [|c13 [|c14 [|c15 [|c16 [|c17 s]]]]]]]]]]]]]]]]];
    try discriminate.
  unfold is_ics_datetime. cbn [forallb]. rewrite !andb_true_iff.
  intros [[(A & B & C & D & _) _] _].
  split; [reflexivity|]. cbn [firstn]. repeat constructor; assumption.
Qed.

Lemma is_apple_fits (s : jsstring) :
  is_apple_datetime s = true ->
  length s = 15%nat /\ digits (firstn 4 s).
Proof.
  destruct s as [|c1 [|c2 [|c3 [|c4 [|c5 [|c6 [|c7 [|c8 [|c9 [|c10 [|c11
                [|c12 [|c13 [|c14 [|c15 [|c16 s]]]]]]]]]]]]]]]];
    try discriminate.
  unfold is_apple_datetime. cbn [forallb]. rewrite !andb_true_iff.
  intros [[[(A & B & C & D & _) _] _] _].
  split; [reflexivity|]. cbn [firstn]. repeat constructor; assumption.
Qed.

(** A text that starts with a printed year and goes on with [more] more
    code units, and whose first four code units are digits: when it has
    [4 + more] code units, the year has four digits. *)
Lemma year_of_text (y : Z) (rest : jsstring) (more : nat) :
  length rest = more ->
  length (String_of_Z y ++ rest) = (4 + more)%nat ->
  digits (firstn 4 (String_of_Z y ++ rest)) ->
  1000 <= y <= 9999.
Proof.
  intros R L D. rewrite length_app, R in L.
  assert (L4 : length (String_of_Z y) = 4%nat) by lia.
  apply year_of_four; [exact L4|].
  rewrite firstn_app, L4, Nat.sub_diag, firstn_O, app_nil_r in D.
  rewrite firstn_all2 in D; [exact D | unfold jsstring in *; lia].
Qed.

Lemma two_digits_length (z : Z) :
  0 <= z <= 99 -> length (padStart0 2 (String_of_Z z)) = 2%nat.
Proof.
  intros H. destruct (prints_as_two _ _ (two_digits z H)) as (a & b & E & _).
  now rewrite E.
Qed.

End Calendar.

Section Timestamps.
Context {host : Host}.
Local Open Scope Z_scope.

(** X15: for a text the host reads as an instant whose year, in UTC,
    has four digits, the timestamp [formatDateForICS] writes denotes that
    instant with its milliseconds dropped. The result has the form
    [YYYYMMDDTHHMMSSZ] for those texts only: for a year below 1000 or
    above 9999 it has the wrong number of digits, and for a text the
    host cannot read it is [NaNNaNNaNTNaNNaNNaNZ]. *)
Theorem formatDateForICS_reads_back (text : jsstring) :
  (forall t,
     Date_parse text = Some t ->
     1000 <= YearFromTime t <= 9999 ->
     read_ics_datetime (formatDateForICS text) = Some (t - t mod 1000))
  /\ (is_ics_datetime (formatDateForICS text) = true <->
      exists t, Date_parse text = Some t /\ 1000 <= YearFromTime t <= 9999)
  /\ (Date_parse text = None ->
      formatDateForICS text = lit "NaNNaNNaNTNaNNaNNaNZ").
Proof.
  assert (F : forall t,
             Date_parse text = Some t ->
             1000 <= YearFromTime t <= 9999 ->
             read_ics_datetime (formatDateForICS text)
             = Some (t - t mod 1000)).
  { intros t E Y. unfold formatDateForICS. rewrite E.
    cbn [getUTCFullYear getUTCMonth getUTCDate getUTCHours getUTCMinutes
         getUTCSeconds option_map num_add String_of_num].
    destruct (date_of_time t) as (R & Mo & D).
    destruct (clock_of_time t) as (H & Mi & S & _ & T).
    rewrite (read_ics_parts _ _ _ _ _ _
               (YearFromTime t) (MonthFromTime t + 1) (DateFromTime t)
               (HourFromTime t) (MinFromTime t) (SecFromTime t));
      try (apply two_digits; assumption);
      try (apply four_digits; assumption).
    now rewrite R, T. }
  split; [exact F|]. split; [split|].
  - intros W. destruct (Date_parse text) as [t|] eqn:E.
    + exists t. split; [reflexivity|].
      unfold formatDateForICS in W. rewrite E in W.
      cbn [getUTCFullYear getUTCMonth getUTCDate getUTCHours getUTCMinutes
           getUTCSeconds option_map num_add String_of_num] in W.
      destruct (date_of_time t) as (_ & Mo & D).
      destruct (clock_of_time t) as (H & Mi & S & _).
      apply is_ics_fits in W. destruct W as [L Dg].
      apply (year_of_text _ _ 12 ) in Dg; [exact Dg | | exact L].
      rewrite !length_app, !two_digits_length by assumption. reflexivity.
    + unfold formatDateForICS in W. rewrite E in W. discriminate W.
  - intros (t & E & Y). specialize (F t E Y).
    unfold read_ics_datetime in F.
    destruct (is_ics_datetime (formatDateForICS text));
      [reflexivity | discriminate F].
  - intros E. unfold formatDateForICS. now rewrite E.
Qed.

End Timestamps.


Section Witnesses.
Import Examples.
#[local] Existing Instance RefHost.utc.

Lemma generateICS_reads_back_witness :
  let party :=
    {| title := lit "Party; bring cake, candles";
       start_local := lit "2026-02-09T19:00";
       end_local := lit "2026-02-09T23:00";
       description :=
         Some (lit "A long evening with all the neighbours of the street and their friends, music, food and games");
       location := Some (lit "12 Main St, Springfield") |} in
  let schedule := {| timezone := lit "UTC"; events := [gym; party] |} in
  let w := RefHost.ticking 1770620400000 in
  split_lines (unfoldLine (fst (generateICS schedule w)))
  = fst (documentLines schedule w).
Proof.
  cbv zeta. apply generateICS_reads_back. reflexivity.
Defined.

Lemma generateICS_line_limit_witness :
  let schedule :=
    {| timezone := lit "UTC";
       events :=
         [event "A weekly planning meeting with the whole team, the customers and everyone else who wants to come"
            "2026-02-09T07:00" "2026-02-09T08:00"] |} in
  Forall (fun p => length p <= 75)
    (split_lines (fst (generateICS schedule (RefHost.frozen 0)))).
Proof.
  cbv zeta. apply generateICS_line_limit. reflexivity.
Defined.

Lemma generateUID_by_clock_witness :
  fst (generateUID gym 0 (RefHost.frozen 1770620400000))
  <> fst (generateUID gym 0 (RefHost.frozen 1770620400001))
  /\ NoDup
       (uidsOf
          (fst (documentLines
                  {| timezone := lit "UTC"; events := [gym; gym; gym] |}
                  (RefHost.ticking 1770620400000)))).
Proof.
  split.
  - apply (proj1 generateUID_by_clock). vm_compute. discriminate.
  - apply (proj2 generateUID_by_clock RefHost.utc).
    intros a b H. cbn [RefHost.ticking clock reads]. lia.
Defined.

Lemma formatDateForICS_reads_back_witness :
  read_ics_datetime (formatDateForICS (lit "2026-02-09T07:00:10.250"))
  = Some 1770620410000%Z
  /\ formatDateForICS (lit "tomorrow") = lit "NaNNaNNaNTNaNNaNNaNZ".
Proof.
  split.
  - apply (proj1 (formatDateForICS_reads_back
                    (lit "2026-02-09T07:00:10.250")) 1770620410250%Z).
    + reflexivity.
    + vm_compute. split; discriminate.
  - apply (proj2 (formatDateForICS_reads_back (lit "tomorrow"))).
    reflexivity.
Defined.

Lemma generateICS_clock_witness :
  nth_error
    (uidsOf
       (fst (documentLines
               {| timezone := lit "UTC"; events := [gym; yoga] |}
               (RefHost.ticking 1770620400000))))
    1
  = Some (uidAt 1770620400002 yoga 1).
Proof.
  exact (proj2 (proj2 (generateICS_clock
                         {| timezone := lit "UTC"; events := [gym; yoga] |}
                         (RefHost.ticking 1770620400000)))
           1 yoga eq_refl).
Defined.

End Witnesses.

End EncoderProofs.


(* ===================================================================== *)
(** * More on the calendar link                                           *)
(* ===================================================================== *)

Module LinkProofs.
Import JS Schema AppleLink Spec Shapes IcsProofs AppleLinkProofs
  EncoderProofs.

(** ** What the serializer leaves alone, and what it never writes *)

Lemma plain_range (c : code_unit) :
  is_plain c = true -> (45 <= c <= 122)%N.
Proof.
  unfold is_plain, is_alnum, is_digit.
  rewrite !orb_true_iff, !andb_true_iff, !N.leb_le, N.eqb_eq. lia.
Qed.

Lemma urlencode_byte_plain (c : code_unit) :
  is_plain c = true -> urlencode_byte c = [c].
Proof.
  intros H. pose proof (plain_range c H) as R. unfold urlencode_byte.
  destruct (c =? 32)%N eqn:E; [apply N.eqb_eq in E; lia|].
  unfold is_plain in H. apply orb_true_iff in H. destruct H as [H|H].
  - rewrite H. now rewrite !orb_true_r.
  - rewrite H. now rewrite ?orb_true_r, ?orb_true_l.
Qed.

Lemma urlencode_plain (s : jsstring) :
  Forall (fun c => is_plain c = true) s -> urlencode s = s.
Proof.
  unfold urlencode. induction 1 as [|c s H F IH]; [reflexivity|].
  pose proof (plain_range c H) as R.
  cbn [scalar_values].
  replace (is_high_surrogate c) with false
    by (symmetry; unfold is_high_surrogate; apply andb_false_iff; left;
        apply N.leb_gt; lia).
  replace (is_low_surrogate c) with false
    by (symmetry; unfold is_low_surrogate; apply andb_false_iff; left;
        apply N.leb_gt; lia).
  cbn [flat_map]. unfold utf8_encode at 1.
  replace (c <? 128)%N with true by (symmetry; apply N.ltb_lt; lia).
  cbn [app flat_map]. rewrite IH, urlencode_byte_plain by exact H.
  reflexivity.
Qed.

Lemma hex_digit_plain (n : N) : is_separator (hex_digit n) = false.
Proof.
  unfold hex_digit, is_separator, QUESTION, AMPERSAND, EQUALS, HASH.
  destruct (n <? 10)%N eqn:E;
    [apply N.ltb_lt in E | apply N.ltb_ge in E];
    rewrite !orb_false_iff, !N.eqb_neq; lia.
Qed.

Lemma urlencode_byte_separators (b : N) :
  Forall (fun c => is_separator c = false) (urlencode_byte b).
Proof.
  unfold urlencode_byte.
  destruct (b =? 32)%N; [repeat constructor|].
  destruct ((b =? 42)%N || (b =? 45)%N || (b =? 46)%N || (b =? 95)%N
            || is_alnum b) eqn:E.
  - constructor; [|constructor].
    unfold is_alnum, is_digit in E.
    rewrite !orb_true_iff, !andb_true_iff, !N.leb_le, !N.eqb_eq in E.
    unfold is_separator, QUESTION, AMPERSAND, EQUALS, HASH.
    rewrite !orb_false_iff, !N.eqb_neq. lia.
  - repeat constructor; apply hex_digit_plain.
Qed.

Lemma urlencode_separators (s : jsstring) :
  Forall (fun c => is_separator c = false) (urlencode s).
Proof.
  unfold urlencode.
  induction (flat_map utf8_encode (scalar_values s)) as [|b bytes IH];
    [constructor|].
  cbn [flat_map]. apply Forall_app. split;
    [apply urlencode_byte_separators | exact IH].
Qed.

Lemma occurrences_app (c : code_unit) (s t : jsstring) :
  occurrences c (s ++ t) = occurrences c s + occurrences c t.
Proof. apply count_occ_app. Qed.

Lemma occurrences_urlencode (c : code_unit) (s : jsstring) :
  is_separator c = true -> occurrences c (urlencode s) = 0.
Proof.
  intros H. apply count_occ_not_In. intros I.
  pose proof (urlencode_separators s) as F. rewrite Forall_forall in F.
  specialize (F c I). congruence.
Qed.

(** ** Dates in a link *)

Lemma digit_plain (c : code_unit) : is_digit c = true -> is_plain c = true.
Proof.
  intros H. unfold is_plain. now rewrite (is_digit_alnum c H).
Qed.

Lemma String_of_num_plain (x : jsnum) :
  Forall (fun c => is_plain c = true) (String_of_num x).
Proof.
  destruct x as [z|]; [|repeat constructor].
  destruct (String_of_Z_shape z) as [(d & E & D & _)|(d & E & D & _)];
    cbn [String_of_num]; rewrite E.
  - eapply Forall_impl; [|exact D]. apply digit_plain.
  - constructor; [reflexivity|].
    eapply Forall_impl; [|exact D]. apply digit_plain.
Qed.

Lemma padStart0_plain (n : nat) (s : jsstring) :
  Forall (fun c => is_plain c = true) s ->
  Forall (fun c => is_plain c = true) (padStart0 n s).
Proof.
  intros H. unfold padStart0. apply Forall_app. split; [|exact H].
  induction (n - length s) as [|k IH]; constructor; [reflexivity | exact IH].
Qed.

Section WithHost.
Context {host : Host}.
Local Open Scope Z_scope.

Lemma formatDateForApple_plain (text : jsstring) :
  Forall (fun c => is_plain c = true) (formatDateForApple text).
Proof.
  unfold formatDateForApple.
  apply Forall_app; split; [apply String_of_num_plain|].
  apply Forall_app; split; [apply padStart0_plain, String_of_num_plain|].
  apply Forall_app; split; [apply padStart0_plain, String_of_num_plain|].
  apply Forall_app; split; [repeat constructor|].
  apply Forall_app; split; [apply padStart0_plain, String_of_num_plain|].
  apply Forall_app; split; [apply padStart0_plain, String_of_num_plain|].
  repeat constructor.
Qed.

(** X16: for a text the host reads as an instant whose year, in local
    time, has four digits, what [formatDateForApple] writes denotes the
    local time of that instant with its seconds dropped. The result has
    the form [YYYYMMDDTHHMM00] for those texts only, and it is in every
    case made of letters, digits and [-], so that it goes into the link
    as it is. *)
Theorem formatDateForApple_reads_back (text : jsstring) :
  (forall t,
     Date_parse text = Some t ->
     1000 <= YearFromTime (LocalTime t) <= 9999 ->
     read_apple_datetime (formatDateForApple text)
     = Some (LocalTime t - LocalTime t mod 60000))
  /\ (is_apple_datetime (formatDateForApple text) = true <->
      exists t,
        Date_parse text = Some t
        /\ 1000 <= YearFromTime (LocalTime t) <= 9999)
  /\ urlencode (formatDateForApple text) = formatDateForApple text.
Proof.
  assert (F : forall t,
             Date_parse text = Some t ->
             1000 <= YearFromTime (LocalTime t) <= 9999 ->
             read_apple_datetime (formatDateForApple text)
             = Some (LocalTime t - LocalTime t mod 60000)).
  { intros t E Y. unfold formatDateForApple. rewrite E.
    cbn [getFullYear getMonth getDate getHours getMinutes option_map
         num_add String_of_num].
    destruct (date_of_time (LocalTime t)) as (R & Mo & D).
    destruct (clock_of_time (LocalTime t)) as (H & Mi & _ & T & _).
    rewrite (read_apple_parts _ _ _ _ _
               (YearFromTime (LocalTime t))
               (MonthFromTime (LocalTime t) + 1)
               (DateFromTime (LocalTime t))
               (HourFromTime (LocalTime t)) (MinFromTime (LocalTime t)));
      try (apply two_digits; assumption);
      try (apply four_digits; assumption).
    now rewrite R, T. }
  split; [exact F|]. split; [split|].
  - intros W. destruct (Date_parse text) as [t|] eqn:E.
    + exists t. split; [reflexivity|].
      unfold formatDateForApple in W. rewrite E in W.
      cbn [getFullYear getMonth getDate getHours getMinutes option_map
           num_add String_of_num] in W.
      destruct (date_of_time (LocalTime t)) as (_ & Mo & D).
      destruct (clock_of_time (LocalTime t)) as (H & Mi & _).
      apply is_apple_fits in W. destruct W as [L Dg].
      apply (year_of_text _ _ 11) in Dg; [exact Dg | | exact L].
      rewrite !length_app, !two_digits_length by assumption. reflexivity.
    + unfold formatDateForApple in W. rewrite E in W. discriminate W.
  - intros (t & E & Y). specialize (F t E Y).
    unfold read_apple_datetime in F.
    destruct (is_apple_datetime (formatDateForApple text));
      [reflexivity | discriminate F].
  - apply urlencode_plain, formatDateForApple_plain.
Qed.

(** ** The structure of a link *)

Lemma occurrences_optionalQuery (e : Event) (c : code_unit) :
  is_separator c = true ->
  occurrences c (optionalQuery e)
  = (length (optionalParams e)
     * (occurrences c (lit "&") + occurrences c (lit "=")))%nat.
Proof.
  intros H. unfold optionalQuery.
  induction (optionalParams e) as [|[name value] params IH];
    [reflexivity|].
  cbn [flat_map length]. rewrite !occurrences_app, IH.
  rewrite !occurrences_urlencode by exact H. lia.
Qed.

(** X17: whatever the texts of the event are, the link holds one [?],
    no [#], and one [&] and one [=] for every parameter but, for [&],
    the first: the title, the description and the location cannot add
    a parameter to the link or cut it short. The timezone is not used. *)
Theorem generateAppleCalendarLink_separators (e : Event)
    (tz : jsstring) :
  let link := generateAppleCalendarLink e tz in
  occurrences QUESTION link = 1%nat
  /\ occurrences HASH link = 0%nat
  /\ occurrences AMPERSAND link = (2 + length (optionalParams e))%nat
  /\ occurrences EQUALS link = (3 + length (optionalParams e))%nat
  /\ forall tz', generateAppleCalendarLink e tz' = link.
Proof.
  cbv zeta. rewrite generateAppleCalendarLink_eq.
  rewrite !occurrences_app.
  rewrite !occurrences_optionalQuery, !occurrences_urlencode by reflexivity.
  repeat match goal with
         | |- context [occurrences ?c (lit ?s)] =>
           let v := eval vm_compute in (occurrences c (lit s)) in
           change (occurrences c (lit s)) with v
         end.
  repeat split; try lia. intros tz'. apply generateAppleCalendarLink_eq.
Qed.

End WithHost.

Section Witnesses.
#[local] Existing Instance RefHost.new_york_winter.

Lemma formatDateForApple_reads_back_witness :
  read_apple_datetime (formatDateForApple (lit "2026-02-09T07:00:10"))
  = Some 1770620400000%Z.
Proof.
  rewrite (proj1 (formatDateForApple_reads_back
                    (lit "2026-02-09T07:00:10")) 1770638410000%Z).
  - vm_compute. reflexivity.
  - reflexivity.
  - vm_compute. split; discriminate.
Defined.

End Witnesses.

End LinkProofs.

(* ===================================================================== *)
(** * The schedule route                                                  *)
(* ===================================================================== *)

Module RouteProofs.
Import JS Schema Route Requests Spec SchemaProofs ValidatorProofs.

(** ** The validator on a value that is a schedule *)

Section Conformance.
Context {host : Host}.
Variable env : Env.












(** On a value that has no array of events [validateSchedule] throws. *)
Lemma validateSchedule_throws (value : JSON) (fault : Fault) :
  fault_of value = Some fault ->
  Untyped.validateSchedule env value = inl (TypeError env fault).
Proof.
  destruct value as [|b|text|s|items|members]; intros H;
    try (injection H as <-; reflexivity).
  unfold fault_of in H.
  assert (G : forall name,
             Untyped.get env (Some (JObject members)) name
             = inr (member name members)) by reflexivity.
  unfold Untyped.validateSchedule. rewrite !G. cbn [bindE].
  destruct (member (lit "events") members) as [[| | | |items|]|];
    try discriminate H; injection H as <-; reflexivity.
Qed.

Lemma fault_of_events (value : JSON) :
  events_of value = None <-> exists fault, fault_of value = Some fault.
Proof.
  destruct value as [|b|text|s|items|members]; cbn [events_of fault_of];
    try (split; [intros _; eexists; reflexivity | reflexivity]).
  destruct (member (lit "events") members) as [[| | | |items|]|];
    try (split; [intros _; eexists; reflexivity | reflexivity]).
  split; [discriminate | intros (fault & H); discriminate H].
Qed.

Lemma validateSchedule_returns_events (value : JSON)
    (validation : ValidationResult) :
  Untyped.validateSchedule env value = inr validation ->
  exists items, events_of value = Some items.
Proof.
  intros V. destruct (events_of value) as [items|] eqn:E; [now eauto|].
  apply fault_of_events in E. destruct E as (fault & F).
  rewrite (validateSchedule_throws value fault F) in V. discriminate V.
Qed.

Lemma as_event_of_event (e : Event) : as_event (of_event e) = Some e.
Proof.
  destruct e as [t s x [d|] [l|]]; reflexivity.
Qed.

Lemma as_events_of_events (es : list Event) :
  as_events (map of_event es) = Some es.
Proof.
  induction es as [|e es IH]; [reflexivity|].
  cbn [map as_events]. now rewrite as_event_of_event, IH.
Qed.

Lemma as_schedule_of_schedule (s : ScheduleResponse) :
  as_schedule (of_schedule s) = Some s.
Proof.
  destruct s as [tz es].
  change (as_schedule (of_schedule {| timezone := tz; events := es |}))
    with (match as_events (map of_event es) with
          | Some es => Some {| timezone := tz; events := es |}
          | None => None
          end).
  now rewrite as_events_of_events.
Qed.

End Conformance.


(** ** Blank messages *)

Lemma trimStart_nil (s : jsstring) :
  trimStart s = [] <-> Forall (fun c => is_white_space c = true) s.
Proof.
  induction s as [|c s IH]; cbn [trimStart].
  - split; constructor.
  - destruct (is_white_space c) eqn:E.
    + rewrite IH. split; intros H; [now constructor | now inversion H].
    + split; [discriminate|]. intros H. inversion H. congruence.
Qed.

Lemma trimStart_white (s : jsstring) :
  Forall (fun c => is_white_space c = true) (trimStart s) ->
  trimStart s = [].
Proof.
  induction s as [|c s IH]; cbn [trimStart]; [reflexivity|].
  destruct (is_white_space c) eqn:E; [exact IH|].
  intros H. inversion H. congruence.
Qed.

Lemma trim_blank (s : jsstring) :
  (length (trim s) =? 0) = true
  <-> Forall (fun c => is_white_space c = true) s.
Proof.
  unfold trim. rewrite Nat.eqb_eq, length_rev, length_zero_iff_nil.
  rewrite trimStart_nil. split; intros H.
  - apply trimStart_nil, trimStart_white.
    rewrite <- (rev_involutive (trimStart s)). now apply Forall_rev.
  - apply Forall_rev. apply trimStart_nil in H. rewrite H. constructor.
Qed.

Lemma blank_or_not (s : jsstring) :
  Forall (fun c => is_white_space c = true) s \/ not_blank s.
Proof.
  induction s as [|c s [IH|(d & I & W)]].
  - left. constructor.
  - destruct (is_white_space c) eqn:E.
    + left. now constructor.
    + right. exists c. split; [now left | exact E].
  - right. exists d. split; [now right | exact W].
Qed.

Lemma trim_not_blank (s : jsstring) :
  (length (trim s) =? 0) = false <-> not_blank s.
Proof.
  split.
  - intros H. destruct (blank_or_not s) as [B|N]; [|exact N].
    apply trim_blank in B. congruence.
  - intros (c & I & W). destruct (length (trim s) =? 0) eqn:E; [|reflexivity].
    apply trim_blank in E. rewrite Forall_forall in E.
    specialize (E c I). congruence.
Qed.

Lemma not_blank_cons (s : jsstring) :
  not_blank s -> exists c rest, s = c :: rest.
Proof.
  intros (c & I & _). destruct s as [|d rest]; [destruct I|]. now eauto.
Qed.

(** ** The paths through the handler *)

Section Paths.
Context {host : Host}.
Variable env : Env.

Lemma bindA_pure {A B} (a : A) (k : A -> Act B) :
  (x <- pure a ;; k x) = k a.
Proof. unfold bindA, pure. now destruct (k a). Qed.

Lemma bindA_effect {B} (e : Effect) (k : unit -> Act B) :
  (x <- effect e ;; k x) = (let (effects, outcome) := k tt in
                            (e :: effects, outcome)).
Proof. reflexivity. Qed.

Lemma bindA_await {A B} (a : A) (k : A -> Act B) :
  (x <- await (inr a) ;; k x) = k a.
Proof. unfold bindA, await. now destruct (k a). Qed.

Lemma POST_body_thrown (e : Thrown) :
  request_json env = inl e ->
  POST env = ([console_error], snd (catch_block e)).
Proof. intros H. unfold POST, try_block, await. now rewrite H. Qed.

Lemma POST_null :
  request_json env = inr JNull ->
  POST env
  = ([console_error], snd (catch_block (TypeError env destructure_null))).
Proof. intros H. unfold POST, try_block, await. now rewrite H. Qed.

Lemma try_block_message (b : JSON) :
  request_json env = inr b -> b <> JNull ->
  try_block env
  = (message <- pure (message_of b) ;;
     match message with
     | Some (JString ((_ :: _) as message)) =>
       if length (trim message) =? 0 then
         pure (failure 400 "Invalid request: message cannot be empty")
       else
         match OPENAI_API_KEY env with
         | Some (_ :: _) =>
           _ <- effect (completions_create message) ;;
           responseContent <- await (create_content env message) ;;
           match responseContent with
           | Some ((_ :: _) as responseContent) =>
             match JSON_parse env responseContent with
             | None =>
               _ <- effect console_error ;;
               pure (failure 500 "Failed to parse schedule response")
             | Some schedule =>
               validation <- call (Untyped.validateSchedule env schedule) ;;
               if negb (isValid validation) then
                 _ <- effect console_warn ;;
                 pure {| status := 200;
                         body := schedule_body schedule
                                   (Some (errors validation)) |}
               else
                 pure {| status := 200;
                         body := schedule_body schedule None |}
             end
           | _ => pure (failure 500 "No response from OpenAI")
           end
         | _ =>
           _ <- effect console_error ;;
           pure (failure 500
                   "Server configuration error: OpenAI API key not configured")
         end
     | _ =>
       pure (failure 400
               "Invalid request: message is required and must be a string")
     end).
Proof.
  intros H N. unfold try_block. rewrite H, bindA_await.
  destruct b; try reflexivity. now destruct N.
Qed.

(** What the handler does once the message is accepted. *)
Lemma try_block_accepted (m : jsstring) :
  accepted env m ->
  try_block env
  = (_ <- effect (completions_create m) ;;
     responseContent <- await (create_content env m) ;;
     match responseContent with
     | Some ((_ :: _) as responseContent) =>
       match JSON_parse env responseContent with
       | None =>
         _ <- effect console_error ;;
         pure (failure 500 "Failed to parse schedule response")
       | Some schedule =>
         validation <- call (Untyped.validateSchedule env schedule) ;;
         if negb (isValid validation) then
           _ <- effect console_warn ;;
           pure {| status := 200;
                   body := schedule_body schedule
                             (Some (errors validation)) |}
         else
           pure {| status := 200; body := schedule_body schedule None |}
       end
     | _ => pure (failure 500 "No response from OpenAI")
     end).
Proof.
  intros ((b & Hb & Hm) & Hn & (c & key & Hk)).
  assert (N : b <> JNull) by (intros ->; discriminate Hm).
  rewrite (try_block_message b Hb N), bindA_pure, Hm.
  destruct (not_blank_cons m Hn) as (d & rest & ->).
  apply trim_not_blank in Hn. now rewrite Hn, Hk.
Qed.

Lemma accepted_unique (m m' : jsstring) :
  accepted env m -> accepted env m' -> m = m'.
Proof.
  intros ((b & Hb & Hm) & _) ((b' & Hb' & Hm') & _).
  rewrite Hb in Hb'. injection Hb' as <-. congruence.
Qed.

Lemma POST_refused :
  refused env ->
  POST env
  = ([], failure 400
           "Invalid request: message is required and must be a string")
  \/ POST env
     = ([], failure 400 "Invalid request: message cannot be empty").
Proof.
  intros (b & Hb & N & R). unfold POST.
  rewrite (try_block_message b Hb N), bindA_pure.
  destruct (message_of b) as [[| | |[|c m]| |]|] eqn:E;
    try (left; reflexivity).
  destruct (length (trim (c :: m)) =? 0) eqn:T; [right; reflexivity|].
  exfalso. apply trim_not_blank in T. exact (R _ eq_refl T).
Qed.

Lemma POST_no_key (b : JSON) (m : jsstring) :
  request_json env = inr b ->
  message_of b = Some (JString m) ->
  not_blank m ->
  (forall c key, OPENAI_API_KEY env <> Some (c :: key)) ->
  POST env
  = ([console_error],
     failure 500
       "Server configuration error: OpenAI API key not configured").
Proof.
  intros Hb Hm Hn Hk.
  assert (N : b <> JNull) by (intros ->; discriminate Hm).
  unfold POST. rewrite (try_block_message b Hb N), bindA_pure, Hm.
  destruct (not_blank_cons m Hn) as (d & rest & ->).
  apply trim_not_blank in Hn. rewrite Hn.
  destruct (OPENAI_API_KEY env) as [[|c key]|]; try reflexivity.
  now destruct (Hk c key).
Qed.

Lemma POST_call_thrown (m : jsstring) (e : Thrown) :
  accepted env m -> create_content env m = inl e ->
  POST env
  = ([completions_create m; console_error], snd (catch_block e)).
Proof.
  intros A C. unfold POST.
  rewrite (try_block_accepted m A), bindA_effect, C.
  reflexivity.
Qed.

Lemma POST_no_content (m : jsstring) :
  accepted env m ->
  create_content env m = inr None \/ create_content env m = inr (Some []) ->
  POST env
  = ([completions_create m], failure 500 "No response from OpenAI").
Proof.
  intros A C. unfold POST. rewrite (try_block_accepted m A), bindA_effect.
  now destruct C as [-> | ->].
Qed.

Lemma POST_not_parsed (m content : jsstring) :
  answer env m content -> JSON_parse env content = None ->
  POST env
  = ([completions_create m; console_error],
     failure 500 "Failed to parse schedule response").
Proof.
  intros (A & C & N) P. unfold POST.
  rewrite (try_block_accepted m A), bindA_effect, C, bindA_await.
  destruct content as [|c content]; [now destruct N|].
  cbv beta iota. now rewrite P.
Qed.

Lemma bindA_call {A B} (a : A) (k : A -> Act B) :
  (x <- call (inr a) ;; k x) = k a.
Proof. unfold bindA, call. now destruct (k a). Qed.

(** [validateSchedule] returns on the value the content denotes. *)
Lemma POST_validated (m content : jsstring) (value : JSON)
    (validation : ValidationResult) :
  answer env m content -> JSON_parse env content = Some value ->
  Untyped.validateSchedule env value = inr validation ->
  POST env
  = (completions_create m
     :: (if isValid validation then [] else [console_warn]),
     {| status := 200;
        body := schedule_body value
                  (if isValid validation then None
                   else Some (errors validation)) |}).
Proof.
  intros (A & C & N) P V. unfold POST.
  rewrite (try_block_accepted m A), bindA_effect, C, bindA_await.
  destruct content as [|c content]; [now destruct N|].
  cbv beta iota. rewrite P, V, bindA_call.
  now destruct (isValid validation).
Qed.

(** [validateSchedule] throws on the value the content denotes. *)
Lemma POST_validation_thrown (m content : jsstring) (value : JSON)
    (e : Thrown) :
  answer env m content -> JSON_parse env content = Some value ->
  Untyped.validateSchedule env value = inl e ->
  POST env
  = ([completions_create m; console_error], snd (catch_block e)).
Proof.
  intros (A & C & N) P V. unfold POST.
  rewrite (try_block_accepted m A), bindA_effect, C, bindA_await.
  destruct content as [|c content]; [now destruct N|].
  cbv beta iota. rewrite P, V. reflexivity.
Qed.


(** What is read of the request decides between five cases. *)
Lemma request_cases :
  (exists e, request_json env = inl e)
  \/ request_json env = inr JNull
  \/ refused env
  \/ (exists b m,
        request_json env = inr b /\ message_of b = Some (JString m)
        /\ not_blank m
        /\ forall c key, OPENAI_API_KEY env <> Some (c :: key))
  \/ (exists m, accepted env m).
Proof.
  destruct (request_json env) as [e|b] eqn:Hb; [left; now eauto|].
  right.
  assert (D : b = JNull \/ b <> JNull)
    by (destruct b; (now left) || (right; discriminate)).
  destruct D as [->|N]; [now left|]. right.
  assert (R : (exists m, message_of b = Some (JString m) /\ not_blank m)
              \/ forall m, message_of b = Some (JString m) -> ~ not_blank m).
  { destruct (message_of b) as [[| | |m| |]|]; try (right; discriminate).
    destruct (blank_or_not m) as [B|Nb].
    - right. intros m' E (c & I & W). injection E as <-.
      rewrite Forall_forall in B. specialize (B c I). congruence.
    - left. now exists m. }
  destruct R as [(m & Hm & Hn)|R]; [|left; now exists b].
  right.
  destruct (OPENAI_API_KEY env) as [[|c key]|] eqn:Hk.
  - left. exists b, m. repeat split; try assumption. discriminate.
  - right. exists m. repeat split; [now exists b | exact Hn | now eauto].
  - left. exists b, m. repeat split; try assumption. discriminate.
Qed.

(** What the call to OpenAI gives decides between four more. *)
Lemma answer_cases (m : jsstring) :
  (exists e, create_content env m = inl e)
  \/ (create_content env m = inr None
      \/ create_content env m = inr (Some []))
  \/ (exists content,
        create_content env m = inr (Some content) /\ content <> []
        /\ JSON_parse env content = None)
  \/ (exists content value,
        create_content env m = inr (Some content) /\ content <> []
        /\ JSON_parse env content = Some value).
Proof.
  destruct (create_content env m) as [e|[[|c content]|]];
    [left; now eauto | right; left; now right | | right; left; now left].
  right. right.
  destruct (JSON_parse env (c :: content)) as [value|] eqn:P.
  - right. exists (c :: content), value. repeat split; auto. discriminate.
  - left. exists (c :: content). repeat split; auto. discriminate.
Qed.

Lemma catch_status (e : Thrown) :
  (error_status e = Some 429%Z /\ status (snd (catch_block e)) = 429%Z)
  \/ (error_status e <> Some 429%Z
      /\ status (snd (catch_block e)) = 500%Z).
Proof.
  unfold catch_block, status_is. cbn [snd].
  destruct (error_status e) as [s|];
    [|right; split; [discriminate|reflexivity]].
  destruct (s =? 401)%Z eqn:E1.
  - apply Z.eqb_eq in E1. subst s. right. split; [discriminate|reflexivity].
  - destruct (s =? 429)%Z eqn:E2.
    + apply Z.eqb_eq in E2. subst s. left. split; reflexivity.
    + apply Z.eqb_neq in E2. right. split; [congruence|reflexivity].
Qed.


(** Every request takes one of nine paths. *)
Lemma POST_paths :
  (exists e,
     request_json env = inl e
     /\ POST env = ([console_error], snd (catch_block e)))
  \/ (request_json env = inr JNull
      /\ POST env
         = ([console_error],
            snd (catch_block (TypeError env destructure_null))))
  \/ (refused env /\ exists text, POST env = ([], failure 400 text))
  \/ (exists b m text,
        request_json env = inr b /\ message_of b = Some (JString m)
        /\ not_blank m
        /\ (forall c key, OPENAI_API_KEY env <> Some (c :: key))
        /\ POST env = ([console_error], failure 500 text))
  \/ (exists m e,
        accepted env m /\ create_content env m = inl e
        /\ POST env
           = ([completions_create m; console_error], snd (catch_block e)))
  \/ (exists m text,
        accepted env m
        /\ (create_content env m = inr None
            \/ create_content env m = inr (Some []))
        /\ POST env = ([completions_create m], failure 500 text))
  \/ (exists m content text,
        answer env m content /\ JSON_parse env content = None
        /\ POST env
           = ([completions_create m; console_error], failure 500 text))
  \/ (exists m content value e,
        answer env m content /\ JSON_parse env content = Some value
        /\ Untyped.validateSchedule env value = inl e
        /\ POST env
           = ([completions_create m; console_error], snd (catch_block e)))
  \/ (exists m content value validation,
        answer env m content /\ JSON_parse env content = Some value
        /\ Untyped.validateSchedule env value = inr validation
        /\ POST env
           = (completions_create m
              :: (if isValid validation then [] else [console_warn]),
              {| status := 200;
                 body := schedule_body value
                           (if isValid validation then None
                            else Some (errors validation)) |})).
Proof.
  destruct request_cases
    as [(e & Hb)|[Hb|[R|[(b & m & Hb & Hm & Hn & Hk)|(m & A)]]]].
  - left. exists e. split; [exact Hb | now apply POST_body_thrown].
  - right. left. split; [exact Hb | now apply POST_null].
  - do 2 right. left. split; [exact R|].
    destruct (POST_refused R) as [E|E]; rewrite E; eexists; reflexivity.
  - do 3 right. left. exists b, m. eexists.
    split; [exact Hb | split; [exact Hm | split; [exact Hn | split;
      [exact Hk | now apply (POST_no_key b m)]]]].
  - do 4 right.
    destruct (answer_cases m)
      as [(e & C)|[C|[(content & C & N & P)|(content & value & C & N & P)]]].
    + left. exists m, e.
      split; [exact A | split; [exact C | now apply POST_call_thrown]].
    + right. left. exists m. eexists.
      split; [exact A | split; [exact C | now apply POST_no_content]].
    + do 2 right. left. exists m, content. eexists.
      assert (An : answer env m content) by (split; [exact A | now split]).
      split; [exact An | split; [exact P|]].
      now apply (POST_not_parsed m content).
    + do 3 right.
      assert (An : answer env m content) by (split; [exact A | now split]).
      destruct (Untyped.validateSchedule env value) as [e|v] eqn:V.
      * left. exists m, content, value, e.
        split; [exact An | split; [exact P | split; [exact V|]]].
        now apply (POST_validation_thrown m content value).
      * right. exists m, content, value, v.
        split; [exact An | split; [exact P | split; [exact V|]]].
        now apply (POST_validated m content value).
Qed.

(** The ways a request can go exclude one another. *)
Lemma accepted_not_refused (m : jsstring) :
  accepted env m -> ~ refused env.
Proof.
  intros ((b & Hb & Hm) & Hn & _) (b' & Hb' & _ & R).
  rewrite Hb in Hb'. injection Hb' as <-. exact (R m Hm Hn).
Qed.

Lemma answer_unique (m m' content content' : jsstring) :
  answer env m content -> answer env m' content' ->
  m = m' /\ content = content'.
Proof.
  intros (A & C & _) (A' & C' & _).
  pose proof (accepted_unique m m' A A') as <-. split; congruence.
Qed.

(** Once the request is accepted, a value can only be thrown by the call
    to OpenAI or by [validateSchedule]. *)
Lemma thrown_accepted (e : Thrown) (m : jsstring) :
  thrown env e -> accepted env m ->
  create_content env m = inl e
  \/ exists content value,
       answer env m content /\ JSON_parse env content = Some value
       /\ Untyped.validateSchedule env value = inl e.
Proof.
  intros [T|[[T _]|[(m' & A' & C)|(m' & content & value & An & P & V)]]] A.
  - destruct A as ((b & Hb & _) & _). congruence.
  - destruct A as ((b & Hb & Hm) & _). rewrite Hb in T.
    injection T as ->. discriminate Hm.
  - left. now rewrite (accepted_unique m m' A A').
  - right. destruct An as (A' & C' & N').
    rewrite <- (accepted_unique m m' A A') in C'.
    exists content, value.
    split; [split; [exact A | split; [exact C' | exact N']]|].
    split; [exact P | exact V].
Qed.

Lemma thrown_not_refused (e : Thrown) : thrown env e -> ~ refused env.
Proof.
  intros [T|[[T _]|[(m & A & _)|(m & content & value & (A & _) & _)]]] R.
  - destruct R as (b & Hb & _). congruence.
  - destruct R as (b & Hb & N & _). rewrite Hb in T.
    injection T as ->. now destruct N.
  - exact (accepted_not_refused m A R).
  - exact (accepted_not_refused m A R).
Qed.

Lemma thrown_not_validated (e : Thrown) (value : JSON)
    (validation : ValidationResult) :
  thrown env e -> ~ validated env value validation.
Proof.
  intros T (m & content & An & P & V). pose proof An as (A & C & _).
  destruct (thrown_accepted e m T A)
    as [C'|(content' & value' & An' & P' & V')].
  - congruence.
  - destruct (answer_unique m m content' content An' An) as [_ ->].
    congruence.
Qed.

Lemma thrown_unique (e e' : Thrown) :
  thrown env e -> thrown env e' -> e = e'.
Proof.
  intros [T|[[T Q]|[(m & A & C)|(m & content & value & An & P & V)]]] T'.
  - destruct T' as [T'|[[T' _]|[(m' & ((b & Hb & _) & _) & _)|
      (m' & c' & v' & (((b & Hb & _) & _) & _) & _)]]]; congruence.
  - destruct T' as [T'|[[T' Q']|[(m' & ((b & Hb & Hm) & _) & _)|
      (m' & c' & v' & (((b & Hb & Hm) & _) & _) & _)]]];
      [congruence | congruence | |];
      rewrite Hb in T; injection T as ->; discriminate Hm.
  - destruct (thrown_accepted e' m T' A)
      as [C'|(content' & value' & (_ & C' & _) & _)]; congruence.
  - pose proof An as (A & C & _).
    destruct (thrown_accepted e' m T' A)
      as [C'|(content' & value' & An' & P' & V')]; [congruence|].
    destruct (answer_unique m m content' content An' An) as [_ ->].
    congruence.
Qed.

End Paths.

(** Telling the paths apart. *)
Ltac tell_apart :=
  repeat match goal with
         | H : accepted _ _ |- _ =>
           destruct H as ((? & ? & ?) & ? & (? & ? & ?))
         | H : answer _ _ _ |- _ => destruct H as (? & ? & ?)
         | H : refused _ |- _ => destruct H as (? & ? & ? & ?)
         | H : exists _, _ |- _ => destruct H
         | H : _ /\ _ |- _ => destruct H
         | H : _ \/ _ |- _ => destruct H
         | H1 : request_json ?env = _, H2 : request_json ?env = _ |- _ =>
           rewrite H1 in H2;
           first [discriminate H2 | injection H2 as H2; subst]
         | H1 : message_of ?b = _, H2 : message_of ?b = _ |- _ =>
           rewrite H1 in H2;
           first [discriminate H2 | injection H2 as H2; subst]
         | H1 : create_content ?env ?m = _,
           H2 : create_content ?env ?m = _ |- _ =>
           rewrite H1 in H2;
           first [discriminate H2 | injection H2 as H2; subst]
         | H1 : JSON_parse ?env ?c = _, H2 : JSON_parse ?env ?c = _ |- _ =>
           rewrite H1 in H2;
           first [discriminate H2 | injection H2 as H2; subst]
         | H : message_of JNull = Some _ |- _ => discriminate H
         | H : ?x <> ?x |- _ => now destruct H
         end.

Section Theorems.
Context {host : Host}.

(** X18: OpenAI is asked for a completion exactly when the body of the
    request is an object whose [message] is a string that is not blank
    and the key of the server is set; it is asked once, with the message
    as it came, not trimmed. On every other request no call is made. *)
Theorem POST_calls_OpenAI (env : Env) :
  (forall m, accepted env m <-> calls (fst (POST env)) = [m])
  /\ length (calls (fst (POST env))) <= 1.
Proof.
  destruct (POST_paths env)
    as [(e & Hb & E)|[(Hb & E)|[(R & text & E)|[(b & m0 & text & Hb & Hm
         & Hn & Hk & E)|[(m0 & e & A & C & E)|[(m0 & text & A & C & E)|
         [(m0 & content & text & An & P & E)|[(m0 & content & value & e
         & An & P & V & E)|(m0 & content & value & v & An & P & V
         & E)]]]]]]]];
    rewrite E; cbn [fst calls flat_map app length].
  - split; [|lia]. intros m. split; [intros A; tell_apart | discriminate].
  - split; [|lia]. intros m. split; [intros A; tell_apart | discriminate].
  - split; [|lia]. intros m. split; [intros A; tell_apart | discriminate].
    exfalso.
    match goal with
    | H : forall m, message_of _ = _ -> ~ _ |- _ => eapply H; eassumption
    end.
  - split; [|lia]. intros m. split; [intros A; tell_apart | discriminate].
    exfalso. eapply Hk. eassumption.
  - split; [|lia]. intros m. split.
    + intros A'. now rewrite (accepted_unique env m m0 A' A).
    + intros H. injection H as <-. exact A.
  - split; [|lia]. intros m. split.
    + intros A'. now rewrite (accepted_unique env m m0 A' A).
    + intros H. injection H as <-. exact A.
  - pose proof An as (A & _). split; [|lia]. intros m. split.
    + intros A'. now rewrite (accepted_unique env m m0 A' A).
    + intros H. injection H as <-. exact A.
  - pose proof An as (A & _). split; [|lia]. intros m. split.
    + intros A'. now rewrite (accepted_unique env m m0 A' A).
    + intros H. injection H as <-. exact A.
  - pose proof An as (A & _).
    assert (Q : calls (if isValid v then [] else [console_warn]) = [])
      by now destruct (isValid v).
    change (flat_map _ (if isValid v then [] else [console_warn]))
      with (calls (if isValid v then [] else [console_warn])).
    rewrite Q. split; [|cbn [length]; lia]. intros m. split.
    + intros A'. now rewrite (accepted_unique env m m0 A' A).
    + intros H. injection H as <-. exact A.
Qed.


(** X20: the status of the response is 200, 400, 429 or 500. It is 200
    exactly when OpenAI answers with a content that denotes a value on
    which [validateSchedule] returns, and such a value has an array of
    events; 400 exactly when the request has a body other than [null]
    without a message that is a string and not blank; 429 exactly when a
    value with the status 429 is thrown. So it is 500 for a body that
    cannot be read or is [null], for a missing key, for an answer of
    OpenAI that is empty or does not parse, and whenever a [TypeError] is
    thrown, as [validateSchedule] does on a value without an array of
    events. *)
Theorem POST_status (env : Env) :
  let response := snd (POST env) in
  (status response = 200 \/ status response = 400
   \/ status response = 429 \/ status response = 500)%Z
  /\ (status response = 200%Z <->
      exists value validation, validated env value validation)
  /\ (status response = 400%Z <-> refused env)
  /\ (status response = 429%Z <->
      exists e, thrown env e /\ error_status e = Some 429%Z)
  /\ (forall value validation,
        validated env value validation ->
        exists items, events_of value = Some items)
  /\ (forall fault,
        thrown env (TypeError env fault) -> status response = 500%Z).
Proof.
  cbv zeta.
  assert (Caught : forall e,
            thrown env e -> snd (POST env) = snd (catch_block e) ->
            (status (snd (POST env)) = 200 \/ status (snd (POST env)) = 400
             \/ status (snd (POST env)) = 429
             \/ status (snd (POST env)) = 500)%Z
            /\ (status (snd (POST env)) = 200%Z <->
                exists value validation, validated env value validation)
            /\ (status (snd (POST env)) = 400%Z <-> refused env)
            /\ (status (snd (POST env)) = 429%Z <->
                exists e, thrown env e /\ error_status e = Some 429%Z)).
  { intros e T E. rewrite E.
    destruct (catch_status e) as [[S Q]|[S Q]]; rewrite Q;
      (split; [auto|]); (split; [|split]).
    - split; [discriminate|]. intros (value & validation & V).
      now destruct (thrown_not_validated env e value validation T V).
    - split; [discriminate|]. intros R.
      now destruct (thrown_not_refused env e T R).
    - split; [|reflexivity]. intros _. now exists e.
    - split; [discriminate|]. intros (value & validation & V).
      now destruct (thrown_not_validated env e value validation T V).
    - split; [discriminate|]. intros R.
      now destruct (thrown_not_refused env e T R).
    - split; [discriminate|]. intros (e' & T' & S').
      rewrite (thrown_unique env e e' T T') in S. congruence. }
  assert (Failed : status (snd (POST env)) = 500%Z ->
            ~ refused env -> (forall e, ~ thrown env e) ->
            (forall value validation, ~ validated env value validation) ->
            (status (snd (POST env)) = 200 \/ status (snd (POST env)) = 400
             \/ status (snd (POST env)) = 429
             \/ status (snd (POST env)) = 500)%Z
            /\ (status (snd (POST env)) = 200%Z <->
                exists value validation, validated env value validation)
            /\ (status (snd (POST env)) = 400%Z <-> refused env)
            /\ (status (snd (POST env)) = 429%Z <->
                exists e, thrown env e /\ error_status e = Some 429%Z)).
  { intros S R T An. rewrite S. (split; [auto|]); (split; [|split]).
    - split; [discriminate|]. intros (value & validation & V).
      now destruct (An value validation V).
    - split; [discriminate|]. intros R'. now destruct R.
    - split; [discriminate|]. intros (e & T' & _). now destruct (T e). }
  assert (Law :
            (status (snd (POST env)) = 200 \/ status (snd (POST env)) = 400
             \/ status (snd (POST env)) = 429
             \/ status (snd (POST env)) = 500)%Z
            /\ (status (snd (POST env)) = 200%Z <->
                exists value validation, validated env value validation)
            /\ (status (snd (POST env)) = 400%Z <-> refused env)
            /\ (status (snd (POST env)) = 429%Z <->
                exists e, thrown env e /\ error_status e = Some 429%Z)).
  { destruct (POST_paths env)
      as [(e & Hb & E)|[(Hb & E)|[(R & text & E)|[(b & m0 & text & Hb & Hm
           & Hn & Hk & E)|[(m0 & e & A & C & E)|[(m0 & text & A & C & E)|
           [(m0 & content & text & An & P & E)|[(m0 & content & value & e
           & An & P & V & E)|(m0 & content & value & v & An & P & V
           & E)]]]]]]]].
    - apply (Caught e); [now left | now rewrite E].
    - apply (Caught (TypeError env destructure_null));
        [right; left; now split | now rewrite E].
    - rewrite E. cbn [snd failure status].
      (split; [auto|]); (split; [|split]).
      + split; [discriminate|].
        intros (value & validation & m & content & (A & _) & _).
        now destruct (accepted_not_refused env m A R).
      + split; [intros _; exact R | reflexivity].
      + split; [discriminate|]. intros (e & T & _).
        now destruct (thrown_not_refused env e T R).
    - assert (NA : forall m, ~ accepted env m).
      { intros m (_ & _ & (c & key & K)). exact (Hk c key K). }
      apply Failed.
      + now rewrite E.
      + intros (b' & Hb' & _ & R). rewrite Hb in Hb'. injection Hb' as <-.
        exact (R m0 Hm Hn).
      + intros e [T|[[T _]|[(m & A & _)|(m & c' & v' & (A & _) & _)]]].
        * congruence.
        * rewrite Hb in T. injection T as ->. discriminate Hm.
        * exact (NA m A).
        * exact (NA m A).
      + intros value validation (m & content & (A & _) & _).
        exact (NA m A).
    - apply (Caught e); [right; right; left; now exists m0 | now rewrite E].
    - apply Failed.
      + now rewrite E.
      + now apply (accepted_not_refused env m0).
      + intros e T.
        destruct (thrown_accepted env e m0 T A)
          as [Q|(c' & v' & (_ & Q & N') & _)];
          destruct C as [C|C]; congruence.
      + intros value validation (m & content & (A' & C' & N') & _).
        rewrite (accepted_unique env m m0 A' A) in C'.
        destruct C as [C|C]; congruence.
    - pose proof An as (A & C & N). apply Failed.
      + now rewrite E.
      + now apply (accepted_not_refused env m0).
      + intros e T.
        destruct (thrown_accepted env e m0 T A)
          as [Q|(c' & v' & An' & P' & _)]; [congruence|].
        destruct (answer_unique env m0 m0 c' content An' An) as [_ ->].
        congruence.
      + intros value validation (m & content' & An' & P' & _).
        destruct (answer_unique env m m0 content' content An' An)
          as [_ ->].
        congruence.
    - apply (Caught e); [|now rewrite E].
      do 3 right. exists m0, content, value.
      split; [exact An | split; [exact P | exact V]].
    - assert (Vd : validated env value v).
      { exists m0, content.
        split; [exact An | split; [exact P | exact V]]. }
      rewrite E. cbn [snd status].
      (split; [auto|]); (split; [|split]).
      + split; [|reflexivity]. intros _. now exists value, v.
      + split; [discriminate|]. intros R. destruct An as (A & _).
        now destruct (accepted_not_refused env m0 A R).
      + split; [discriminate|]. intros (e & T & _).
        now destruct (thrown_not_validated env e value v T Vd). }
  destruct Law as (L1 & L2 & L3 & L4).
  split; [exact L1|]. split; [exact L2|]. split; [exact L3|].
  split; [exact L4|]. split.
  - intros value validation (m & content & _ & _ & V).
    exact (validateSchedule_returns_events env value validation V).
  - intros fault T.
    destruct L1 as [S|[S|[S|S]]]; [| | |exact S]; exfalso.
    + apply L2 in S. destruct S as (value & validation & V).
      exact (thrown_not_validated env _ value validation T V).
    + apply L3 in S. exact (thrown_not_refused env _ T S).
    + apply L4 in S. destruct S as (e' & T' & S').
      rewrite <- (thrown_unique env _ e' T T') in S'.
      unfold TypeError in S'. discriminate S'.
Qed.

End Theorems.

Section Witnesses.
Import Examples.
#[local] Existing Instance RefHost.utc.


Lemma POST_status_witness :
  let answers (value : JSON) :=
    {| request_json :=
         inr (JObject [(lit "message", JString (lit " plan my week "))]);
       OPENAI_API_KEY := Some (lit "sk-test");
       create_content := fun _ => inr (Some (lit "{ }"));
       JSON_parse := fun _ => Some value;
       TypeError_message := fun _ => lit "TypeError";
       Number_truthy := fun _ => true;
       Number_toString := fun text => text;
       Number_time := fun _ => None |} in
  status (snd (POST (answers
                       (JObject [(lit "timezone", JString (lit "UTC"))]))))
  = 500%Z
  /\ status (snd (POST (answers (JObject [(lit "events", JArray [])]))))
     = 200%Z.
Proof.
  cbv beta zeta.
  assert (An : forall value,
             answer
               {| request_json :=
                    inr (JObject
                           [(lit "message",
                             JString (lit " plan my week "))]);
                  OPENAI_API_KEY := Some (lit "sk-test");
                  create_content := fun _ => inr (Some (lit "{ }"));
                  JSON_parse := fun _ => Some value;
                  TypeError_message := fun _ => lit "TypeError";
                  Number_truthy := fun _ => true;
                  Number_toString := fun text => text;
                  Number_time := fun _ => None |}
               (lit " plan my week ") (lit "{ }")).
  { intros value. split; [split; [|split]|split].
    - eexists. split; reflexivity.
    - exists 112%N. split; [vm_compute; tauto | reflexivity].
    - now exists 115%N, (lit "k-test").
    - reflexivity.
    - discriminate. }
  split.
  - match goal with
    | |- status (snd (POST ?env)) = _ =>
      apply (proj2 (proj2 (proj2 (proj2 (proj2 (POST_status env)))))
               (read_of_undefined (lit "forEach")))
    end.
    do 3 right. exists (lit " plan my week "), (lit "{ }").
    eexists. split; [apply An | split; reflexivity].
  - match goal with
    | |- status (snd (POST ?env)) = _ =>
      apply (proj2 (proj1 (proj2 (POST_status env))))
    end.
    exists (JObject [(lit "events", JArray [])]).
    exists {| isValid := false; errors := [lit "Timezone is required"] |}.
    exists (lit " plan my week "), (lit "{ }").
    split; [apply An | split; reflexivity].
Defined.

End Witnesses.

End RouteProofs.
